(** * Executors: a thread-pool executor with tasks, futures and combinators

    A model of [include/executors/ubqueue.h], [include/executors/executors.h]
    and [src/executors.cpp].

    - The heap of [std::shared_ptr<Task>] objects is a list of futures; a
      handle is an index into it, [make_shared] appends.  Dereferencing a
      handle that names no object has no defined behaviour.
    - A call returns, raises, blocks or has no defined behaviour: [Outcome].
    - Every method comes in a sequential form, a function of the store that
      runs the method from entry to exit, and [Task::TryExecute] and
      [Task::Cancel] also come as a machine of atomic steps that threads
      interleave.
    - [Task::Wait] and the calls of [cv_.notify_all()] come in a second
      machine, which takes the steps of the first and adds the places of
      [Wait] and the threads asleep on a task's [cv_]. *)

From Stdlib Require Import ZArith Lia.
From stdpp Require Import base decidable option list relations strings.

Set Warnings "-register-all".
Open Scope Z_scope.

(** [c.empty()] for a container [c]. *)
Definition empty {A} (l : list A) : bool :=
  match l with [] => true | _ :: _ => false end.

(** ** ubqueue.h: [Queue<T>] *)

Module Queue.

Record t (A : Type) := Mk { data_ : list A; is_canceled_ : bool }.
Arguments Mk {A} _ _.
Arguments data_ {A} _.
Arguments is_canceled_ {A} _.

(** [Queue() = default]. *)
Definition new {A} : t A := Mk [] false.

(** [bool Push(T value)]: the queue after the call and the value returned. *)
Definition Push {A} (value : A) (q : t A) : t A * bool :=
  if is_canceled_ q then (q, false)
  else (Mk (data_ q ++ [value]) (is_canceled_ q), true).

(** [std::optional<T> Pop()].  [None] when the wait predicate
    [is_canceled_ || !data_.empty()] is false: the caller stays blocked.
    Otherwise the value returned ([None] for [std::nullopt]) and the queue
    after the call. *)
Definition Pop {A} (q : t A) : option (option A * t A) :=
  if is_canceled_ q || negb (empty (data_ q)) then
    if is_canceled_ q && empty (data_ q) then Some (None, q)
    else Some (head (data_ q), Mk (tail (data_ q)) (is_canceled_ q))
  else None.

Definition IsCanceled {A} (q : t A) : bool := is_canceled_ q.

Definition Cancel {A} (q : t A) : t A := Mk (data_ q) true.

(** [n] calls of [Push], one per element, first element first. *)
Definition push_all {A} (xs : list A) (q : t A) : t A :=
  foldl (fun q x => fst (Push x q)) q xs.

(** A caller's request and the queue's reply. *)
Inductive Call (A : Type) := CPush (value : A) | CPop.
Inductive Reply (A : Type) := RPush (accepted : bool) | RPop (result : option A).
Arguments CPush {A} _.
Arguments CPop {A}.
Arguments RPush {A} _.
Arguments RPop {A} _.

(** A sequence of calls, one after the other: the replies in call order and
    the queue left; [None] when a [Pop] among them blocks. *)
Fixpoint calls {A} (cs : list (Call A)) (q : t A) : option (list (Reply A) * t A) :=
  match cs with
  | [] => Some ([], q)
  | CPush value :: rest =>
      match calls rest (Push value q).1 with
      | None => None
      | Some (rs, q') => Some (RPush (Push value q).2 :: rs, q')
      end
  | CPop :: rest =>
      match Pop q with
      | None => None
      | Some (r, q1) =>
          match calls rest q1 with
          | None => None
          | Some (rs, q') => Some (RPop r :: rs, q')
          end
      end
  end.

(** The replies to the [Push] calls and to the [Pop] calls. *)
Definition push_replies {A} (rs : list (Reply A)) : list bool :=
  omap (fun r => match r with RPush b => Some b | RPop _ => None end) rs.
Definition pop_replies {A} (rs : list (Reply A)) : list (option A) :=
  omap (fun r => match r with RPop x => Some x | RPush _ => None end) rs.
Definition is_push {A} (c : Call A) : bool :=
  match c with CPush _ => true | CPop => false end.
Definition pushes {A} (cs : list (Call A)) : nat :=
  length (List.filter is_push cs).
Definition pops {A} (cs : list (Call A)) : nat :=
  length (List.filter (fun c => negb (is_push c)) cs).

End Queue.

(** ** executors.h: task states, handles, time *)

Inductive TaskState := Pending | Running | Completed | Failed | Canceled.

#[global] Instance TaskState_eq_dec : EqDecision TaskState.
Proof. solve_decision. Defined.

(** A [TaskSharedPtr] that is not null: the index of the object. *)
Abbreviation TaskId := nat.

(** [Clock::time_point], in clock ticks. *)
Abbreviation TimePoint := Z.

(** [state != TaskState::Pending && state != TaskState::Running]. *)
Definition finished (state : TaskState) : bool :=
  negb (bool_decide (state = Pending)) && negb (bool_decide (state = Running)).

(** The transitions of the state machine. *)
Inductive transition : TaskState -> TaskState -> Prop :=
| tr_start : transition Pending Running
| tr_success : transition Running Completed
| tr_exception : transition Running Failed
| tr_cancel : transition Pending Canceled.

Section Model.

Context {T Exn : Type}.

(** The values futures hold: a [T], or a [std::vector] of values. *)
Inductive Value := Scalar (x : T) | Vector (xs : list Value).

(** How a call ends. *)
Inductive Outcome (A : Type) :=
| Returned (a : A)
| Raised (e : Exn)
| Blocked
| Undefined.
Arguments Returned {A} _.
Arguments Raised {A} _.
Arguments Blocked {A}.
Arguments Undefined {A}.

Definition bind {A B} (m : Outcome A) (k : A -> Outcome B) : Outcome B :=
  match m with
  | Returned a => k a
  | Raised e => Raised e
  | Blocked => Blocked
  | Undefined => Undefined
  end.

Local Notation "'let*' x := m 'in' k" := (bind m (fun x => k))
  (at level 10, x name, m at level 200, k at level 200).

(** The data members of [Task], and [result_] of [Future<T>].
    [exception_] is [None] for a null [std::exception_ptr]; [mutex_] is the
    thread that holds the mutex, [None] when it is free. *)
Record Task := MkTask {
  state_ : TaskState;
  dependencies_ : list TaskId;
  triggers_ : list TaskId;
  time_trigger_ : TimePoint;
  exception_ : option Exn;
  mutex_ : option nat;
  result_ : Value
}.

(** What a function object can see of the heap: every task's data. *)
Local Abbreviation Heap := (list Task).

(** [Future<T>]: the task and its [fn_], a function of the heap it runs
    in. *)
Record Future := MkFuture { task_ : Task; fn_ : Heap -> Outcome Value }.

Local Abbreviation Store := (list Future).

Definition heap (s : Store) : Heap := task_ <$> s.

(** [*p] for a handle [p]. *)
Definition deref {A} (l : list A) (p : TaskId) : Outcome A :=
  match l !! p with Some x => Returned x | None => Undefined end.

(** *** Observers of [Task] *)

Definition IsPending (this : Task) : bool := bool_decide (state_ this = Pending).
Definition IsCompleted (this : Task) : bool := bool_decide (state_ this = Completed).
Definition IsFailed (this : Task) : bool := bool_decide (state_ this = Failed).
Definition IsCanceled (this : Task) : bool := bool_decide (state_ this = Canceled).
Definition IsFinished (this : Task) : bool := finished (state_ this).
Definition GetError (this : Task) : option Exn := exception_ this.

(** [Task::Wait]: returns once [IsFinished()]. *)
Definition Wait (this : Task) : Outcome unit :=
  if IsFinished this then Returned tt else Blocked.

(** [Future<T>::Get].  [rethrow_exception] of a null pointer has no defined
    behaviour. *)
Definition Get (this : Task) : Outcome Value :=
  bind (Wait this) (fun _ =>
    if IsFailed this then
      match GetError this with
      | Some e => Raised e
      | None => Undefined
      end
    else Returned (result_ this)).

(** *** Writes to one object of the store *)

Definition set_state (st : TaskState) (this : Future) : Future :=
  MkFuture (MkTask st (dependencies_ (task_ this)) (triggers_ (task_ this))
              (time_trigger_ (task_ this)) (exception_ (task_ this))
              (mutex_ (task_ this)) (result_ (task_ this)))
           (fn_ this).

Definition set_exception (e : Exn) (this : Future) : Future :=
  MkFuture (MkTask (state_ (task_ this)) (dependencies_ (task_ this))
              (triggers_ (task_ this)) (time_trigger_ (task_ this)) (Some e)
              (mutex_ (task_ this)) (result_ (task_ this)))
           (fn_ this).

Definition set_result (v : Value) (this : Future) : Future :=
  MkFuture (MkTask (state_ (task_ this)) (dependencies_ (task_ this))
              (triggers_ (task_ this)) (time_trigger_ (task_ this))
              (exception_ (task_ this)) (mutex_ (task_ this)) v)
           (fn_ this).

Definition set_mutex (m : option nat) (this : Future) : Future :=
  MkFuture (MkTask (state_ (task_ this)) (dependencies_ (task_ this))
              (triggers_ (task_ this)) (time_trigger_ (task_ this))
              (exception_ (task_ this)) m (result_ (task_ this)))
           (fn_ this).

Definition push_dependency (dep : TaskId) (this : Future) : Future :=
  MkFuture (MkTask (state_ (task_ this)) (dependencies_ (task_ this) ++ [dep])
              (triggers_ (task_ this)) (time_trigger_ (task_ this))
              (exception_ (task_ this)) (mutex_ (task_ this)) (result_ (task_ this)))
           (fn_ this).

Definition push_trigger (dep : TaskId) (this : Future) : Future :=
  MkFuture (MkTask (state_ (task_ this)) (dependencies_ (task_ this))
              (triggers_ (task_ this) ++ [dep]) (time_trigger_ (task_ this))
              (exception_ (task_ this)) (mutex_ (task_ this)) (result_ (task_ this)))
           (fn_ this).

Definition set_time_trigger (at_ : TimePoint) (this : Future) : Future :=
  MkFuture (MkTask (state_ (task_ this)) (dependencies_ (task_ this))
              (triggers_ (task_ this)) at_
              (exception_ (task_ this)) (mutex_ (task_ this)) (result_ (task_ this)))
           (fn_ this).

(** [p->f()] for a method [f] that writes the object: the store with the
    object replaced. *)
Definition update (f : Future -> Future) (p : TaskId) (s : Store) : Store :=
  alter f p s.

(** *** executors.cpp: the methods of [Task], run from entry to exit *)

Definition AddDependency (this dep : TaskId) (s : Store) : Outcome Store :=
  let* _ := deref s this in Returned (update (push_dependency dep) this s).

Definition AddTrigger (this dep : TaskId) (s : Store) : Outcome Store :=
  let* _ := deref s this in Returned (update (push_trigger dep) this s).

Definition SetTimeTrigger (this : TaskId) (at_ : TimePoint) (s : Store) : Outcome Store :=
  let* _ := deref s this in Returned (update (set_time_trigger at_) this s).

(** The first loop of [TryExecute]: [false] when it returns from the
    function at a dependency that is not finished, [true] when it falls
    through. *)
Fixpoint dependencies_finished (h : Heap) (dependencies : list TaskId) : Outcome bool :=
  match dependencies with
  | [] => Returned true
  | task :: rest =>
      let* x := deref h task in
      if negb (IsFinished x) then Returned false
      else dependencies_finished h rest
  end.

(** The second loop: [is_trigger_happened |= task->IsFinished()]. *)
Fixpoint triggers_happened (h : Heap) (is_trigger_happened : bool)
    (triggers : list TaskId) : Outcome bool :=
  match triggers with
  | [] => Returned is_trigger_happened
  | task :: rest =>
      let* x := deref h task in
      triggers_happened h (is_trigger_happened || IsFinished x) rest
  end.

(** [Future<T>::Run]: [result_ = fn_()]. *)
Definition Run (this : TaskId) (s : Store) : Outcome Store :=
  let* x := deref s this in
  let* v := fn_ x (heap s) in
  Returned (update (set_result v) this s).

(** [Task::TryExecute], with [now] the value [Clock::now()] returns and no
    other thread running: the compare-and-exchange finds the state it
    loaded, so the loop around it is not entered.  The store after the
    call, and whether the call reached [this->Run()]. *)
Definition TryExecute (now : TimePoint) (this : TaskId) (s : Store)
    : Outcome (Store * bool) :=
  let* x := deref s this in
  let* deps := dependencies_finished (heap s) (dependencies_ (task_ x)) in
  if negb deps then Returned (s, false) else
  let* is_trigger_happened :=
    triggers_happened (heap s) (empty (triggers_ (task_ x))) (triggers_ (task_ x)) in
  if negb is_trigger_happened then Returned (s, false) else
  if now <? time_trigger_ (task_ x) then Returned (s, false) else
  if negb (bool_decide (state_ (task_ x) = Pending)) then Returned (s, false) else
  let s1 := update (set_state Running) this s in
  match Run this s1 with
  | Returned s2 => Returned (update (set_state Completed) this s2, true)
  | Raised e =>
      Returned (update (set_exception e) this (update (set_state Failed) this s1), true)
  | Blocked => Blocked
  | Undefined => Undefined
  end.

(** [Task::Cancel], with no other thread running. *)
Definition Cancel (this : TaskId) (s : Store) : Outcome Store :=
  let* x := deref s this in
  if negb (bool_decide (state_ (task_ x) = Pending)) then Returned s
  else Returned (update (set_state Canceled) this s).

(** *** executors.h: [Executor] *)

(** [std::make_shared<Future<T>>(fn)] at clock reading [now]: the new
    object is appended, its handle returned.  The constructor
    [Future(fn) : fn_(std::move(fn))] gives [T result_] no initialiser;
    [init] is what the member holds when the constructor returns
    ([default_initialized], below, says what that is for a type [T]). *)
Definition make_shared (init : Value) (fn : Heap -> Outcome Value)
    (now : TimePoint) (s : Store) : Store * TaskId :=
  (s ++ [MkFuture (MkTask Pending [] [] now None None init) fn], length s).

(** The executor: its queue of task handles ([None] is a null pointer).
    The threads of [thread_pool_] are the callers of [worker]. *)
Record Executor := MkExecutor { scheduler_ : Queue.t (option TaskId) }.

Definition Submit (task : TaskId) (w : Store * Executor) : Outcome (Store * Executor) :=
  if Queue.IsCanceled (scheduler_ w.2) then
    let* s' := Cancel task w.1 in Returned (s', w.2)
  else
    let* x := deref w.1 task in
    if IsPending (task_ x) then
      Returned (w.1, MkExecutor (Queue.Push (Some task) (scheduler_ w.2)).1)
    else Returned w.

Definition StartShutdown (w : Store * Executor) : Store * Executor :=
  (w.1, MkExecutor (Queue.Cancel (scheduler_ w.2))).

(** One pass of the loop a worker thread runs, at clock reading [now]:
    the state after it and whether the loop goes on ([false]: [Pop]
    returned [nullopt] and the thread ends). *)
Definition worker (now : TimePoint) (w : Store * Executor)
    : Outcome (Store * Executor * bool) :=
  match Queue.Pop (scheduler_ w.2) with
  | None => Blocked
  | Some (None, q) => Returned (w.1, MkExecutor q, false)
  | Some (Some None, q) => Returned (w.1, MkExecutor q, true)
  | Some (Some (Some task), q) =>
      let* x := deref w.1 task in
      if IsCanceled (task_ x) then Returned (w.1, MkExecutor q, true) else
      let* r := TryExecute now task w.1 in
      let* x' := deref r.1 task in
      if negb (IsFinished (task_ x')) then
        Returned (r.1, MkExecutor (Queue.Push (Some task) q).1, true)
      else Returned (r.1, MkExecutor q, true)
  end.

(** *** The function objects of the combinators *)

(** The loop of [WhenAll]'s lambda: [result.push_back(task->Get())]. *)
Fixpoint WhenAll_loop (h : Heap) (all : list TaskId) (result : list Value)
    : Outcome (list Value) :=
  match all with
  | [] => Returned result
  | task :: rest =>
      let* x := deref h task in
      let* v := Get x in
      WhenAll_loop h rest (result ++ [v])
  end.

Definition WhenAll_fn (all : list TaskId) (h : Heap) : Outcome Value :=
  let* result := WhenAll_loop h all [] in Returned (Vector result).

(** The loop of [WhenFirst]'s lambda: [Some] when it returns from the
    lambda, [None] when it falls through. *)
Fixpoint WhenFirst_loop (h : Heap) (all : list TaskId) : option (Outcome Value) :=
  match all with
  | [] => None
  | task :: rest =>
      match h !! task with
      | None => Some Undefined
      | Some x => if IsFinished x then Some (Get x) else WhenFirst_loop h rest
      end
  end.

(** [all.front()]; a vector with no element has no front. *)
Definition front (all : list TaskId) : Outcome TaskId :=
  match all with
  | [] => Undefined
  | task :: _ => Returned task
  end.

Definition WhenFirst_fn (all : list TaskId) (h : Heap) : Outcome Value :=
  match WhenFirst_loop h all with
  | Some r => r
  | None =>
      let* task := front all in
      let* x := deref h task in
      Get x
  end.

(** The loop of [WhenAllBeforeDeadline]'s lambda. *)
Fixpoint WhenAllBeforeDeadline_loop (h : Heap) (all : list TaskId)
    (result : list Value) : Outcome (list Value) :=
  match all with
  | [] => Returned result
  | task :: rest =>
      let* x := deref h task in
      if IsFinished x then
        let* v := Get x in
        WhenAllBeforeDeadline_loop h rest (result ++ [v])
      else WhenAllBeforeDeadline_loop h rest result
  end.

Definition WhenAllBeforeDeadline_fn (all : list TaskId) (h : Heap) : Outcome Value :=
  let* result := WhenAllBeforeDeadline_loop h all [] in Returned (Vector result).

(** *** The combinators of [Executor]

    Each takes the clock reading [now] at which the future is made;
    [init] is the default-initialised [result_] of the [Future<T>] or
    [Future<Y>] made (a [Future<std::vector<T>>] starts with the empty
    vector). *)

Definition Invoke (init : Value) (fn : Heap -> Outcome Value) (now : TimePoint)
    (w : Store * Executor) : Outcome (Store * Executor * TaskId) :=
  let '(s1, task_ptr) := make_shared init fn now w.1 in
  let* w' := Submit task_ptr (s1, w.2) in
  Returned (w', task_ptr).

Definition Then (init : Value) (input : TaskId) (fn : Heap -> Outcome Value)
    (now : TimePoint) (w : Store * Executor) : Outcome (Store * Executor * TaskId) :=
  let '(s1, task_ptr) := make_shared init fn now w.1 in
  let* s2 := AddDependency task_ptr input s1 in
  let* w' := Submit task_ptr (s2, w.2) in
  Returned (w', task_ptr).

(** [for (const auto& dep : all) task_ptr->AddDependency(dep)]. *)
Fixpoint add_dependencies (task_ptr : TaskId) (all : list TaskId) (s : Store)
    : Outcome Store :=
  match all with
  | [] => Returned s
  | dep :: rest =>
      let* s' := AddDependency task_ptr dep s in
      add_dependencies task_ptr rest s'
  end.

(** [for (const auto& dep : all) task_ptr->AddTrigger(dep)]. *)
Fixpoint add_triggers (task_ptr : TaskId) (all : list TaskId) (s : Store)
    : Outcome Store :=
  match all with
  | [] => Returned s
  | dep :: rest =>
      let* s' := AddTrigger task_ptr dep s in
      add_triggers task_ptr rest s'
  end.

Definition WhenAll (all : list TaskId) (now : TimePoint) (w : Store * Executor)
    : Outcome (Store * Executor * TaskId) :=
  let '(s1, task_ptr) := make_shared (Vector []) (WhenAll_fn all) now w.1 in
  let* s2 := add_dependencies task_ptr all s1 in
  let* w' := Submit task_ptr (s2, w.2) in
  Returned (w', task_ptr).

Definition WhenFirst (init : Value) (all : list TaskId) (now : TimePoint)
    (w : Store * Executor) : Outcome (Store * Executor * TaskId) :=
  let '(s1, task_ptr) := make_shared init (WhenFirst_fn all) now w.1 in
  let* s2 := add_triggers task_ptr all s1 in
  let* w' := Submit task_ptr (s2, w.2) in
  Returned (w', task_ptr).

Definition WhenAllBeforeDeadline (all : list TaskId) (deadline : TimePoint)
    (now : TimePoint) (w : Store * Executor) : Outcome (Store * Executor * TaskId) :=
  let '(s1, task_ptr) :=
    make_shared (Vector []) (WhenAllBeforeDeadline_fn all) now w.1 in
  let* s2 := SetTimeTrigger task_ptr deadline s1 in
  let* w' := Submit task_ptr (s2, w.2) in
  Returned (w', task_ptr).

(** *** The executor and its callers, one call at a time

    What can happen to an executor and the objects it schedules: a pass
    of a worker's loop, or a call by any other thread. *)

Inductive Event :=
| Ev_worker (now : TimePoint)
| Ev_Submit (task : TaskId)
| Ev_StartShutdown
| Ev_Cancel (task : TaskId)
| Ev_TryExecute (now : TimePoint) (task : TaskId)
| Ev_make_shared (init : Value) (fn : Heap -> Outcome Value) (now : TimePoint)
| Ev_AddDependency (this dep : TaskId)
| Ev_AddTrigger (this dep : TaskId)
| Ev_SetTimeTrigger (this : TaskId) (at_ : TimePoint).

Definition event (ev : Event) (w : Store * Executor) : Outcome (Store * Executor) :=
  match ev with
  | Ev_worker now => let* r := worker now w in Returned r.1
  | Ev_Submit task => Submit task w
  | Ev_StartShutdown => Returned (StartShutdown w)
  | Ev_Cancel task => let* s := Cancel task w.1 in Returned (s, w.2)
  | Ev_TryExecute now task => let* r := TryExecute now task w.1 in Returned (r.1, w.2)
  | Ev_make_shared init fn now => Returned ((make_shared init fn now w.1).1, w.2)
  | Ev_AddDependency this dep => let* s := AddDependency this dep w.1 in Returned (s, w.2)
  | Ev_AddTrigger this dep => let* s := AddTrigger this dep w.1 in Returned (s, w.2)
  | Ev_SetTimeTrigger this at_ => let* s := SetTimeTrigger this at_ w.1 in Returned (s, w.2)
  end.

Fixpoint events (evs : list Event) (w : Store * Executor) : Outcome (Store * Executor) :=
  match evs with
  | [] => Returned w
  | ev :: rest => let* w' := event ev w in events rest w'
  end.


(** An executor just made: [Queue() = default]. *)
Definition new_executor : Executor := MkExecutor Queue.new.

(** *** [TryExecute] and [Cancel], one atomic step at a time

    A thread inside [Task::TryExecute] or [Task::Cancel] is at one of the
    places below; what a place carries are the call's local variables.
    The places of [TryExecute] after [TE_lock] hold [mutex_]. *)

Inductive Pc :=
| TE_lock                                    (* scoped_lock{mutex_} *)
| TE_dependencies (rest : list TaskId)       (* for (task : dependencies_) *)
| TE_triggers (is_trigger_happened : bool) (rest : list TaskId)
| TE_clock                                   (* Clock::now() < time_trigger_ *)
| TE_load                                    (* state = state_.load() *)
| TE_cas (state : TaskState)                 (* compare_exchange_weak(state, Running) *)
| TE_reload (state : TaskState)              (* the load inside the loop *)
| TE_run                                     (* this->Run() *)
| TE_set_failed (e : Exn)                    (* state_ = Failed *)
| TE_set_exception (e : Exn)                 (* exception_ = current_exception() *)
| TE_set_completed                           (* state_ = Completed *)
| TE_unlock                                  (* return: the lock is released *)
| CA_load                                    (* state = state_.load() *)
| CA_cas (state : TaskState)                 (* compare_exchange_weak(state, Canceled) *)
| CA_reload (state : TaskState)
| Done.

(** A thread in a call on the task [callee]. *)
Record Thread := MkThread { callee : TaskId; pc : Pc }.

Record Sys := MkSys { store : Store; threads : list Thread }.

(** What a step reads from outside: the clock, and whether a
    compare-and-exchange that could succeed fails all the same
    ([compare_exchange_weak] may). *)
Record Env := MkEnv { clock : TimePoint; spurious : bool }.

(** One step of thread [i], inside a call on [this], from place [p]: the
    store and the place after it.  [None]: the thread cannot move (the
    mutex is taken, the body blocks) or the step has no defined
    behaviour. *)
Definition thread_step (i : nat) (env : Env) (this : TaskId) (p : Pc) (s : Store)
    : option (Store * Pc) :=
  match s !! this with
  | None => None
  | Some x =>
      match p with
      | TE_lock =>
          match mutex_ (task_ x) with
          | Some _ => None
          | None =>
              Some (update (set_mutex (Some i)) this s,
                    TE_dependencies (dependencies_ (task_ x)))
          end
      | TE_dependencies [] =>
          Some (s, TE_triggers (empty (triggers_ (task_ x))) (triggers_ (task_ x)))
      | TE_dependencies (task :: rest) =>
          match heap s !! task with
          | None => None
          | Some y =>
              if negb (IsFinished y) then Some (s, TE_unlock)
              else Some (s, TE_dependencies rest)
          end
      | TE_triggers is_trigger_happened [] =>
          if negb is_trigger_happened then Some (s, TE_unlock) else Some (s, TE_clock)
      | TE_triggers is_trigger_happened (task :: rest) =>
          match heap s !! task with
          | None => None
          | Some y => Some (s, TE_triggers (is_trigger_happened || IsFinished y) rest)
          end
      | TE_clock =>
          if clock env <? time_trigger_ (task_ x) then Some (s, TE_unlock)
          else Some (s, TE_load)
      | TE_load =>
          if negb (bool_decide (state_ (task_ x) = Pending)) then Some (s, TE_unlock)
          else Some (s, TE_cas (state_ (task_ x)))
      | TE_cas state =>
          if bool_decide (state_ (task_ x) = state) && negb (spurious env)
          then Some (update (set_state Running) this s, TE_run)
          else Some (s, TE_reload (state_ (task_ x)))
      | TE_reload state =>
          if negb (bool_decide (state_ (task_ x) = Pending)) then Some (s, TE_unlock)
          else Some (s, TE_cas state)
      | TE_run =>
          match fn_ x (heap s) with
          | Returned v => Some (update (set_result v) this s, TE_set_completed)
          | Raised e => Some (s, TE_set_failed e)
          | Blocked => None
          | Undefined => None
          end
      | TE_set_failed e => Some (update (set_state Failed) this s, TE_set_exception e)
      | TE_set_exception e => Some (update (set_exception e) this s, TE_unlock)
      | TE_set_completed => Some (update (set_state Completed) this s, TE_unlock)
      | TE_unlock => Some (update (set_mutex None) this s, Done)
      | CA_load =>
          if negb (bool_decide (state_ (task_ x) = Pending)) then Some (s, Done)
          else Some (s, CA_cas (state_ (task_ x)))
      | CA_cas state =>
          if bool_decide (state_ (task_ x) = state) && negb (spurious env)
          then Some (update (set_state Canceled) this s, Done)
          else Some (s, CA_reload (state_ (task_ x)))
      | CA_reload state =>
          if negb (bool_decide (state_ (task_ x) = Pending)) then Some (s, Done)
          else Some (s, CA_cas state)
      | Done => None
      end
  end.

(** What can happen next in a system of threads.  The three setters take
    the task's mutex, write and release it: one step, taken when the
    mutex is free.  A call is made on an object of the store. *)
Inductive Action :=
| Act_make_shared (init : Value) (fn : Heap -> Outcome Value) (now : TimePoint)
| Act_AddDependency (this dep : TaskId)
| Act_AddTrigger (this dep : TaskId)
| Act_SetTimeTrigger (this : TaskId) (at_ : TimePoint)
| Act_TryExecute (this : TaskId)       (* a new thread enters TryExecute *)
| Act_Cancel (this : TaskId)           (* a new thread enters Cancel *)
| Act_step (i : nat) (env : Env).      (* thread [i] takes its next step *)

(** A setter under the lock. *)
Definition locked_write (f : Future -> Future) (this : TaskId) (s : Store)
    : option Store :=
  match s !! this with
  | None => None
  | Some x =>
      match mutex_ (task_ x) with
      | Some _ => None
      | None => Some (update f this s)
      end
  end.

Definition step (a : Action) (sys : Sys) : option Sys :=
  match a with
  | Act_make_shared init fn now =>
      Some (MkSys (make_shared init fn now (store sys)).1 (threads sys))
  | Act_AddDependency this dep =>
      s' ← locked_write (push_dependency dep) this (store sys);
      Some (MkSys s' (threads sys))
  | Act_AddTrigger this dep =>
      s' ← locked_write (push_trigger dep) this (store sys);
      Some (MkSys s' (threads sys))
  | Act_SetTimeTrigger this at_ =>
      s' ← locked_write (set_time_trigger at_) this (store sys);
      Some (MkSys s' (threads sys))
  | Act_TryExecute this =>
      _ ← store sys !! this;
      Some (MkSys (store sys) (threads sys ++ [MkThread this TE_lock]))
  | Act_Cancel this =>
      _ ← store sys !! this;
      Some (MkSys (store sys) (threads sys ++ [MkThread this CA_load]))
  | Act_step i env =>
      th ← threads sys !! i;
      r ← thread_step i env (callee th) (pc th) (store sys);
      Some (MkSys r.1 (<[i := MkThread (callee th) r.2]> (threads sys)))
  end.

(** A run: the actions taken one after the other. *)
Fixpoint run (acts : list Action) (sys : Sys) : option Sys :=
  match acts with
  | [] => Some sys
  | a :: rest => sys' ← step a sys; run rest sys'
  end.

(** Thread [i] alone: [n] steps in a row of a call on [this], from place
    [p], each with [env]. *)
Fixpoint thread_run (n : nat) (i : nat) (env : Env) (this : TaskId) (p : Pc) (s : Store)
    : option (Store * Pc) :=
  match n with
  | O => Some (s, p)
  | S n' =>
      match thread_step i env this p s with
      | None => None
      | Some (s', p') => thread_run n' i env this p' s'
      end
  end.

(** Two tasks that show the same through [Task]'s and [Future]'s public
    members. *)
Definition same_view (z z' : Task) : Prop :=
  state_ z = state_ z' ∧ exception_ z = exception_ z' ∧ result_ z = result_ z'.

(** A function object that sees of the heap what the public members show:
    no mutex, no gate. *)
Definition sees_public (fn : Heap -> Outcome Value) : Prop :=
  ∀ h h', Forall2 same_view h h' → fn h = fn h'.

(** No object, no thread. *)
Definition initial : Sys := MkSys [] [].

Definition reachable (sys : Sys) : Prop := ∃ acts, run acts initial = Some sys.

End Model.

Arguments Value : clear implicits.
Arguments Outcome : clear implicits.
Arguments Task : clear implicits.
Arguments Future : clear implicits.
Arguments Executor : clear implicits.
Arguments Pc : clear implicits.
Arguments Thread : clear implicits.
Arguments Sys : clear implicits.
Arguments Action : clear implicits.
Arguments Event : clear implicits.
Arguments Returned {Exn A} _.
Arguments Raised {Exn A} _.
Arguments Blocked {Exn A}.
Arguments Undefined {Exn A}.

(** The heap as function objects see it, and the store of futures. *)
Abbreviation Heap T Exn := (list (Task T Exn)).
Abbreviation Store T Exn := (list (Future T Exn)).

(** ** What [result_] holds before the body has run *)



(** ** The gate of [TryExecute], in the words of the specification *)

Definition gate_met {T Exn} (h : Heap T Exn) (now : TimePoint) (x : Task T Exn) : Prop :=
  (∀ d, d ∈ dependencies_ x → ∃ y, h !! d = Some y ∧ IsFinished y = true) ∧
  (triggers_ x = [] ∨ ∃ d y, d ∈ triggers_ x ∧ h !! d = Some y ∧ IsFinished y = true) ∧
  time_trigger_ x ≤ now ∧
  state_ x = Pending.

(** Every handle a task keeps names an object of the heap. *)
Definition handles_valid {T Exn} (h : Heap T Exn) (x : Task T Exn) : Prop :=
  ∀ d, d ∈ dependencies_ x ++ triggers_ x → is_Some (h !! d).

(** ** The deadline-bounded gather, in the words of the specification *)


(** ** What the executor's calls leave behind *)

(** What a combinator leaves behind: the future [x] it made is the object
    [length w.1] of the store [w'.1], submitted to the executor of [w]; the
    objects that were there are as they were. *)
Definition submitted {T Exn} (w w' : Store T Exn * Executor) (x : Future T Exn) : Prop :=
  w'.1 !! length w.1 = Some x ∧
  (∀ t y, w.1 !! t = Some y → w'.1 !! t = Some y) ∧
  length w'.1 = S (length w.1) ∧
  exception_ (task_ x) = None ∧ mutex_ (task_ x) = None ∧
  if Queue.IsCanceled (scheduler_ w.2) then
    state_ (task_ x) = Canceled ∧ w'.2 = w.2
  else
    state_ (task_ x) = Pending ∧
    w'.2 = MkExecutor (Queue.Mk (Queue.data_ (scheduler_ w.2) ++ [Some (length w.1)]) false).


(** ** A thread running alone *)

(** Thread [i], alone and with the same [env] at every step, gets from place
    [p] and store [s] to place [p'] and store [s']. *)
Definition runs_to {T Exn} (i : nat) (env : Env) (this : TaskId)
    (p : Pc Exn) (s : Store T Exn) (p' : Pc Exn) (s' : Store T Exn) : Prop :=
  ∃ n, thread_run n i env this p s = Some (s', p').

(** ** The invariant of the machine *)

(** A task that has failed holds the exception it failed with. *)
Definition settled {T Exn} (x : Task T Exn) : Prop :=
  state_ x = Failed → is_Some (exception_ x).

(** What holds of the task [x] while thread [i] is at place [p] of a call on
    it: past [TE_lock] the thread holds the mutex; the expected value of a
    compare-and-exchange is [Pending]; the body runs in state [Running]. *)
Definition pc_inv {T Exn} (i : nat) (p : Pc Exn) (x : Task T Exn) : Prop :=
  match p with
  | TE_lock | CA_load | Done => True
  | TE_dependencies _ | TE_triggers _ _ | TE_clock | TE_load | TE_unlock =>
      mutex_ x = Some i ∧ settled x
  | TE_cas state => mutex_ x = Some i ∧ settled x ∧ state = Pending
  | TE_reload state =>
      mutex_ x = Some i ∧ settled x ∧ (state = Pending ∨ state_ x ≠ Pending)
  | TE_run | TE_set_failed _ | TE_set_completed =>
      mutex_ x = Some i ∧ state_ x = Running
  | TE_set_exception _ =>
      mutex_ x = Some i ∧ state_ x = Failed ∧ exception_ x = None
  | CA_cas state => state = Pending
  | CA_reload state => state = Pending ∨ state_ x ≠ Pending
  end.

(** What holds of every task: only a failed task holds an exception, and a
    failed task holds one unless a thread holds its mutex. *)
Definition task_inv {T Exn} (x : Task T Exn) : Prop :=
  (is_Some (exception_ x) → state_ x = Failed) ∧
  (mutex_ x = None → settled x).

Definition invariant {T Exn} (sys : Sys T Exn) : Prop :=
  (∀ i th, threads sys !! i = Some th → is_Some (store sys !! callee th)) ∧
  (∀ i th x,
     threads sys !! i = Some th → store sys !! callee th = Some x →
     pc_inv i (pc th) (task_ x)) ∧
  (∀ t x, store sys !! t = Some x → task_inv (task_ x)).

(** A step of a thread writes the object of the call and no other, and of
    that object neither the function nor the gates. *)
Definition writes_only {T Exn} (this : TaskId) (s s' : Store T Exn)
    (x x' : Future T Exn) : Prop :=
  s' !! this = Some x' ∧ (∀ t, t ≠ this → s' !! t = s !! t) ∧
  length s' = length s ∧ fn_ x' = fn_ x ∧
  dependencies_ (task_ x') = dependencies_ (task_ x) ∧
  triggers_ (task_ x') = triggers_ (task_ x) ∧
  time_trigger_ (task_ x') = time_trigger_ (task_ x).

(** What one step of the system does to a task: the state stays or moves
    along a transition; the result of a task that is [Pending] or [Canceled]
    after the step was not written by it, and the task was [Pending] or
    [Canceled] before; a captured exception stays. *)
Definition task_step {T Exn} (x x' : Task T Exn) : Prop :=
  (state_ x' = state_ x ∨ transition (state_ x) (state_ x')) ∧
  (state_ x' = Pending ∨ state_ x' = Canceled →
   result_ x' = result_ x ∧ (state_ x = Pending ∨ state_ x = Canceled)) ∧
  (∀ e, exception_ x = Some e → exception_ x' = Some e).

(** The same over a run of steps. *)
Definition task_steps {T Exn} (x x' : Task T Exn) : Prop :=
  rtc transition (state_ x) (state_ x') ∧
  (state_ x' = Pending ∨ state_ x' = Canceled →
   result_ x' = result_ x ∧ (state_ x = Pending ∨ state_ x = Canceled)) ∧
  (∀ e, exception_ x = Some e → exception_ x' = Some e).

(** [Completed], [Failed] and [Canceled]. *)
Definition terminal (state : TaskState) : Prop :=
  state = Completed ∨ state = Failed ∨ state = Canceled.

(** Thread [i], in [TryExecute] on [this], has caught [e] from the body and
    has captured it, or is about to. *)
Definition capturing {T Exn} (i : nat) (this : TaskId) (e : Exn) (sys : Sys T Exn) : Prop :=
  ∃ th x, threads sys !! i = Some th ∧ callee th = this ∧
          store sys !! this = Some x ∧
          (pc th = TE_set_failed e ∨ pc th = TE_set_exception e ∨
           ((pc th = TE_unlock ∨ pc th = Done) ∧ exception_ (task_ x) = Some e)).

(** ** The gate, while threads interleave *)

(** Every handle of [ds] names a finished task of [h]; some handle does. *)
Definition all_finished {T Exn} (h : Heap T Exn) (ds : list TaskId) : Prop :=
  ∀ d, d ∈ ds → ∃ z, h !! d = Some z ∧ IsFinished z = true.
Definition some_finished {T Exn} (h : Heap T Exn) (ds : list TaskId) : Prop :=
  ∃ d z, d ∈ ds ∧ h !! d = Some z ∧ IsFinished z = true.

(** What a thread at place [p] of [TryExecute] knows of the gate of its task
    [z]: the dependencies it has passed are finished; past the first loop
    all are; past the second the trigger list is empty or holds a finished
    trigger. *)
Definition gate_pc {T Exn} (h : Heap T Exn) (p : Pc Exn) (z : Task T Exn) : Prop :=
  match p with
  | TE_dependencies rest =>
      ∃ seen, dependencies_ z = seen ++ rest ∧ all_finished h seen
  | TE_triggers is_trigger_happened rest =>
      all_finished h (dependencies_ z) ∧
      ∃ seen, triggers_ z = seen ++ rest ∧
              (is_trigger_happened = true → triggers_ z = [] ∨ some_finished h seen)
  | TE_clock | TE_load | TE_cas _ | TE_reload _ | TE_run
  | TE_set_failed _ | TE_set_exception _ | TE_set_completed =>
      all_finished h (dependencies_ z) ∧
      (triggers_ z = [] ∨ some_finished h (triggers_ z))
  | _ => True
  end.

Definition gate_invariant {T Exn} (sys : Sys T Exn) : Prop :=
  ∀ i th x,
    threads sys !! i = Some th → store sys !! callee th = Some x →
    gate_pc (heap (store sys)) (pc th) (task_ x).

(** The finished tasks of [h] are finished in [h']. *)
Definition finished_kept {T Exn} (h h' : Heap T Exn) : Prop :=
  ∀ d z, h !! d = Some z → IsFinished z = true →
         ∃ z', h' !! d = Some z' ∧ IsFinished z' = true.

(** ** The calls of a queue *)

(** The values of the [Push] calls, in call order. *)
Definition pushed {A} (cs : list (Queue.Call A)) : list A :=
  omap (fun c => match c with Queue.CPush value => Some value | Queue.CPop => None end) cs.

(** ** The body, the lock and the results, while threads interleave *)

(** The places of [TryExecute] at which the thread holds [mutex_]. *)
Definition holds_lock {Exn} (p : Pc Exn) : bool :=
  match p with
  | TE_lock | CA_load | CA_cas _ | CA_reload _ | Done => false
  | _ => true
  end.

(** The thread is about to run the body; the body has returned or thrown
    and the thread is about to store the new state. *)
Definition in_body {Exn} (p : Pc Exn) : bool :=
  match p with TE_run => true | _ => false end.
Definition past_body {Exn} (p : Pc Exn) : bool :=
  match p with TE_set_failed _ | TE_set_completed => true | _ => false end.

(** The action is a step that runs the body of the task [this]. *)
Definition runs_body {T Exn} (this : TaskId) (a : Action T Exn) (sys : Sys T Exn) : bool :=
  match a with
  | Act_step i _ =>
      match threads sys !! i with
      | Some th => bool_decide (callee th = this) && in_body (pc th)
      | None => false
      end
  | _ => false
  end.

(** How many times the body of [this] is run, from entry to return or
    throw, in the run of [acts] from [sys]. *)
Fixpoint body_runs {T Exn} (this : TaskId) (acts : list (Action T Exn)) (sys : Sys T Exn)
    : nat :=
  match acts with
  | [] => 0
  | a :: rest =>
      match step a sys with
      | None => 0
      | Some sys' => (if runs_body this a sys then 1 else 0) + body_runs this rest sys'
      end
  end.

(** What the state of [t] tells of the number [n] of runs of its body. *)
Definition once_inv {T Exn} (t : TaskId) (sys : Sys T Exn) (n : nat) : Prop :=
  match store sys !! t with
  | None => n = 0%nat
  | Some x =>
      match state_ (task_ x) with
      | Pending | Canceled => n = 0%nat
      | Completed | Failed => n = 1%nat
      | Running =>
          ∃ i th, threads sys !! i = Some th ∧ callee th = t ∧
            ((in_body (pc th) = true ∧ n = 0%nat) ∨ (past_body (pc th) = true ∧ n = 1%nat))
      end
  end.

(** The function of [x] returned the result [x] holds, on some heap; it
    threw [e]. *)
Definition returned_by_fn {T Exn} (x : Future T Exn) : Prop :=
  ∃ h, fn_ x h = Returned (result_ (task_ x)).
Definition raised_by_fn {T Exn} (x : Future T Exn) (e : Exn) : Prop :=
  ∃ h, fn_ x h = Raised e.

(** What a thread at place [p] of a call on [x] carries from the body. *)
Definition carries {T Exn} (p : Pc Exn) (x : Future T Exn) : Prop :=
  match p with
  | TE_set_completed => returned_by_fn x
  | TE_set_failed e | TE_set_exception e => raised_by_fn x e
  | _ => True
  end.

(** Results and exceptions come from the body. *)
Definition provenance {T Exn} (sys : Sys T Exn) : Prop :=
  ∀ t x, store sys !! t = Some x →
    (state_ (task_ x) = Completed → returned_by_fn x) ∧
    (∀ e, exception_ (task_ x) = Some e → raised_by_fn x e) ∧
    (∀ i th, threads sys !! i = Some th → callee th = t → carries (pc th) x).

(** The places of [Cancel], the exit among them. *)
Definition in_Cancel {Exn} (p : Pc Exn) : bool :=
  match p with CA_load | CA_cas _ | CA_reload _ | Done => true | _ => false end.

(** A bound on the steps a thread at place [p] of [Cancel] on the task [x]
    has ahead of it, when its compare-and-exchange does not fail
    spuriously. *)
Definition Cancel_rank {T Exn} (p : Pc Exn) (x : Task T Exn) : nat :=
  match p with
  | CA_load => 3
  | CA_cas _ => 2
  | CA_reload _ => if bool_decide (state_ x = Pending) then 3 else 1
  | _ => 0
  end.

(** The action is a step of thread [i]; it is one in which the
    compare-and-exchange may fail spuriously. *)
Definition step_of {T Exn} (i : nat) (a : Action T Exn) : bool :=
  match a with Act_step j _ => bool_decide (j = i) | _ => false end.
Definition spurious_for {T Exn} (i : nat) (a : Action T Exn) : bool :=
  match a with Act_step j env => bool_decide (j = i) && spurious env | _ => false end.

(** The steps of thread [i] among [acts]. *)
Definition steps_of {T Exn} (i : nat) (acts : list (Action T Exn)) : nat :=
  length (List.filter (step_of i) acts).

(** ** The executor at work *)

(** The task [this] of [s'] has run in [s]: it is [Completed] and holds
    [v], and [Get] returns [v]; or it is [Failed] and holds [e], and [Get]
    throws [e].  The other objects are as they were. *)
Definition completed_with {T Exn} (this : TaskId) (v : Value T) (s s' : Store T Exn) : Prop :=
  (∀ t, t ≠ this → s' !! t = s !! t) ∧ length s' = length s ∧
  ∃ x', s' !! this = Some x' ∧ state_ (task_ x') = Completed ∧
        result_ (task_ x') = v ∧ Get (task_ x') = Returned v.
Definition failed_with {T Exn} (this : TaskId) (e : Exn) (s s' : Store T Exn) : Prop :=
  (∀ t, t ≠ this → s' !! t = s !! t) ∧ length s' = length s ∧
  ∃ x', s' !! this = Some x' ∧ state_ (task_ x') = Failed ∧
        GetError (task_ x') = Some e ∧ Get (task_ x') = Raised e.

(** The heap the body of [this] runs in: the heap of [s] with the task
    itself [Running]. *)
Definition body_heap {T Exn} (this : TaskId) (s : Store T Exn) : Heap T Exn :=
  heap (update (set_state Running) this s).

Section WorkerThread.
Context {T Exn : Type}.

Local Notation "'let*' x := m 'in' k" := (bind m (fun x => k))
  (at level 10, x name, m at level 200, k at level 200).

(** The function a thread of [thread_pool_] runs:
    [while (auto task = scheduler_.Pop()) { ... }].  [nows] are the clock
    readings of the passes the thread makes, one per pass: the state after
    them, and whether the loop has ended. *)
Fixpoint worker_thread (nows : list TimePoint) (w : Store T Exn * Executor)
    : Outcome Exn (Store T Exn * Executor * bool) :=
  match nows with
  | [] => Returned (w, false)
  | now :: rest =>
      let* r := worker now w in
      if r.2 then worker_thread rest r.1 else Returned (r.1, true)
  end.

End WorkerThread.

(** Every handle a task of the store keeps, and every handle in the queue
    that is not null, names an object, and no function blocks or leaves
    defined behaviour. *)
Definition runnable {T Exn} (w : Store T Exn * Executor) : Prop :=
  (∀ t x, w.1 !! t = Some x →
     handles_valid (heap w.1) (task_ x) ∧
     ∀ h, fn_ x h ≠ Blocked ∧ fn_ x h ≠ Undefined) ∧
  (∀ t, Some t ∈ Queue.data_ (scheduler_ w.2) → is_Some (w.1 !! t)).

(** Every handle in the queue names a [Pending] task of the store whose
    handles name objects and whose gate is not met at any of the clock
    readings [nows]. *)
Definition none_ready {T Exn} (nows : list TimePoint) (s : Store T Exn)
    (data : list (option TaskId)) : Prop :=
  ∀ a, a ∈ data →
    ∃ task x, a = Some task ∧ s !! task = Some x ∧
      handles_valid (heap s) (task_ x) ∧ state_ (task_ x) = Pending ∧
      ∀ now, now ∈ nows → ¬ gate_met (heap s) now (task_ x).

(** The first element goes to the back. *)
Definition to_back {A} (l : list A) : list A :=
  match l with [] => [] | a :: rest => rest ++ [a] end.

(** ** [Task::Wait] and [cv_], one atomic step at a time *)

Section WaitModel.

Context {T Exn : Type}.

(** The places of a thread of the machine with [Wait]: a place of
    [TryExecute] or [Cancel]; the calls of [cv_.notify_all()] in them; and
    the places of [Wait], whose [cv_.wait(lock, pred)] is
    [while (!pred()) cv_.wait(lock)]. *)
Inductive WaitPc :=
| In_call (p : Pc Exn)      (* inside TryExecute or Cancel *)
| TE_notify_all             (* cv_.notify_all() in TryExecute, under the lock *)
| CA_notify_all             (* cv_.notify_all() in Cancel *)
| WA_lock                   (* unique_lock{mutex_} *)
| WA_pred                   (* the predicate: IsFinished() *)
| WA_wait                   (* cv_.wait(lock): release the mutex and sleep *)
| WA_asleep                 (* blocked on cv_ *)
| WA_woken                  (* woken: take the mutex again *)
| WA_unlock                 (* return: the lock is released *)
| WA_done.

Record WaitThread := MkWaitThread { w_callee : TaskId; w_pc : WaitPc }.

Record WaitSys := MkWaitSys { w_store : Store T Exn; w_threads : list WaitThread }.

(** Where a step of [TryExecute] or [Cancel] from [p] to [p'] leads: to
    [cv_.notify_all()] after [exception_ = ...], after
    [state_ = Completed] and after the compare-and-exchange of [Cancel] has
    succeeded. *)
Definition after_call (p p' : Pc Exn) : WaitPc :=
  match p, p' with
  | TE_set_exception _, _ => TE_notify_all
  | TE_set_completed, _ => TE_notify_all
  | CA_cas _, Done => CA_notify_all
  | _, _ => In_call p'
  end.

(** One step of thread [i], inside a call on [this], from place [p]. *)
Definition wait_thread_step (i : nat) (env : Env) (this : TaskId) (p : WaitPc)
    (s : Store T Exn) : option (Store T Exn * WaitPc) :=
  match s !! this with
  | None => None
  | Some x =>
      match p with
      | In_call p0 =>
          match thread_step i env this p0 s with
          | None => None
          | Some (s', p') => Some (s', after_call p0 p')
          end
      | TE_notify_all => Some (s, In_call TE_unlock)
      | CA_notify_all => Some (s, In_call Done)
      | WA_lock | WA_woken =>
          match mutex_ (task_ x) with
          | Some _ => None
          | None => Some (update (set_mutex (Some i)) this s, WA_pred)
          end
      | WA_pred => Some (s, if IsFinished (task_ x) then WA_unlock else WA_wait)
      | WA_wait => Some (update (set_mutex None) this s, WA_asleep)
      | WA_unlock => Some (update (set_mutex None) this s, WA_done)
      | WA_asleep => None
      | WA_done => None
      end
  end.

(** The step from [p] is a [cv_.notify_all()]. *)
Definition notifies (p : WaitPc) : bool :=
  match p with TE_notify_all | CA_notify_all => true | _ => false end.

(** [cv_.notify_all()] of the task [this]: a thread asleep on it is
    woken. *)
Definition wake (this : TaskId) (th : WaitThread) : WaitThread :=
  match w_pc th with
  | WA_asleep =>
      if bool_decide (w_callee th = this) then MkWaitThread (w_callee th) WA_woken else th
  | _ => th
  end.

Inductive WaitAction :=
| WAct_make_shared (init : Value T) (fn : Heap T Exn -> Outcome Exn (Value T))
    (now : TimePoint)
| WAct_AddDependency (this dep : TaskId)
| WAct_AddTrigger (this dep : TaskId)
| WAct_SetTimeTrigger (this : TaskId) (at_ : TimePoint)
| WAct_TryExecute (this : TaskId)      (* a new thread enters TryExecute *)
| WAct_Cancel (this : TaskId)          (* a new thread enters Cancel *)
| WAct_Wait (this : TaskId)            (* a new thread enters Wait *)
| WAct_step (i : nat) (env : Env)      (* thread [i] takes its next step *)
| WAct_spurious (i : nat).             (* thread [i], asleep, wakes unnotified *)

Definition wait_step (a : WaitAction) (sys : WaitSys) : option WaitSys :=
  match a with
  | WAct_make_shared init fn now =>
      Some (MkWaitSys (make_shared init fn now (w_store sys)).1 (w_threads sys))
  | WAct_AddDependency this dep =>
      s' ← locked_write (push_dependency dep) this (w_store sys);
      Some (MkWaitSys s' (w_threads sys))
  | WAct_AddTrigger this dep =>
      s' ← locked_write (push_trigger dep) this (w_store sys);
      Some (MkWaitSys s' (w_threads sys))
  | WAct_SetTimeTrigger this at_ =>
      s' ← locked_write (set_time_trigger at_) this (w_store sys);
      Some (MkWaitSys s' (w_threads sys))
  | WAct_TryExecute this =>
      _ ← w_store sys !! this;
      Some (MkWaitSys (w_store sys) (w_threads sys ++ [MkWaitThread this (In_call TE_lock)]))
  | WAct_Cancel this =>
      _ ← w_store sys !! this;
      Some (MkWaitSys (w_store sys) (w_threads sys ++ [MkWaitThread this (In_call CA_load)]))
  | WAct_Wait this =>
      _ ← w_store sys !! this;
      Some (MkWaitSys (w_store sys) (w_threads sys ++ [MkWaitThread this WA_lock]))
  | WAct_step i env =>
      th ← w_threads sys !! i;
      r ← wait_thread_step i env (w_callee th) (w_pc th) (w_store sys);
      let ths := <[i := MkWaitThread (w_callee th) r.2]> (w_threads sys) in
      Some (MkWaitSys r.1 (if notifies (w_pc th) then wake (w_callee th) <$> ths else ths))
  | WAct_spurious i =>
      th ← w_threads sys !! i;
      match w_pc th with
      | WA_asleep =>
          Some (MkWaitSys (w_store sys)
                  (<[i := MkWaitThread (w_callee th) WA_woken]> (w_threads sys)))
      | _ => None
      end
  end.

Fixpoint wait_run (acts : list WaitAction) (sys : WaitSys) : option WaitSys :=
  match acts with
  | [] => Some sys
  | a :: rest => sys' ← wait_step a sys; wait_run rest sys'
  end.

Definition wait_initial : WaitSys := MkWaitSys [] [].

Definition wait_reachable (sys : WaitSys) : Prop :=
  ∃ acts, wait_run acts wait_initial = Some sys.

(** The action is no spurious wake-up of thread [i]. *)
Definition not_spurious (i : nat) (a : WaitAction) : bool :=
  match a with WAct_spurious j => negb (bool_decide (j = i)) | _ => true end.

End WaitModel.

Arguments WaitPc : clear implicits.
Arguments WaitThread : clear implicits.
Arguments WaitSys : clear implicits.
Arguments WaitAction : clear implicits.

(** What holds of the task [x] while thread [i] is at place [p] of a call
    on it.  In [Wait] between the lock and the release the thread holds the
    mutex; [cv_.notify_all()] is called on a task that has left [Pending]
    for good; [Wait] returns on a finished task. *)
Definition wait_pc_inv {T Exn} (i : nat) (p : WaitPc Exn) (x : Task T Exn) : Prop :=
  match p with
  | In_call p0 => pc_inv i p0 x
  | TE_notify_all =>
      pc_inv (Exn := Exn) i TE_unlock x ∧ (state_ x = Completed ∨ state_ x = Failed)
  | CA_notify_all => state_ x = Canceled
  | WA_pred | WA_wait => pc_inv (Exn := Exn) i TE_unlock x
  | WA_unlock => pc_inv (Exn := Exn) i TE_unlock x ∧ IsFinished x = true
  | WA_done => IsFinished x = true
  | WA_lock | WA_asleep | WA_woken => True
  end.

Definition wait_invariant {T Exn} (sys : WaitSys T Exn) : Prop :=
  (∀ i th, w_threads sys !! i = Some th → is_Some (w_store sys !! w_callee th)) ∧
  (∀ i th x,
     w_threads sys !! i = Some th → w_store sys !! w_callee th = Some x →
     wait_pc_inv i (w_pc th) (task_ x)) ∧
  (∀ t x, w_store sys !! t = Some x → task_inv (task_ x)).

(** The thread is in [TryExecute], has stored the final state and has
    [cv_.notify_all()] ahead of it. *)
Definition about_to_notify {Exn} (p : WaitPc Exn) : bool :=
  match p with
  | In_call (TE_set_exception _) | TE_notify_all => true
  | _ => false
  end.

(** No wake-up of [TryExecute] is lost: a thread of [Wait] that is about to
    sleep, or sleeps, on a task that is [Completed] or [Failed] has a
    [notify_all] of [TryExecute] ahead. *)
Definition wake_invariant {T Exn} (sys : WaitSys T Exn) : Prop :=
  ∀ i th x,
    w_threads sys !! i = Some th → w_store sys !! w_callee th = Some x →
    match w_pc th with
    | WA_wait => state_ (task_ x) ≠ Completed ∧ state_ (task_ x) ≠ Failed
    | WA_asleep =>
        (state_ (task_ x) ≠ Completed ∧ state_ (task_ x) ≠ Failed) ∨
        ∃ j thj, w_threads sys !! j = Some thj ∧ w_callee thj = w_callee th ∧
                 about_to_notify (w_pc thj) = true
    | _ => True
    end.

(** Thread [i] sleeps on the task [t], which is [Canceled], and no thread
    has the [notify_all] of [Cancel] on [t] ahead. *)
Definition sleeps_on_canceled {T Exn} (i : nat) (t : TaskId) (sys : WaitSys T Exn) : Prop :=
  w_threads sys !! i = Some (MkWaitThread t WA_asleep) ∧
  (∃ x, w_store sys !! t = Some x ∧ state_ (task_ x) = Canceled) ∧
  (∀ k th, w_threads sys !! k = Some th → w_callee th = t → w_pc th ≠ CA_notify_all).

(** The places at which a thread holds [mutex_]: in [TryExecute] from the
    lock to the return, [cv_.notify_all()] included; in [Wait] from the
    lock to the release inside [cv_.wait(lock)], and from the moment the
    woken thread has the mutex again to the return. *)
Definition wait_holds_lock {Exn} (p : WaitPc Exn) : bool :=
  match p with
  | In_call p0 => holds_lock p0
  | TE_notify_all | WA_pred | WA_wait | WA_unlock => true
  | CA_notify_all | WA_lock | WA_asleep | WA_woken | WA_done => false
  end.


(** The handles a thread inside a loop of [TryExecute] has still to read
    are the last ones of the task's list. *)
Definition scan_pc {T Exn} (p : WaitPc Exn) (z : Task T Exn) : Prop :=
  match p with
  | In_call (TE_dependencies rest) => ∃ seen, dependencies_ z = seen ++ rest
  | In_call (TE_triggers _ rest) => ∃ seen, triggers_ z = seen ++ rest
  | _ => True
  end.

Definition scan_invariant {T Exn} (sys : WaitSys T Exn) : Prop :=
  ∀ i th x,
    w_threads sys !! i = Some th → w_store sys !! w_callee th = Some x →
    scan_pc (w_pc th) (task_ x).

(** ** Concrete executors: [T] is [Z], an exception is its message *)

(** A function object that returns [v], one that throws [e]. *)
Definition returns (v : Value Z) : Heap Z string → Outcome string (Value Z) :=
  λ _, Returned v.
Definition raises (e : string) : Heap Z string → Outcome string (Value Z) :=
  λ _, Raised e.

(** A new executor and no object. *)
Definition empty_world : Store Z string * Executor := ([], new_executor).

(** The world after the events [evs], from [empty_world]. *)
Definition world_after (evs : list (Event Z string)) : Store Z string * Executor :=
  match events evs empty_world with
  | Returned w => w
  | _ => empty_world
  end.

(** The system after the actions [acts], from [initial]. *)
Definition sys_after (acts : list (Action Z string)) : Sys Z string :=
  default initial (run acts initial).

(** Task 0 has run and returned 1; task 1 depends on it and may not start
    before tick 5. *)
Definition gate_events : list (Event Z string) :=
  [Ev_make_shared (Scalar 0) (returns (Scalar 1)) 0;
   Ev_TryExecute 1 0%nat;
   Ev_make_shared (Scalar 0) (returns (Scalar 2)) 0;
   Ev_AddDependency 1%nat 0%nat;
   Ev_SetTimeTrigger 1%nat 5].
Definition gate_task : Future Z string :=
  MkFuture (MkTask Pending [0%nat] [] 5 None None (Scalar 0)) (returns (Scalar 2)).

(** One future is made, a thread enters [TryExecute] on it and passes the
    gate: it is about to compare and exchange. *)
Definition env1 : Env := MkEnv 1 false.
Definition cas_acts (fn : Heap Z string → Outcome string (Value Z)) : list (Action Z string) :=
  [Act_make_shared (Scalar 0) fn 0; Act_TryExecute 0%nat;
   Act_step 0%nat env1; Act_step 0%nat env1; Act_step 0%nat env1;
   Act_step 0%nat env1; Act_step 0%nat env1].
Definition cas_task : Future Z string :=
  MkFuture (MkTask Pending [] [] 0 None (Some 0%nat) (Scalar 0)) (returns (Scalar 42)).

(** The same with a body that throws, one step later: the thread is about
    to run the body. *)
Definition body_acts : list (Action Z string) :=
  cas_acts (raises "ErrX") ++ [Act_step 0%nat env1].
Definition body_task : Future Z string :=
  MkFuture (MkTask Running [] [] 0 None (Some 0%nat) (Scalar 0)) (raises "ErrX").

Definition canceled_task : Future Z string :=
  MkFuture (MkTask Canceled [] [] 0 None None (Scalar 0)) (returns (Scalar 42)).

(** A future is submitted, a worker runs it, the executor shuts down. *)
Definition resubmit_events : list (Event Z string) :=
  [Ev_make_shared (Scalar 0) (returns (Scalar 42)) 0;
   Ev_Submit 0%nat; Ev_worker 1; Ev_StartShutdown].
Definition completed_task : Future Z string :=
  MkFuture (MkTask Completed [] [] 0 None None (Scalar 42)) (returns (Scalar 42)).

(** A future is made after the executor has shut down. *)
Definition late_events : list (Event Z string) :=
  [Ev_StartShutdown; Ev_make_shared (Scalar 0) (returns (Scalar 42)) 0].
Definition pending_task : Future Z string :=
  MkFuture (MkTask Pending [] [] 0 None None (Scalar 0)) (returns (Scalar 42)).

(** Three futures: the first has returned 1, the second has thrown, the
    third has not run. *)
Definition gather_events : list (Event Z string) :=
  [Ev_make_shared (Scalar 0) (returns (Scalar 1)) 0;
   Ev_make_shared (Scalar 0) (raises "ErrX") 0;
   Ev_make_shared (Scalar 0) (returns (Scalar 3)) 0;
   Ev_TryExecute 1 0%nat; Ev_TryExecute 1 1%nat].

(** A task that may not start before tick 100 is submitted, twice in
    [twice_events]; the executor shuts down. *)
Definition once_events : list (Event Z string) :=
  [Ev_make_shared (Scalar 0) (returns (Scalar 42)) 0;
   Ev_SetTimeTrigger 0%nat 100; Ev_Submit 0%nat; Ev_StartShutdown].
Definition waiting_task : Future Z string :=
  MkFuture (MkTask Pending [] [] 100 None None (Scalar 0)) (returns (Scalar 42)).

(** The thread of [cas_acts] goes on to the end of [TryExecute]. *)
Definition run_acts : list (Action Z string) :=
  cas_acts (returns (Scalar 42)) ++ replicate 4 (Act_step 0%nat env1).

(** A future is made and submitted to a new executor. *)
Definition submit_events : list (Event Z string) :=
  [Ev_make_shared (Scalar 0) (returns (Scalar 42)) 0; Ev_Submit 0%nat].

(** The system with [Wait] after the actions [acts], from the start. *)
Definition wait_sys_after (acts : list (WaitAction Z string)) : WaitSys Z string :=
  default wait_initial (wait_run acts wait_initial).

(** A future is made; a thread enters [Wait] on it, takes the lock and
    finds the future not finished. *)
Definition window_acts : list (WaitAction Z string) :=
  [WAct_make_shared (Scalar 0) (returns (Scalar 42)) 0; WAct_Wait 0%nat;
   WAct_step 0%nat env1; WAct_step 0%nat env1].

(** The thread goes to sleep; a second thread runs [TryExecute] up to its
    [notify_all]. *)
Definition asleep_acts : list (WaitAction Z string) :=
  window_acts ++ [WAct_step 0%nat env1; WAct_TryExecute 0%nat] ++
  replicate 8 (WAct_step 1%nat env1).

(** A future is made and a thread enters [Cancel] on it. *)
Definition cancel_entered : list (Action Z string) :=
  [Act_make_shared (Scalar 0) (returns (Scalar 42)) 0; Act_Cancel 0%nat].

(** A second thread enters [TryExecute] while the thread of [window_acts],
    in [Wait], holds the mutex. *)
Definition contended_acts : list (WaitAction Z string) :=
  window_acts ++ [WAct_TryExecute 0%nat].


(** * Theorems *)

(** ** The queue *)

Lemma push_all_open {A} (xs ds : list A) :
  Queue.push_all xs (Queue.Mk ds false) = Queue.Mk (ds ++ xs) false.
Proof.
  revert ds. induction xs as [|x xs IH]; intros ds; simpl.
  - now rewrite app_nil_r.
  - unfold Queue.push_all in *. simpl. rewrite IH. now rewrite <- app_assoc.
Qed.

Lemma Pop_nullopt {A} (q q' : Queue.t A) :
  Queue.Pop q = Some (None, q') →
  Queue.is_canceled_ q = true ∧ Queue.data_ q = [] ∧ q' = q.
Proof.
  unfold Queue.Pop. destruct q as [ds c]; simpl.
  destruct c, ds as [|d ds]; simpl; intros H; inversion H; auto.
Qed.

Lemma Pop_canceled {A} (ds : list A) :
  Queue.Pop (Queue.Mk ds true) =
  Some (head ds, Queue.Mk (tail ds) true).
Proof. destruct ds; reflexivity. Qed.

Lemma calls_canceled {A} (cs : list (Queue.Call A)) (ds : list A) :
  ∃ rs,
    Queue.calls cs (Queue.Mk ds true) =
      Some (rs, Queue.Mk (drop (Queue.pops cs) ds) true) ∧
    Queue.push_replies rs = replicate (Queue.pushes cs) false ∧
    Queue.pop_replies rs =
      (Some <$> take (Queue.pops cs) ds) ++
      replicate (Queue.pops cs - length ds) None.
Proof.
  revert ds. induction cs as [|c cs IH]; intros ds.
  - exists []. cbn. rewrite drop_0. auto.
  - destruct c as [v|].
    + destruct (IH ds) as (rs & Hc & Hpush & Hpop).
      exists (Queue.RPush false :: rs). simpl.
      rewrite Hc. repeat split; auto.
      unfold Queue.push_replies in *. simpl. now rewrite Hpush.
    + destruct ds as [|d ds].
      * destruct (IH []) as (rs & Hc & Hpush & Hpop).
        exists (Queue.RPop None :: rs).
        cbn [Queue.calls]. rewrite Pop_canceled. simpl tail. simpl head. rewrite Hc.
        rewrite !drop_nil. repeat split; auto.
        unfold Queue.pop_replies in *. cbn [omap list_omap]. rewrite Hpop.
        rewrite !take_nil. simpl. now rewrite Nat.sub_0_r.
      * destruct (IH ds) as (rs & Hc & Hpush & Hpop).
        exists (Queue.RPop (Some d) :: rs).
        cbn [Queue.calls]. rewrite Pop_canceled. simpl tail. simpl head. rewrite Hc.
        repeat split; auto.
        unfold Queue.pop_replies in *. cbn [omap list_omap]. now rewrite Hpop.
Qed.

(** C4.  Elements [xs] are pushed onto a new queue and the queue is
    cancelled.  From then on a [Push] returns [false] and leaves the queue as
    it is; in any sequence of further calls every [Push] is refused, no
    [Pop] blocks, and the [Pop] calls return the elements of [xs] in push
    order and [nullopt] after the last of them.  On any queue, [Pop] returns
    [nullopt] only when the queue is cancelled and holds nothing. *)
Theorem queue_after_cancel {A} (xs : list A) (value : A) (cs : list (Queue.Call A)) :
  let q := Queue.Cancel (Queue.push_all xs Queue.new) in
  Queue.Push value q = (q, false) ∧
  (∃ rs,
     Queue.calls cs q = Some (rs, Queue.Mk (drop (Queue.pops cs) xs) true) ∧
     Queue.push_replies rs = replicate (Queue.pushes cs) false ∧
     Queue.pop_replies rs =
       (Some <$> take (Queue.pops cs) xs) ++
       replicate (Queue.pops cs - length xs) None) ∧
  (∀ q0 q1 : Queue.t A,
     Queue.Pop q0 = Some (None, q1) →
     Queue.is_canceled_ q0 = true ∧ Queue.data_ q0 = [] ∧ q1 = q0).
Proof.
  unfold Queue.new. rewrite push_all_open. simpl.
  split; [reflexivity|]. split.
  - apply calls_canceled.
  - intros q0 q1. apply Pop_nullopt.
Qed.

(** ** The gate of [TryExecute] *)

Section Gate.

Context {T Exn : Type}.
Implicit Types (s : Store T Exn) (h : Heap T Exn) (x : Future T Exn).

Lemma deref_Some {A} (l : list A) (p : TaskId) (a : A) :
  l !! p = Some a → deref (Exn := Exn) l p = Returned a.
Proof. intros H. unfold deref. now rewrite H. Qed.

Lemma heap_lookup s p :
  heap s !! p = task_ <$> s !! p.
Proof. unfold heap. apply list_lookup_fmap. Qed.

Lemma dependencies_finished_true h deps :
  dependencies_finished h deps = Returned true →
  ∀ d, d ∈ deps → ∃ y, h !! d = Some y ∧ IsFinished y = true.
Proof.
  induction deps as [|d0 deps IH]; simpl; intros H d Hd.
  - inversion Hd.
  - unfold deref in H. destruct (h !! d0) as [y|] eqn:Hy; simpl in H; [|discriminate].
    destruct (IsFinished y) eqn:Hf; simpl in H; [|discriminate].
    apply elem_of_cons in Hd as [->|Hd]; eauto.
Qed.

Lemma dependencies_finished_returns h deps :
  (∀ d, d ∈ deps → is_Some (h !! d)) →
  ∃ b, dependencies_finished h deps = Returned b ∧
       (b = false → ∃ d y, d ∈ deps ∧ h !! d = Some y ∧ IsFinished y = false).
Proof.
  induction deps as [|d0 deps IH]; simpl; intros Hv.
  - exists true. split; [reflexivity|intros; discriminate].
  - destruct (Hv d0) as [y Hy]; [left|].
    unfold deref. rewrite Hy. simpl.
    destruct (IsFinished y) eqn:Hf; simpl.
    + destruct IH as (b & Hb & Hfalse).
      { intros d Hd. apply Hv. now right. }
      exists b. split; [exact Hb|]. intros Hbf.
      destruct (Hfalse Hbf) as (d & y' & Hd & Hy' & Hf').
      exists d, y'. repeat split; auto. now right.
    + exists false. split; [reflexivity|]. intros _.
      exists d0, y. repeat split; auto. left.
Qed.

Lemma triggers_happened_returns h acc trigs :
  (∀ d, d ∈ trigs → is_Some (h !! d)) →
  ∃ b, triggers_happened h acc trigs = Returned b.
Proof.
  revert acc. induction trigs as [|d0 trigs IH]; simpl; intros acc Hv.
  - eauto.
  - destruct (Hv d0) as [y Hy]; [left|].
    unfold deref. rewrite Hy. simpl. apply IH.
    intros d Hd. apply Hv. now right.
Qed.

Lemma triggers_happened_spec h acc trigs b :
  triggers_happened h acc trigs = Returned b →
  b = true ↔
  (acc = true ∨ ∃ d y, d ∈ trigs ∧ h !! d = Some y ∧ IsFinished y = true).
Proof.
  revert acc. induction trigs as [|d0 trigs IH]; simpl; intros acc H.
  - inversion H; subst. split; [auto|].
    intros [?|(d & y & Hd & _)]; [auto|inversion Hd].
  - unfold deref in H. destruct (h !! d0) as [y0|] eqn:Hy0; simpl in H; [|discriminate].
    rewrite (IH _ H). split.
    + intros [Hacc|(d & y & Hd & Hy & Hf)].
      * apply orb_true_iff in Hacc as [?|Hf]; [auto|].
        right. exists d0, y0. repeat split; auto. left.
      * right. exists d, y. repeat split; auto. now right.
    + intros [->|(d & y & Hd & Hy & Hf)]; [auto|].
      apply elem_of_cons in Hd as [->|Hd].
      * left. rewrite Hy0 in Hy. inversion Hy; subst. rewrite Hf. apply orb_true_r.
      * right. eauto.
Qed.

Lemma empty_true {A} (l : list A) : empty l = true ↔ l = [].
Proof. destruct l; simpl; split; auto; discriminate. Qed.

(** What [TryExecute] does once the gate is met: it sets [Running], runs
    the body, and sets [Completed] or captures the exception. *)
Lemma TryExecute_gate_met s now this x :
  s !! this = Some x →
  handles_valid (heap s) (task_ x) →
  gate_met (heap s) now (task_ x) →
  TryExecute now this s =
    match Run this (update (set_state Running) this s) with
    | Returned s2 => Returned (update (set_state Completed) this s2, true)
    | Raised e =>
        Returned (update (set_exception e) this
                    (update (set_state Failed) this
                       (update (set_state Running) this s)), true)
    | Blocked => Blocked
    | Undefined => Undefined
    end.
Proof.
  intros Hx Hv (Hdeps & Htrig & Htime & Hstate).
  unfold TryExecute. rewrite (deref_Some _ _ _ Hx). simpl.
  destruct (dependencies_finished_returns (heap s) (dependencies_ (task_ x)))
    as (b & Hb & Hfalse).
  { intros d Hd. apply Hv. apply elem_of_app. now left. }
  destruct b.
  2:{ destruct (Hfalse eq_refl) as (d & y & Hd & Hy & Hf).
      destruct (Hdeps d Hd) as (y' & Hy' & Hf'). congruence. }
  rewrite Hb. simpl.
  destruct (triggers_happened_returns (heap s) (empty (triggers_ (task_ x)))
              (triggers_ (task_ x))) as (b & Hb').
  { intros d Hd. apply Hv. apply elem_of_app. now right. }
  rewrite Hb'. simpl.
  assert (b = true) as ->.
  { apply (triggers_happened_spec _ _ _ _ Hb').
    destruct Htrig as [Hnil|?]; [left|now right]. now apply empty_true. }
  simpl. destruct (Z.ltb_spec now (time_trigger_ (task_ x))); [lia|].
  rewrite Hstate. simpl. reflexivity.
Qed.

(** When the gate is not met, [TryExecute] returns and the store is as it
    was. *)
Lemma TryExecute_gate_unmet s now this x :
  s !! this = Some x →
  handles_valid (heap s) (task_ x) →
  ¬ gate_met (heap s) now (task_ x) →
  TryExecute now this s = Returned (s, false).
Proof.
  intros Hx Hv Hgate.
  unfold TryExecute. rewrite (deref_Some _ _ _ Hx). simpl.
  destruct (dependencies_finished_returns (heap s) (dependencies_ (task_ x)))
    as (b & Hb & Hfalse).
  { intros d Hd. apply Hv. apply elem_of_app. now left. }
  rewrite Hb. simpl. destruct b; simpl; [|reflexivity].
  destruct (triggers_happened_returns (heap s) (empty (triggers_ (task_ x)))
              (triggers_ (task_ x))) as (b & Hb').
  { intros d Hd. apply Hv. apply elem_of_app. now right. }
  rewrite Hb'. simpl. destruct b; simpl; [|reflexivity].
  destruct (Z.ltb_spec now (time_trigger_ (task_ x))); [reflexivity|].
  destruct (bool_decide_reflect (state_ (task_ x) = Pending)); simpl; [|reflexivity].
  exfalso. apply Hgate. repeat split; auto.
  - now apply dependencies_finished_true.
  - destruct (triggers_happened_spec _ _ _ _ Hb') as [Ht _].
    destruct (Ht eq_refl) as [He|?]; [left|now right].
    now apply empty_true.
Qed.

(** When [TryExecute] reaches the body, the gate was met. *)
Lemma TryExecute_ran s now this x s' :
  s !! this = Some x →
  TryExecute now this s = Returned (s', true) →
  gate_met (heap s) now (task_ x).
Proof.
  intros Hx. unfold TryExecute. rewrite (deref_Some _ _ _ Hx). simpl.
  destruct (dependencies_finished _ _) as [b| | |] eqn:Hb; simpl; try discriminate.
  destruct b; simpl; [|discriminate].
  destruct (triggers_happened _ _ _) as [b| | |] eqn:Hb'; simpl; try discriminate.
  destruct b; simpl; [|discriminate].
  destruct (Z.ltb_spec now (time_trigger_ (task_ x))); [discriminate|].
  destruct (bool_decide_reflect (state_ (task_ x) = Pending)); simpl; [|discriminate].
  intros _. repeat split; auto.
  - now apply dependencies_finished_true.
  - destruct (triggers_happened_spec _ _ _ _ Hb') as [Ht _].
    destruct (Ht eq_refl) as [He|?]; [left|now right].
    now apply empty_true.
Qed.

(** C1.  [TryExecute] reaches [Run()] only when every dependency is
    finished, the trigger list is empty or holds a finished trigger, the
    clock is at or past the time trigger and the state is [Pending]; when
    one of these fails it returns without calling [Run()] and the store,
    the task's state with it, is as it was (every handle the task keeps
    naming an object). *)
Theorem TryExecute_gate s now this x :
  s !! this = Some x →
  (∀ s', TryExecute now this s = Returned (s', true) →
         gate_met (heap s) now (task_ x)) ∧
  (handles_valid (heap s) (task_ x) →
   ¬ gate_met (heap s) now (task_ x) →
   TryExecute now this s = Returned (s, false)).
Proof.
  intros Hx. split.
  - intros s'. now apply TryExecute_ran.
  - now apply TryExecute_gate_unmet.
Qed.

End Gate.

(** ** The machine of atomic steps *)

Section Machine.

Context {T Exn : Type}.
Implicit Types (s : Store T Exn) (x : Future T Exn) (sys : Sys T Exn)
  (p : Pc Exn) (th : Thread Exn).

Lemma lookup_update_eq (f : Future T Exn → Future T Exn) this s :
  update f this s !! this = f <$> s !! this.
Proof. unfold update. apply list_lookup_alter_eq. Qed.

Lemma lookup_update_ne (f : Future T Exn → Future T Exn) this t s :
  this ≠ t → update f this s !! t = s !! t.
Proof. unfold update. apply list_lookup_alter_ne. Qed.

Lemma length_update (f : Future T Exn → Future T Exn) this s :
  length (update f this s) = length s.
Proof. unfold update. apply length_alter. Qed.

Lemma writes_only_refl this s x : s !! this = Some x → writes_only this s s x x.
Proof. intros H. repeat split; auto. Qed.

Lemma writes_only_update this s x (f : Future T Exn → Future T Exn) :
  s !! this = Some x →
  fn_ (f x) = fn_ x →
  dependencies_ (task_ (f x)) = dependencies_ (task_ x) →
  triggers_ (task_ (f x)) = triggers_ (task_ x) →
  time_trigger_ (task_ (f x)) = time_trigger_ (task_ x) →
  writes_only this s (update f this s) x (f x).
Proof.
  intros H ? ? ? ?. repeat split; auto.
  - now rewrite lookup_update_eq, H.
  - intros t Ht. now apply lookup_update_ne.
  - apply length_update.
Qed.

(** One step of thread [i] on the object [x] of its call: the step keeps
    what holds at the thread's place and of the task, does not disturb what
    holds at the places of other threads in calls on [x], changes the state
    along a transition or not at all, and writes [result_] only in state
    [Running]. *)
Lemma thread_step_sound i env this p s s' p' x :
  s !! this = Some x →
  thread_step i env this p s = Some (s', p') →
  pc_inv i p (task_ x) → task_inv (task_ x) →
  ∃ x', writes_only this s s' x x' ∧
    pc_inv i p' (task_ x') ∧ task_inv (task_ x') ∧
    (∀ j q, j ≠ i → pc_inv j q (task_ x) → pc_inv j q (task_ x')) ∧
    task_step (task_ x) (task_ x').
Proof.
  intros Hx Hstep Hpc [Hexn Hset]. unfold task_step.
  unfold thread_step in Hstep. rewrite Hx in Hstep.
  destruct p; simpl in Hstep; repeat case_match; simplify_eq;
    (eexists; split;
     [first [now apply writes_only_refl
            |apply writes_only_update; [exact Hx|reflexivity..]]|]).
  all: repeat match goal with
         | H : _ && _ = true |- _ => apply andb_true_iff in H as [? ?]
         | H : _ && _ = false |- _ => apply andb_false_iff in H
         | H : bool_decide _ = true |- _ => apply bool_decide_eq_true in H
         | H : bool_decide _ = false |- _ => apply bool_decide_eq_false in H
         | H : negb _ = true |- _ => apply negb_true_iff in H
         | H : negb _ = false |- _ => apply negb_false_iff in H
         end.
  all: unfold task_inv, settled in *; simpl in *.
  all: split_and!.
  all: try (intros j q Hj Hq; destruct q; simpl in * ).
  all: unfold settled in *; simpl in *; destruct_and?; simplify_eq.
  all: try match goal with
         | H : state_ (task_ _) = _ |- _ => rewrite H in *
         end.
  all: try solve [intuition (eauto using transition; congruence)].
  all: try (destruct (decide (state_ (task_ x) = Pending)); by auto).
  destruct (exception_ (task_ x)); [|done].
  discriminate Hexn. eauto.
Qed.
Lemma task_step_refl (x : Task T Exn) : task_step x x.
Proof. split_and!; auto. Qed.

Lemma locked_write_sound (f : Future T Exn → Future T Exn) this s s' :
  locked_write f this s = Some s' →
  (∀ x, state_ (task_ (f x)) = state_ (task_ x) ∧
        exception_ (task_ (f x)) = exception_ (task_ x) ∧
        mutex_ (task_ (f x)) = mutex_ (task_ x) ∧
        result_ (task_ (f x)) = result_ (task_ x)) →
  ∀ t x, s !! t = Some x →
    ∃ x', s' !! t = Some x' ∧
      state_ (task_ x') = state_ (task_ x) ∧
      exception_ (task_ x') = exception_ (task_ x) ∧
      mutex_ (task_ x') = mutex_ (task_ x) ∧
      result_ (task_ x') = result_ (task_ x).
Proof.
  unfold locked_write. intros Hw Hf t x Hx.
  destruct (s !! this) as [y|] eqn:Hy; [|discriminate].
  destruct (mutex_ (task_ y)); [discriminate|]. simplify_eq.
  destruct (decide (this = t)) as [->|Hne].
  - exists (f x). rewrite lookup_update_eq, Hx. split; [reflexivity|apply Hf].
  - exists x. rewrite lookup_update_ne by done. auto.
Qed.

Lemma pc_inv_ext i p (x x' : Task T Exn) :
  state_ x' = state_ x → exception_ x' = exception_ x → mutex_ x' = mutex_ x →
  pc_inv i p x → pc_inv i p x'.
Proof.
  intros Hs He Hm. destruct p; simpl; unfold settled; rewrite ?Hs, ?He, ?Hm; auto.
Qed.

Lemma task_inv_ext (x x' : Task T Exn) :
  state_ x' = state_ x → exception_ x' = exception_ x → mutex_ x' = mutex_ x →
  task_inv x → task_inv x'.
Proof.
  intros Hs He Hm. unfold task_inv, settled; rewrite ?Hs, ?He, ?Hm; auto.
Qed.

Lemma invariant_ext sys s' :
  invariant sys →
  (∀ t x, store sys !! t = Some x →
    ∃ x', s' !! t = Some x' ∧
      state_ (task_ x') = state_ (task_ x) ∧
      exception_ (task_ x') = exception_ (task_ x) ∧
      mutex_ (task_ x') = mutex_ (task_ x) ∧
      result_ (task_ x') = result_ (task_ x)) →
  length s' = length (store sys) →
  invariant (MkSys s' (threads sys)) ∧
  (∀ t x, store sys !! t = Some x → ∃ x', s' !! t = Some x' ∧ task_step (task_ x) (task_ x')).
Proof.
  intros (Hvalid & Hpc & Htask) Hext Hlen. split; [split_and!|]; simpl.
  - intros i th Hth. destruct (Hvalid i th Hth) as [x Hx].
    destruct (Hext _ _ Hx) as (x' & Hx' & _). eauto.
  - intros i th x' Hth Hx'. destruct (Hvalid i th Hth) as [x Hx].
    destruct (Hext _ _ Hx) as (x'' & Hx'' & Hs & He & Hm & _). simplify_eq.
    eapply pc_inv_ext; eauto.
  - intros t x' Hx'.
    assert (is_Some (store sys !! t)) as [x Hx].
    { apply lookup_lt_is_Some. rewrite <- Hlen. eapply lookup_lt_Some; eauto. }
    destruct (Hext _ _ Hx) as (x'' & Hx'' & Hs & He & Hm & _). simplify_eq.
    eapply task_inv_ext; eauto.
  - intros t x Hx. destruct (Hext _ _ Hx) as (x' & Hx' & Hs & He & Hm & Hr).
    exists x'. split; [done|]. split_and!; [now left|rewrite Hs, Hr; auto|].
    intros e. now rewrite He.
Qed.

Lemma locked_write_length (f : Future T Exn → Future T Exn) this s s' :
  locked_write f this s = Some s' → length s' = length s.
Proof.
  unfold locked_write. intros Hw.
  destruct (s !! this) as [y|]; [|discriminate].
  destruct (mutex_ (task_ y)); [discriminate|]. simplify_eq.
  apply length_update.
Qed.

(** Every step of the system keeps the invariant and moves every task as
    [task_step] says. *)
Lemma step_sound a sys sys' :
  invariant sys → step a sys = Some sys' →
  invariant sys' ∧
  (∀ t x, store sys !! t = Some x →
          ∃ x', store sys' !! t = Some x' ∧ task_step (task_ x) (task_ x')).
Proof.
  intros Hinv Hstep. destruct a as [init fn now|this dep|this dep|this at_|this|this|i env];
    simpl in Hstep.
  - (* make_shared *)
    simplify_eq. destruct Hinv as (Hvalid & Hpc & Htask).
    split; [split_and!|]; simpl.
    + intros i th Hth. destruct (Hvalid i th Hth) as [x Hx].
      exists x. now apply lookup_app_l_Some.
    + intros i th x' Hth Hx'. destruct (Hvalid i th Hth) as [x Hx].
      rewrite (lookup_app_l_Some _ _ _ _ Hx) in Hx'. simplify_eq. eauto.
    + intros t x' Hx'. apply lookup_app_Some in Hx' as [Hx'|[_ Hx']]; [eauto|].
      apply list_lookup_singleton_Some in Hx' as [_ <-].
      split; simpl; [intros [? ?]; discriminate|intros _ ?; discriminate].
    + intros t x Hx. exists x. split; [now apply lookup_app_l_Some|apply task_step_refl].
  - destruct (locked_write _ _ _) as [s'|] eqn:Hw; simpl in Hstep; simplify_eq.
    apply invariant_ext; [done| |eapply locked_write_length; eauto].
    eapply locked_write_sound; eauto.
  - destruct (locked_write _ _ _) as [s'|] eqn:Hw; simpl in Hstep; simplify_eq.
    apply invariant_ext; [done| |eapply locked_write_length; eauto].
    eapply locked_write_sound; eauto.
  - destruct (locked_write _ _ _) as [s'|] eqn:Hw; simpl in Hstep; simplify_eq.
    apply invariant_ext; [done| |eapply locked_write_length; eauto].
    eapply locked_write_sound; eauto.
  - (* a call of TryExecute *)
    destruct (store sys !! this) as [x|] eqn:Hx; simpl in Hstep; simplify_eq.
    destruct Hinv as (Hvalid & Hpc & Htask).
    split; [split_and!|]; simpl; eauto using task_step_refl.
    + intros i th Hth. apply lookup_app_Some in Hth as [Hth|[_ Hth]]; [eauto|].
      apply list_lookup_singleton_Some in Hth as [_ <-]. simpl. eauto.
    + intros i th y Hth Hy. apply lookup_app_Some in Hth as [Hth|[_ Hth]]; [eauto|].
      apply list_lookup_singleton_Some in Hth as [_ <-]. exact I.
  - (* a call of Cancel *)
    destruct (store sys !! this) as [x|] eqn:Hx; simpl in Hstep; simplify_eq.
    destruct Hinv as (Hvalid & Hpc & Htask).
    split; [split_and!|]; simpl; eauto using task_step_refl.
    + intros i th Hth. apply lookup_app_Some in Hth as [Hth|[_ Hth]]; [eauto|].
      apply list_lookup_singleton_Some in Hth as [_ <-]. simpl. eauto.
    + intros i th y Hth Hy. apply lookup_app_Some in Hth as [Hth|[_ Hth]]; [eauto|].
      apply list_lookup_singleton_Some in Hth as [_ <-]. exact I.
  - (* a step of thread i *)
    destruct (threads sys !! i) as [th|] eqn:Hth; simpl in Hstep; [|discriminate].
    destruct (thread_step _ _ _ _ _) as [[s' p']|] eqn:Hts; simpl in Hstep; simplify_eq.
    destruct Hinv as (Hvalid & Hpc & Htask).
    destruct (Hvalid i th Hth) as [x Hx].
    destruct (thread_step_sound _ _ _ _ _ _ _ _ Hx Hts (Hpc _ _ _ Hth Hx) (Htask _ _ Hx))
      as (x' & (Hx' & Hother & Hlen & _) & Hpc' & Htask' & Hint & Htr).
    assert (Hlook : ∀ t y, store sys !! t = Some y →
              ∃ y', s' !! t = Some y' ∧ (t = callee th ∧ y = x ∧ y' = x' ∨ t ≠ callee th ∧ y' = y)).
    { intros t y Hy. destruct (decide (t = callee th)) as [->|Hne].
      - simplify_eq. eauto 10.
      - exists y. rewrite Hother by done. auto. }
    split; [split_and!|]; simpl.
    + intros j th' Hth'.
      assert (is_Some (store sys !! callee th')) as [y Hy].
      { destruct (decide (i = j)) as [->|Hne].
        - rewrite list_lookup_insert_eq in Hth' by (eapply lookup_lt_Some; eauto).
          simplify_eq. simpl. eauto.
        - rewrite list_lookup_insert_ne in Hth' by done. eauto. }
      destruct (Hlook _ _ Hy) as (y' & Hy' & _). eauto.
    + intros j th' y' Hth' Hy'.
      destruct (decide (i = j)) as [->|Hne].
      * rewrite list_lookup_insert_eq in Hth' by (eapply lookup_lt_Some; eauto).
        simplify_eq. simpl in *. now simplify_eq.
      * rewrite list_lookup_insert_ne in Hth' by done.
        destruct (Hvalid j th' Hth') as [y Hy].
        destruct (Hlook _ _ Hy) as (y'' & Hy'' & [(Ht & -> & ->)|(Ht & ->)]); simplify_eq.
        -- apply Hint; [done|]. eapply Hpc; eauto.
        -- eauto.
    + intros t y' Hy'.
      assert (is_Some (store sys !! t)) as [y Hy].
      { apply lookup_lt_is_Some. rewrite <- Hlen. eapply lookup_lt_Some; eauto. }
      destruct (Hlook _ _ Hy) as (y'' & Hy'' & [(Ht & -> & ->)|(Ht & ->)]); simplify_eq; eauto.
    + intros t y Hy.
      destruct (Hlook _ _ Hy) as (y' & Hy' & [(Ht & -> & ->)|(Ht & ->)]);
        (eexists; split; [eassumption|]); [done|apply task_step_refl].
Qed.

Lemma task_step_steps (x x' : Task T Exn) : task_step x x' → task_steps x x'.
Proof.
  intros (Htr & Hres & Hexn). split_and!; [|done..].
  destruct Htr as [->|Htr]; [reflexivity|now apply rtc_once].
Qed.

Lemma task_steps_refl (x : Task T Exn) : task_steps x x.
Proof. split_and!; auto. reflexivity. Qed.

Lemma task_steps_trans (x y z : Task T Exn) :
  task_steps x y → task_steps y z → task_steps x z.
Proof.
  intros (Htr & Hres & Hexn) (Htr' & Hres' & Hexn'). split_and!.
  - etrans; eauto.
  - intros Hz. destruct (Hres' Hz) as [-> Hy]. auto.
  - auto.
Qed.

(** Every run keeps the invariant and moves every task as [task_steps]
    says. *)
Lemma run_sound acts sys sys' :
  invariant sys → run acts sys = Some sys' →
  invariant sys' ∧
  (∀ t x, store sys !! t = Some x →
          ∃ x', store sys' !! t = Some x' ∧ task_steps (task_ x) (task_ x')).
Proof.
  revert sys. induction acts as [|a acts IH]; intros sys Hinv Hrun; simpl in Hrun.
  - simplify_eq. split; [done|]. intros t x Hx. exists x. split; [done|apply task_steps_refl].
  - destruct (step a sys) as [sys1|] eqn:Hstep; simpl in Hrun; [|discriminate].
    destruct (step_sound _ _ _ Hinv Hstep) as [Hinv1 H1].
    destruct (IH _ Hinv1 Hrun) as [Hinv' H']. split; [done|].
    intros t x Hx. destruct (H1 _ _ Hx) as (x1 & Hx1 & Hs1).
    destruct (H' _ _ Hx1) as (x' & Hx' & Hs'). exists x'. split; [done|].
    eapply task_steps_trans; [apply task_step_steps|]; eauto.
Qed.

Lemma invariant_initial : invariant (initial (T := T) (Exn := Exn)).
Proof. split_and!; simpl; intros *; rewrite lookup_nil; discriminate. Qed.

Lemma reachable_invariant sys : reachable sys → invariant sys.
Proof. intros [acts Hrun]. eapply run_sound; [apply invariant_initial|eauto]. Qed.

Lemma transition_from_terminal st st' :
  terminal st → rtc transition st st' → st' = st.
Proof.
  intros Hterm Hrtc. destruct Hrtc as [|st st1 st' Htr _]; [done|].
  destruct Hterm as [->|[->| ->]]; inversion Htr.
Qed.

(** C2.  In every system the machine can reach, a step of any thread or
    caller ([make_shared], a gate setter, a step inside [TryExecute] or
    [Cancel]) leaves the state of every task as it was or moves it along
    one of [Pending → Running], [Running → Completed], [Running → Failed],
    [Pending → Canceled], and never from [Running] to [Canceled]; over a
    run the state follows a path of these transitions, and a task that is
    [Completed], [Failed] or [Canceled] stays so. *)
Theorem state_moves_along_transitions sys t x :
  reachable sys → store sys !! t = Some x →
  (∀ a sys', step a sys = Some sys' →
     ∃ x', store sys' !! t = Some x' ∧
       (state_ (task_ x') = state_ (task_ x) ∨
        transition (state_ (task_ x)) (state_ (task_ x'))) ∧
       ¬ (state_ (task_ x) = Running ∧ state_ (task_ x') = Canceled)) ∧
  (∀ acts sys', run acts sys = Some sys' →
     ∃ x', store sys' !! t = Some x' ∧
       rtc transition (state_ (task_ x)) (state_ (task_ x')) ∧
       (terminal (state_ (task_ x)) → state_ (task_ x') = state_ (task_ x))).
Proof.
  intros Hreach Hx. apply reachable_invariant in Hreach. split.
  - intros a sys' Hstep.
    destruct (step_sound _ _ _ Hreach Hstep) as [_ H].
    destruct (H _ _ Hx) as (x' & Hx' & Htr & _). exists x'. split_and!; [done..|].
    intros [Hr Hc]. rewrite Hr, Hc in Htr. destruct Htr as [?|Htr]; [done|inversion Htr].
  - intros acts sys' Hrun.
    destruct (run_sound _ _ _ Hreach Hrun) as [_ H].
    destruct (H _ _ Hx) as (x' & Hx' & Htr & _). exists x'. split_and!; [done..|].
    intros Hterm. eapply transition_from_terminal; eauto.
Qed.

Lemma Get_Failed (x : Task T Exn) e :
  state_ x = Failed → exception_ x = Some e → Get x = Raised e.
Proof.
  intros Hs He. unfold Get, Wait, IsFinished, IsFailed, GetError. now rewrite Hs, He.
Qed.



Lemma capturing_step i this e a sys sys' :
  invariant sys → capturing i this e sys → step a sys = Some sys' →
  capturing i this e sys'.
Proof.
  intros Hinv (th & x & Hth & Hcallee & Hx & Hpc) Hstep.
  destruct (step_sound _ _ _ Hinv Hstep) as [_ Hsteps].
  destruct (Hsteps _ _ Hx) as (x' & Hx' & _ & _ & Hexn).
  assert (Hkeep : threads sys' !! i = Some th → capturing i this e sys').
  { intros Hth'. exists th, x'. split_and!; [done..|].
    destruct Hpc as [?|[?|[? ?]]]; auto. }
  destruct a as [init fn now|this' dep|this' dep|this' at_|this'|this'|j env];
    simpl in Hstep.
  - simplify_eq. auto.
  - destruct (locked_write _ _ _); simpl in Hstep; simplify_eq. auto.
  - destruct (locked_write _ _ _); simpl in Hstep; simplify_eq. auto.
  - destruct (locked_write _ _ _); simpl in Hstep; simplify_eq. auto.
  - destruct (store sys !! this'); simpl in Hstep; simplify_eq.
    apply Hkeep. simpl. now apply lookup_app_l_Some.
  - destruct (store sys !! this'); simpl in Hstep; simplify_eq.
    apply Hkeep. simpl. now apply lookup_app_l_Some.
  - destruct (decide (j = i)) as [->|Hne].
    + rewrite Hth in Hstep. simpl in Hstep. clear Hkeep.
      destruct (thread_step _ _ _ _ _) as [[s' p']|] eqn:Hts; simpl in Hstep; simplify_eq.
      simpl in Hx'. exists (MkThread (callee th) p'), x'. simpl.
      rewrite list_lookup_insert_eq by (eapply lookup_lt_Some; eauto).
      split_and!; [done..|]. simpl.
      unfold thread_step in Hts. rewrite Hx in Hts.
      destruct Hpc as [Hpc|[Hpc|[[Hpc|Hpc] He]]]; rewrite Hpc in Hts; simplify_eq.
      * auto.
      * rewrite lookup_update_eq, Hx in Hx'. simpl in Hx'. simplify_eq. simpl. auto.
      * auto.
    + apply Hkeep.
      destruct (threads sys !! j) as [th'|]; simpl in Hstep; [|discriminate].
      destruct (thread_step _ _ _ _ _) as [[s' p']|]; simpl in Hstep; simplify_eq.
      simpl. now rewrite list_lookup_insert_ne.
Qed.

Lemma capturing_run i this e acts sys sys' :
  invariant sys → capturing i this e sys → run acts sys = Some sys' →
  capturing i this e sys'.
Proof.
  revert sys. induction acts as [|a acts IH]; intros sys Hinv Hcap Hrun; simpl in Hrun.
  - now simplify_eq.
  - destruct (step a sys) as [sys1|] eqn:Hstep; simpl in Hrun; [|discriminate].
    eapply IH; [| |exact Hrun].
    + eapply step_sound; eauto.
    + eapply capturing_step; eauto.
Qed.

(** C3.  A thread is about to run the body of a task, and the body
    raises [e].  Whatever the other threads do meanwhile, once the thread
    has left [TryExecute] the task is [Failed], [GetError] returns [e] and
    [Get] raises [e].  In every system the machine can reach, a task that
    holds an exception is [Failed], and a task that is [Failed] holds one
    whenever its mutex is free, which is when [GetError], taking the
    mutex, returns. *)
Theorem exception_capture :
  (∀ sys i th x e env acts sys' th',
     reachable sys →
     threads sys !! i = Some th → pc th = TE_run →
     store sys !! callee th = Some x →
     fn_ x (heap (store sys)) = Raised e →
     run (Act_step i env :: acts) sys = Some sys' →
     threads sys' !! i = Some th' → pc th' = Done →
     ∃ x', store sys' !! callee th = Some x' ∧
           IsFailed (task_ x') = true ∧
           GetError (task_ x') = Some e ∧
           Get (task_ x') = Raised e) ∧
  (∀ sys t x,
     reachable sys → store sys !! t = Some x →
     (is_Some (GetError (task_ x)) → state_ (task_ x) = Failed) ∧
     (mutex_ (task_ x) = None →
      state_ (task_ x) = Failed → is_Some (GetError (task_ x)))).
Proof.
  split.
  - intros sys i th x e env acts sys' th' Hreach Hth Hpc Hx Hfn Hrun Hth' Hpc'.
    apply reachable_invariant in Hreach. cbn [run] in Hrun.
    destruct (step (Act_step i env) sys) as [sys1|] eqn:Hstep; simpl in Hrun; [|discriminate].
    assert (Hcap : capturing i (callee th) e sys1).
    { simpl in Hstep. rewrite Hth in Hstep. simpl in Hstep.
      unfold thread_step in Hstep. rewrite Hx, Hpc, Hfn in Hstep. simpl in Hstep.
      simplify_eq. exists (MkThread (callee th) (TE_set_failed e)), x. simpl.
      rewrite list_lookup_insert_eq by (eapply lookup_lt_Some; eauto). auto. }
    destruct (step_sound _ _ _ Hreach Hstep) as [Hinv1 _].
    destruct (capturing_run _ _ _ _ _ _ Hinv1 Hcap Hrun)
      as (th'' & x' & Hth'' & _ & Hx' & Hpc'').
    simplify_eq. rewrite Hpc' in Hpc''.
    destruct Hpc'' as [?|[?|[_ He]]]; [discriminate..|].
    destruct (run_sound _ _ _ Hinv1 Hrun) as [(_ & _ & Htask) _].
    destruct (Htask _ _ Hx') as [Hfailed _].
    exists x'. split_and!; [done| |done|].
    + unfold IsFailed. rewrite Hfailed; [done|]. rewrite He. eauto.
    + apply Get_Failed; [|done]. apply Hfailed. rewrite He. eauto.
  - intros sys t x Hreach Hx. apply reachable_invariant in Hreach.
    destruct Hreach as (_ & _ & Htask). destruct (Htask _ _ Hx) as [H1 H2].
    split; [exact H1|]. intros Hm. apply H2. exact Hm.
Qed.

End Machine.

(** ** The executor and the combinators *)

Section Combinators.

Context {T Exn : Type}.
Implicit Types (s : Store T Exn) (h : Heap T Exn) (x y : Future T Exn)
  (w : Store T Exn * Executor) (z : Task T Exn).

Lemma make_shared_lookup init fn now s :
  (make_shared init fn now s).1 !! length s =
    Some (MkFuture (MkTask Pending [] [] now None None init) fn) ∧
  (∀ t x, s !! t = Some x → (make_shared init fn now s).1 !! t = Some x) ∧
  (make_shared init fn now s).2 = length s.
Proof.
  unfold make_shared. simpl. split_and!; [|intros; now apply lookup_app_l_Some|done].
  apply list_lookup_middle. reflexivity.
Qed.

(** The setters: the object [this] after the call, the others as they
    were. *)
Lemma setter_spec (f : Future T Exn → Future T Exn) this s x :
  s !! this = Some x →
  update f this s !! this = Some (f x) ∧
  (∀ t, t ≠ this → update f this s !! t = s !! t).
Proof.
  intros Hx. split.
  - now rewrite lookup_update_eq, Hx.
  - intros t Ht. now apply lookup_update_ne.
Qed.

Lemma add_triggers_spec this all s x :
  s !! this = Some x →
  ∃ s' x', add_triggers this all s = Returned s' ∧ s' !! this = Some x' ∧
    task_ x' = MkTask (state_ (task_ x)) (dependencies_ (task_ x))
                 (triggers_ (task_ x) ++ all) (time_trigger_ (task_ x))
                 (exception_ (task_ x)) (mutex_ (task_ x)) (result_ (task_ x)) ∧
    fn_ x' = fn_ x ∧
    (∀ t, t ≠ this → s' !! t = s !! t) ∧ length s' = length s.
Proof.
  revert s x. induction all as [|dep all IH]; intros s x Hx; simpl.
  - exists s, x. rewrite app_nil_r. destruct x as [[]]; simpl. auto 10.
  - unfold AddTrigger. rewrite (deref_Some _ _ _ Hx). simpl.
    destruct (setter_spec (push_trigger dep) this s x Hx) as [Hx1 Hother].
    destruct (IH _ _ Hx1) as (s' & x' & Hadd & Hx' & Htask & Hfn & Hother' & Hlen).
    exists s', x'. split_and!; [done..| | | |].
    + rewrite Htask. simpl. now rewrite <- app_assoc.
    + now rewrite Hfn.
    + intros t Ht. rewrite Hother' by done. now apply Hother.
    + now rewrite Hlen, length_update.
Qed.

(** [Submit] on an object of the store. *)
Lemma Submit_spec task w x :
  w.1 !! task = Some x →
  Submit task w =
    if Queue.IsCanceled (scheduler_ w.2) then
      Returned (if bool_decide (state_ (task_ x) = Pending)
                then update (set_state Canceled) task w.1 else w.1, w.2)
    else if bool_decide (state_ (task_ x) = Pending) then
      Returned (w.1, MkExecutor
                       (Queue.Mk (Queue.data_ (scheduler_ w.2) ++ [Some task]) false))
    else Returned w.
Proof.
  intros Hx. unfold Submit, Cancel, IsPending. rewrite (deref_Some _ _ _ Hx). simpl.
  unfold Queue.IsCanceled, Queue.Push.
  destruct (Queue.is_canceled_ (scheduler_ w.2)) eqn:Hc;
    destruct (bool_decide (state_ (task_ x) = Pending)); simpl; rewrite ?Hc; done.
Qed.

Lemma Submit_fresh w s x :
  s !! length w.1 = Some x →
  (∀ t y, w.1 !! t = Some y → s !! t = Some y) →
  length s = S (length w.1) →
  state_ (task_ x) = Pending → exception_ (task_ x) = None → mutex_ (task_ x) = None →
  ∃ w' x', Submit (length w.1) (s, w.2) = Returned w' ∧ submitted w w' x' ∧
    dependencies_ (task_ x') = dependencies_ (task_ x) ∧
    triggers_ (task_ x') = triggers_ (task_ x) ∧
    time_trigger_ (task_ x') = time_trigger_ (task_ x) ∧
    result_ (task_ x') = result_ (task_ x) ∧
    fn_ x' = fn_ x.
Proof.
  intros Hx Hold Hlen Hstate Hexn Hmutex.
  rewrite (Submit_spec _ (s, w.2) x Hx). simpl. rewrite Hstate. simpl.
  unfold submitted, Queue.IsCanceled.
  destruct (Queue.is_canceled_ (scheduler_ w.2)) eqn:Hc.
  - destruct (setter_spec (set_state Canceled) (length w.1) s x Hx) as [Hx' Hother].
    eexists _, (set_state Canceled x). split; [reflexivity|]. simpl.
    split_and!; try done.
    + intros t y Hy. rewrite Hother; [auto|].
      apply lookup_lt_Some in Hy. lia.
    + now rewrite length_update.
  - eexists _, x. split; [reflexivity|]. simpl.
    split_and!; done.
Qed.

Lemma WhenFirst_spec init all now w :
  ∃ w' x, WhenFirst init all now w = Returned (w', length w.1) ∧
    submitted w w' x ∧
    dependencies_ (task_ x) = [] ∧ triggers_ (task_ x) = all ∧
    time_trigger_ (task_ x) = now ∧ result_ (task_ x) = init ∧
    fn_ x = WhenFirst_fn all.
Proof.
  unfold WhenFirst.
  destruct (make_shared_lookup init (WhenFirst_fn all) now w.1) as (Hnew & Hold & Hptr).
  assert (Hlen1 : length (make_shared init (WhenFirst_fn all) now w.1).1 = S (length w.1)).
  { unfold make_shared. simpl. rewrite length_app. simpl. lia. }
  destruct (make_shared _ _ _ _) as [s1 task_ptr] eqn:Hmk. simpl in *. subst task_ptr.
  destruct (add_triggers_spec (length w.1) all s1 _ Hnew)
    as (s2 & x2 & -> & Hx2 & Htask & Hfn & Hother & Hlen). simpl.
  destruct (Submit_fresh w s2 x2 Hx2) as (w' & x' & -> & Hsub & Hd & Ht & Htt & Hr & Hf);
    try (rewrite Htask; done).
  { intros t y Hy. rewrite Hother; [auto|]. apply lookup_lt_Some in Hy. lia. }
  { lia. }
  simpl. exists w', x'. rewrite Hd, Ht, Htt, Hr, Hf, Htask, Hfn. simpl. done.
Qed.

(** The scan of [WhenFirst]'s lambda stops at the first finished element. *)
Lemma WhenFirst_fn_first h pre a post z :
  (∀ b, b ∈ pre → ∃ z', h !! b = Some z' ∧ IsFinished z' = false) →
  h !! a = Some z → IsFinished z = true →
  WhenFirst_fn (pre ++ a :: post) h = Get z.
Proof.
  intros Hpre Ha Hfin. unfold WhenFirst_fn.
  assert (WhenFirst_loop h (pre ++ a :: post) = Some (Get z)) as ->; [|done].
  induction pre as [|b pre IH]; simpl.
  - now rewrite Ha, Hfin.
  - destruct (Hpre b) as (z' & -> & ->); [left|].
    apply IH. intros b' Hb'. apply Hpre. now right.
Qed.

(** C6.  [WhenFirst] returns a handle to a new future whose triggers are
    the elements of [all], in order, and which has no dependency.  In any
    heap in which the element [a] of [all] is finished and the elements
    before it are not, the body ends as [Get()] on [a] does. *)
Theorem WhenFirst_first_finished init all now w :
  ∃ w' x,
    WhenFirst init all now w = Returned (w', length w.1) ∧
    w'.1 !! length w.1 = Some x ∧
    triggers_ (task_ x) = all ∧ dependencies_ (task_ x) = [] ∧
    ∀ h pre a post z,
      all = pre ++ a :: post →
      (∀ b, b ∈ pre → ∃ z', h !! b = Some z' ∧ IsFinished z' = false) →
      h !! a = Some z → IsFinished z = true →
      fn_ x h = Get z.
Proof.
  destruct (WhenFirst_spec init all now w)
    as (w' & x & Hret & (Hx & _) & Hdeps & Htrig & _ & _ & Hfn).
  exists w', x. split_and!; [done..|].
  intros h pre a post z -> Hpre Ha Hfin. rewrite Hfn.
  now apply WhenFirst_fn_first.
Qed.

Lemma front_Undefined (all : list TaskId) :
  front (Exn := Exn) all = Undefined ↔ all = [].
Proof. destruct all; simpl; split; intros; done. Qed.

(** C10.  [WhenFirst] of the empty vector returns a future with no trigger
    and no dependency; its scan finds nothing and its body takes
    [front()] of the empty vector, which has no defined behaviour.  Unless
    the executor has shut down the future is [Pending] with its gate met
    at any tick from [now] on, and [TryExecute] on it has no defined
    behaviour.  [front()] is defined exactly when the vector is not
    empty.  The future is submitted: on an open executor [Submit] pushes
    its handle to the back of the queue, and when the queue held nothing
    else the next pass of a worker pops it and runs into [front()]; on an
    executor that has shut down it is [Canceled] and not enqueued. *)
Theorem WhenFirst_empty init now w :
  ∃ w' x,
    WhenFirst init [] now w = Returned (w', length w.1) ∧
    w'.1 !! length w.1 = Some x ∧
    triggers_ (task_ x) = [] ∧ dependencies_ (task_ x) = [] ∧
    (∀ h, WhenFirst_loop h [] = None ∧
          front (Exn := Exn) [] = Undefined ∧
          fn_ x h = Undefined) ∧
    (Queue.IsCanceled (scheduler_ w.2) = false →
     ∀ now', now ≤ now' →
       gate_met (heap w'.1) now' (task_ x) ∧
       TryExecute now' (length w.1) w'.1 = Undefined) ∧
    (∀ all, front (Exn := Exn) all = Undefined ↔ all = []) ∧
    submitted w w' x ∧
    (Queue.IsCanceled (scheduler_ w.2) = false →
     state_ (task_ x) = Pending ∧
     Queue.Push (Some (length w.1)) (scheduler_ w.2) = (scheduler_ w'.2, true) ∧
     scheduler_ w'.2 =
       Queue.Mk (Queue.data_ (scheduler_ w.2) ++ [Some (length w.1)]) false ∧
     (Queue.data_ (scheduler_ w.2) = [] →
      ∀ now', now ≤ now' → worker now' w' = Undefined)) ∧
    (Queue.IsCanceled (scheduler_ w.2) = true →
     state_ (task_ x) = Canceled ∧ scheduler_ w'.2 = scheduler_ w.2).
Proof.
  destruct (WhenFirst_spec init [] now w)
    as (w' & x & Hret & Hsub & Hdeps & Htrig & Htime & _ & Hfn).
  pose proof Hsub as (Hx & _ & _ & _ & _ & Hstate).
  assert (Hrun : Queue.IsCanceled (scheduler_ w.2) = false →
            ∀ now', now ≤ now' →
              gate_met (heap w'.1) now' (task_ x) ∧
              TryExecute now' (length w.1) w'.1 = Undefined).
  { intros Hc now' Hnow. rewrite Hc in Hstate. destruct Hstate as [Hstate _].
    assert (Hgate : gate_met (heap w'.1) now' (task_ x)).
    { unfold gate_met. rewrite Hdeps, Htrig, Htime, Hstate.
      split_and!; [|now left|done..]. intros d Hd. inversion Hd. }
    split; [done|].
    rewrite (TryExecute_gate_met _ _ _ _ Hx); [|intros d; rewrite Hdeps, Htrig|done].
    2:{ intros Hd. inversion Hd. }
    unfold Run.
    destruct (setter_spec (set_state Running) (length w.1) w'.1 x Hx) as [Hx' _].
    rewrite (deref_Some _ _ _ Hx'). simpl. now rewrite Hfn. }
  exists w', x. split_and!; [done..| |exact Hrun|apply front_Undefined|exact Hsub| |].
  - intros h. now rewrite Hfn.
  - intros Hc. pose proof (Hrun Hc) as Hrun'. rewrite Hc in Hstate.
    destruct Hstate as [Hstate Hw']. rewrite Hw'. simpl.
    split_and!; [done| |done|].
    + unfold Queue.Push. unfold Queue.IsCanceled in Hc. now rewrite Hc.
    + intros Hempty now' Hnow. destruct (Hrun' now' Hnow) as [_ HTE].
      unfold worker. rewrite Hw'. simpl. rewrite Hempty. simpl.
      rewrite (deref_Some _ _ _ Hx). simpl.
      unfold IsCanceled. rewrite Hstate. simpl. now rewrite HTE.
  - intros Hc. rewrite Hc in Hstate. destruct Hstate as [Hstate Hw'].
    now rewrite Hw'.
Qed.

Lemma Get_finished z :
  IsFinished z = true → IsFailed z = false → Get z = Returned (result_ z).
Proof. intros Hf Hn. unfold Get, Wait. now rewrite Hf, Hn. Qed.

Lemma Get_failed z e :
  IsFailed z = true → GetError z = Some e → Get z = Raised e.
Proof.
  intros Hf He. apply bool_decide_eq_true in Hf. now apply Get_Failed.
Qed.




Lemma WhenAllBeforeDeadline_spec all deadline now w :
  ∃ w' x, WhenAllBeforeDeadline all deadline now w = Returned (w', length w.1) ∧
    submitted w w' x ∧
    dependencies_ (task_ x) = [] ∧ triggers_ (task_ x) = [] ∧
    time_trigger_ (task_ x) = deadline ∧ result_ (task_ x) = Vector [] ∧
    fn_ x = WhenAllBeforeDeadline_fn all.
Proof.
  unfold WhenAllBeforeDeadline.
  destruct (make_shared_lookup (Vector []) (WhenAllBeforeDeadline_fn all) now w.1)
    as (Hnew & Hold & Hptr).
  assert (Hlen1 : length (make_shared (Exn := Exn) (Vector [])
                    (WhenAllBeforeDeadline_fn all) now w.1).1 = S (length w.1)).
  { unfold make_shared. simpl. rewrite length_app. simpl. lia. }
  destruct (make_shared _ _ _ _) as [s1 task_ptr] eqn:Hmk. simpl in *. subst task_ptr.
  unfold SetTimeTrigger. rewrite (deref_Some _ _ _ Hnew). simpl.
  destruct (setter_spec (set_time_trigger deadline) (length w.1) s1 _ Hnew)
    as [Hx2 Hother].
  destruct (Submit_fresh w _ _ Hx2) as (w' & x' & -> & Hsub & Hd & Ht & Htt & Hr & Hf);
    try done.
  { intros t y Hy. rewrite Hother; [auto|]. apply lookup_lt_Some in Hy. lia. }
  { now rewrite length_update. }
  simpl. exists w', x'. rewrite Hd, Ht, Htt, Hr, Hf. simpl. done.
Qed.

Lemma bind_Returned {A B} (m : Outcome Exn A) (k : A → Outcome Exn B) b :
  bind m k = Returned b → ∃ a, m = Returned a ∧ k a = Returned b.
Proof. destruct m; simpl; intros H; try discriminate. eauto. Qed.

Lemma deref_Returned {A} (l : list A) p a :
  deref (Exn := Exn) l p = Returned a → l !! p = Some a.
Proof. unfold deref. destruct (l !! p); intros H; by simplify_eq. Qed.

(** A pass of a worker's loop that returns: what it popped and what it
    did with it. *)
Lemma worker_Returned now w r :
  worker now w = Returned r →
  let q := scheduler_ w.2 in
  (Queue.data_ q = [] ∧ Queue.is_canceled_ q = true ∧ r = (w.1, w.2, false)) ∨
  (∃ rest, Queue.data_ q = None :: rest ∧
           r = (w.1, MkExecutor (Queue.Mk rest (Queue.is_canceled_ q)), true)) ∨
  (∃ task rest x, Queue.data_ q = Some task :: rest ∧ w.1 !! task = Some x ∧
     ((IsCanceled (task_ x) = true ∧
       r = (w.1, MkExecutor (Queue.Mk rest (Queue.is_canceled_ q)), true)) ∨
      (IsCanceled (task_ x) = false ∧
       ∃ s' ran x', TryExecute now task w.1 = Returned (s', ran) ∧
         s' !! task = Some x' ∧
         r = (s',
              MkExecutor
                (if negb (IsFinished (task_ x'))
                 then (Queue.Push (Some task) (Queue.Mk rest (Queue.is_canceled_ q))).1
                 else Queue.Mk rest (Queue.is_canceled_ q)),
              true)))).
Proof.
  unfold worker, Queue.Pop. destruct w as [s [[ds c]]]; simpl.
  destruct ds as [|[task|] rest]; simpl.
  - destruct c; simpl; intros H; simplify_eq. now left.
  - rewrite orb_true_r, andb_false_r. intros H.
    apply bind_Returned in H as (x & Hx%deref_Returned & H).
    right; right. exists task, rest, x. split_and!; [done..|].
    destruct (IsCanceled (task_ x)); [left; by simplify_eq|right].
    split; [done|].
    apply bind_Returned in H as ([s' ran] & Hte & H).
    apply bind_Returned in H as (x' & Hx'%deref_Returned & H). simpl in *.
    exists s', ran, x'. split_and!; [done..|].
    destruct (negb (IsFinished (task_ x'))); by simplify_eq.
  - rewrite orb_true_r, andb_false_r. intros H. simplify_eq.
    right; left. eauto.
Qed.

(** Nothing resets the flag of a cancelled queue. *)
Lemma event_canceled ev w w' :
  event ev w = Returned w' →
  Queue.IsCanceled (scheduler_ w.2) = true →
  Queue.IsCanceled (scheduler_ w'.2) = true.
Proof.
  unfold Queue.IsCanceled. intros Hev Hc.
  destruct ev; simpl in Hev; simplify_eq; simpl; try done.
  - apply bind_Returned in Hev as (r & Hr & Hev). simplify_eq.
    apply worker_Returned in Hr. simpl in Hr. rewrite Hc in Hr.
    destruct Hr as [(_ & _ & ->)|[(rest & _ & ->)|(task & rest & x & _ & _ & Hr)]];
      [done..|].
    destruct Hr as [[_ ->]|(_ & s' & ran & x' & _ & _ & ->)]; [done|].
    simpl. now destruct (negb _).
  - unfold Submit, Queue.IsCanceled in Hev. rewrite Hc in Hev.
    destruct (Cancel _ _); simpl in Hev; simplify_eq. done.
  - destruct (Cancel _ _); simpl in Hev; simplify_eq. done.
  - destruct (TryExecute _ _ _); simpl in Hev; simplify_eq. done.
  - destruct (AddDependency _ _ _); simpl in Hev; simplify_eq. done.
  - destruct (AddTrigger _ _ _); simpl in Hev; simplify_eq. done.
  - destruct (SetTimeTrigger _ _ _); simpl in Hev; simplify_eq. done.
Qed.

Lemma events_canceled evs w w' :
  events evs w = Returned w' →
  Queue.IsCanceled (scheduler_ w.2) = true →
  Queue.IsCanceled (scheduler_ w'.2) = true.
Proof.
  revert w. induction evs as [|ev evs IH]; intros w Hev Hc; simpl in Hev.
  - now simplify_eq.
  - destruct (event ev w) as [w1| | |] eqn:Hev1; simpl in Hev; try discriminate.
    eapply IH; [done|]. eapply event_canceled; eauto.
Qed.

(** C5, as amended.  After [StartShutdown] the queue stays cancelled.
    With the queue cancelled, [Submit] leaves the executor as it is (the
    task is not enqueued); a task that was [Pending] is [Canceled] after
    it, and on a task in any other state the call changes nothing.  With
    the queue open, [Submit] enqueues the task if it is [Pending] and
    changes nothing otherwise. *)
Theorem Submit_after_shutdown task w x :
  w.1 !! task = Some x →
  (∀ w0 evs, events evs (StartShutdown w0) = Returned w →
             Queue.IsCanceled (scheduler_ w.2) = true) ∧
  (Queue.IsCanceled (scheduler_ w.2) = true →
   ∃ s' x', Submit task w = Returned (s', w.2) ∧ s' !! task = Some x' ∧
     (state_ (task_ x) = Pending → state_ (task_ x') = Canceled) ∧
     (state_ (task_ x) ≠ Pending → s' = w.1 ∧ x' = x)) ∧
  (Queue.IsCanceled (scheduler_ w.2) = false →
   Submit task w =
     Returned (w.1, if IsPending (task_ x)
                    then MkExecutor
                           (Queue.Mk (Queue.data_ (scheduler_ w.2) ++ [Some task]) false)
                    else w.2)).
Proof.
  intros Hx. rewrite (Submit_spec _ _ _ Hx). split_and!.
  - intros w0 evs Hev. eapply events_canceled; eauto.
  - intros ->. destruct (bool_decide_reflect (state_ (task_ x) = Pending)) as [Hp|Hp].
    + destruct (setter_spec (set_state Canceled) task w.1 x Hx) as [Hx' _].
      eexists _, _. split_and!; [done..|]. done.
    + exists w.1, x. split_and!; done.
  - intros ->. unfold IsPending. destruct (bool_decide _); [done|]. now destruct w.
Qed.







End Combinators.

(** ** A thread running alone: the sequential forms and the machine *)

Section Alone.

Context {T Exn : Type}.
Implicit Types (s : Store T Exn) (h : Heap T Exn) (x y : Future T Exn)
  (p : Pc Exn) (z : Task T Exn).

Lemma runs_to_refl i env this p s : runs_to i env this p s p s.
Proof. now exists 0%nat. Qed.

Lemma runs_to_step i env this p s p1 s1 p' s' :
  thread_step i env this p s = Some (s1, p1) →
  runs_to i env this p1 s1 p' s' →
  runs_to i env this p s p' s'.
Proof. intros Hstep [n Hn]. exists (S n). simpl. now rewrite Hstep. Qed.

Lemma runs_to_trans i env this p s p1 s1 p' s' :
  runs_to i env this p s p1 s1 →
  runs_to i env this p1 s1 p' s' →
  runs_to i env this p s p' s'.
Proof.
  intros [n Hn] H. revert p s Hn. induction n as [|n IH]; intros p s Hn; simpl in Hn.
  - now simplify_eq.
  - destruct (thread_step i env this p s) as [[s2 p2]|] eqn:Hstep; [|discriminate].
    eapply runs_to_step; eauto.
Qed.

(** The loops of the gate read the states of the tasks and nothing else. *)
Lemma dependencies_finished_states h h' deps :
  (∀ t, state_ <$> h !! t = state_ <$> h' !! t) →
  dependencies_finished h deps = dependencies_finished h' deps.
Proof.
  intros Hs. induction deps as [|d deps IH]; simpl; [done|].
  unfold deref. specialize (Hs d).
  destruct (h !! d) as [z|], (h' !! d) as [z'|]; simpl in *; try discriminate; [|done].
  injection Hs as Hs. unfold IsFinished. rewrite Hs. now rewrite IH.
Qed.

Lemma triggers_happened_states h h' acc trigs :
  (∀ t, state_ <$> h !! t = state_ <$> h' !! t) →
  triggers_happened h acc trigs = triggers_happened h' acc trigs.
Proof.
  intros Hs. revert acc. induction trigs as [|d trigs IH]; intros acc; simpl; [done|].
  unfold deref. specialize (Hs d).
  destruct (h !! d) as [z|], (h' !! d) as [z'|]; simpl in *; try discriminate; [|done].
  injection Hs as Hs. unfold IsFinished. rewrite Hs. now rewrite IH.
Qed.

Lemma heap_update_states (f : Future T Exn → Future T Exn) this s :
  (∀ y, state_ (task_ (f y)) = state_ (task_ y)) →
  ∀ t, state_ <$> heap (update f this s) !! t = state_ <$> heap s !! t.
Proof.
  intros Hf t. rewrite !heap_lookup.
  destruct (decide (this = t)) as [->|Hne].
  - rewrite lookup_update_eq. destruct (s !! t); simpl; [|done]. now rewrite Hf.
  - now rewrite lookup_update_ne.
Qed.

Lemma heap_update_views (f g : Future T Exn → Future T Exn) this s :
  (∀ y, same_view (task_ (f y)) (task_ (g y))) →
  Forall2 same_view (heap (update f this s)) (heap (update g this s)).
Proof.
  intros Hfg. apply Forall2_lookup. intros t. rewrite !heap_lookup.
  destruct (decide (this = t)) as [->|Hne].
  - rewrite !lookup_update_eq. destruct (s !! t); simpl; constructor. apply Hfg.
  - rewrite !lookup_update_ne by done. destruct (s !! t); simpl; constructor.
    done.
Qed.

Lemma update_update (f g : Future T Exn → Future T Exn) this s :
  update f this (update g this s) = update (f ∘ g) this s.
Proof. unfold update. apply list_alter_alter_eq. Qed.

Lemma update_ext (f g : Future T Exn → Future T Exn) this s x :
  s !! this = Some x → f x = g x → update f this s = update g this s.
Proof.
  intros Hx Hfg. unfold update. apply list_alter_ext; [|done].
  intros y Hy. now simplify_eq.
Qed.

Lemma update_id (f : Future T Exn → Future T Exn) this s x :
  s !! this = Some x → f x = x → update f this s = s.
Proof.
  intros Hx Hf. rewrite (update_ext f id this s x Hx Hf).
  unfold update. now apply list_alter_id.
Qed.

(** The first loop of [TryExecute], step by step. *)
Lemma dependencies_runs i env this s x rest b :
  s !! this = Some x →
  dependencies_finished (heap s) rest = Returned b →
  runs_to i env this (TE_dependencies rest) s
    (if b then TE_triggers (empty (triggers_ (task_ x))) (triggers_ (task_ x))
     else TE_unlock) s.
Proof.
  intros Hx. induction rest as [|d rest IH]; simpl; intros Hb.
  - simplify_eq. eapply runs_to_step; [|apply runs_to_refl].
    unfold thread_step. now rewrite Hx.
  - apply bind_Returned in Hb as (z & Hz%deref_Returned & Hb).
    destruct (negb (IsFinished z)) eqn:Hf.
    + simplify_eq. eapply runs_to_step; [|apply runs_to_refl].
      unfold thread_step. now rewrite Hx, Hz, Hf.
    + eapply runs_to_step; [|apply IH; done].
      unfold thread_step. now rewrite Hx, Hz, Hf.
Qed.

(** The second loop, step by step. *)
Lemma triggers_runs i env this s x acc rest b :
  s !! this = Some x →
  triggers_happened (heap s) acc rest = Returned b →
  runs_to i env this (TE_triggers acc rest) s (if b then TE_clock else TE_unlock) s.
Proof.
  intros Hx. revert acc. induction rest as [|d rest IH]; simpl; intros acc Hb.
  - simplify_eq. eapply runs_to_step; [|apply runs_to_refl].
    unfold thread_step. rewrite Hx. now destruct b.
  - apply bind_Returned in Hb as (z & Hz%deref_Returned & Hb).
    eapply runs_to_step; [|apply IH; done].
    unfold thread_step. now rewrite Hx, Hz.
Qed.

Lemma unlock_runs i env this s x :
  s !! this = Some x →
  runs_to i env this TE_unlock s Done (update (set_mutex None) this s).
Proof.
  intros Hx. eapply runs_to_step; [|apply runs_to_refl].
  unfold thread_step. now rewrite Hx.
Qed.

(** A thread that runs [TryExecute] alone, from entry to exit, with clock
    reading [now] and no spurious failure, leaves the store the sequential
    [TryExecute] returns. *)
Lemma TryExecute_runs i now this s x s' ran :
  s !! this = Some x → mutex_ (task_ x) = None → sees_public (fn_ x) →
  TryExecute now this s = Returned (s', ran) →
  runs_to i (MkEnv now false) this TE_lock s Done s'.
Proof.
  intros Hx Hm Hfn Hte.
  set (env := MkEnv now false).
  set (sL := update (set_mutex (Some i)) this s).
  assert (HxL : sL !! this = Some (set_mutex (Some i) x)).
  { subst sL. now rewrite lookup_update_eq, Hx. }
  assert (Hstates : ∀ t, state_ <$> heap sL !! t = state_ <$> heap s !! t).
  { now apply heap_update_states. }
  assert (Hback : update (set_mutex None) this sL = s).
  { subst sL. rewrite update_update. apply (update_id _ _ _ x Hx).
    destruct x as [[]]; simpl in *. now subst. }
  assert (Hunlock : runs_to i env this TE_unlock sL Done s).
  { pose proof (unlock_runs i env this sL _ HxL) as Hu. now rewrite Hback in Hu. }
  eapply runs_to_step.
  { unfold thread_step. rewrite Hx, Hm. reflexivity. }
  fold sL. unfold TryExecute in Hte. rewrite (deref_Some _ _ _ Hx) in Hte. simpl in Hte.
  apply bind_Returned in Hte as (deps & Hdeps & Hte).
  rewrite <- (dependencies_finished_states _ _ _ Hstates) in Hdeps.
  eapply runs_to_trans; [eapply dependencies_runs; eauto|].
  destruct deps; simpl in Hte.
  2:{ simplify_eq. exact Hunlock. }
  apply bind_Returned in Hte as (trig & Htrig & Hte).
  rewrite <- (triggers_happened_states _ _ _ _ Hstates) in Htrig.
  eapply runs_to_trans; [eapply triggers_runs; eauto|].
  destruct trig; simpl in Hte.
  2:{ simplify_eq. exact Hunlock. }
  destruct (now <? time_trigger_ (task_ x)) eqn:Hclock.
  { simplify_eq. eapply runs_to_step.
    { unfold thread_step. rewrite HxL. simpl. now rewrite Hclock. }
    exact Hunlock. }
  eapply runs_to_step.
  { unfold thread_step. rewrite HxL. simpl. now rewrite Hclock. }
  destruct (bool_decide (state_ (task_ x) = Pending)) eqn:Hp; simpl in Hte.
  2:{ simplify_eq. eapply runs_to_step.
      { unfold thread_step. rewrite HxL. simpl. now rewrite Hp. }
      exact Hunlock. }
  eapply runs_to_step.
  { unfold thread_step. rewrite HxL. simpl. now rewrite Hp. }
  eapply runs_to_step.
  { unfold thread_step. rewrite HxL. simpl. rewrite bool_decide_eq_true_2 by done.
    reflexivity. }
  set (sR := update (set_state Running) this sL).
  assert (HxR : sR !! this = Some (set_state Running (set_mutex (Some i) x))).
  { subst sR. now rewrite lookup_update_eq, HxL. }
  assert (Hview : fn_ x (heap sR) = fn_ x (heap (update (set_state Running) this s))).
  { apply Hfn. subst sR sL. rewrite update_update. now apply heap_update_views. }
  unfold Run in Hte.
  rewrite (deref_Some _ _ (set_state Running x)) in Hte
    by now rewrite lookup_update_eq, Hx.
  simpl in Hte. rewrite <- Hview in Hte.
  destruct (fn_ x (heap sR)) as [v|e| |] eqn:Hbody; simpl in Hte; simplify_eq.
  - eapply runs_to_step.
    { unfold thread_step. rewrite HxR. simpl. rewrite Hbody. reflexivity. }
    eapply runs_to_step.
    { unfold thread_step. rewrite lookup_update_eq, HxR. reflexivity. }
    eapply runs_to_step.
    { unfold thread_step. rewrite !lookup_update_eq, HxR. reflexivity. }
    subst sR sL. rewrite !update_update.
    rewrite (update_ext _ (set_state Completed ∘ set_result v ∘ set_state Running) this s x Hx).
    + apply runs_to_refl.
    + destruct x as [[]]; simpl in *. now subst.
  - eapply runs_to_step.
    { unfold thread_step. rewrite HxR. simpl. rewrite Hbody. reflexivity. }
    eapply runs_to_step.
    { unfold thread_step. rewrite HxR. reflexivity. }
    eapply runs_to_step.
    { unfold thread_step. rewrite lookup_update_eq, HxR. reflexivity. }
    eapply runs_to_step.
    { unfold thread_step. rewrite !lookup_update_eq, HxR. reflexivity. }
    subst sR sL. rewrite !update_update.
    rewrite (update_ext _ (set_exception e ∘ set_state Failed ∘ set_state Running) this s x Hx).
    + apply runs_to_refl.
    + destruct x as [[]]; simpl in *. now subst.
Qed.

Lemma Cancel_runs i now this s s' :
  Cancel this s = Returned s' →
  runs_to i (MkEnv now false) this CA_load s Done s'.
Proof.
  unfold Cancel. intros H.
  apply bind_Returned in H as (x & Hx%deref_Returned & H).
  destruct (bool_decide (state_ (task_ x) = Pending)) eqn:Hp; simpl in H; simplify_eq.
  - eapply runs_to_step.
    { unfold thread_step. rewrite Hx. simpl. now rewrite Hp. }
    eapply runs_to_step; [|apply runs_to_refl].
    unfold thread_step. rewrite Hx. simpl. rewrite bool_decide_eq_true_2 by done.
    reflexivity.
  - eapply runs_to_step; [|apply runs_to_refl].
    unfold thread_step. rewrite Hx. simpl. now rewrite Hp.
Qed.

(** The steps of the last thread of a system, taken in a row, are a run of
    the system. *)
Lemma thread_run_run n env this p s p' s' (ths : list (Thread Exn)) :
  thread_run n (length ths) env this p s = Some (s', p') →
  run (replicate n (Act_step (length ths) env)) (MkSys s (ths ++ [MkThread this p])) =
    Some (MkSys s' (ths ++ [MkThread this p'])).
Proof.
  revert p s. induction n as [|n IH]; intros p s Hn; simpl in Hn.
  - now simplify_eq.
  - destruct (thread_step _ _ _ _ _) as [[s1 p1]|] eqn:Hstep; [|discriminate].
    cbn [replicate run step]. simpl.
    rewrite list_lookup_middle by done. simpl. rewrite Hstep. simpl.
    replace (<[length ths:=MkThread this p1]> (ths ++ [MkThread this p]))
      with (ths ++ [MkThread this p1]).
    + now apply IH.
    + rewrite insert_app_r_alt by done. now rewrite Nat.sub_diag.
Qed.

(** X1.  The sequential [TryExecute] is the machine with one thread in the call:
    a thread that enters [TryExecute] and takes its steps in a row, with the
    clock reading [now] and no spurious failure, ends with the store the
    sequential form returns (the task's mutex being free at entry, and the
    body seeing of the heap what the public members show). *)
Theorem TryExecute_alone (ths : list (Thread Exn)) now this s x s' ran :
  s !! this = Some x → mutex_ (task_ x) = None → sees_public (fn_ x) →
  TryExecute now this s = Returned (s', ran) →
  ∃ n, run (Act_TryExecute this ::
            replicate n (Act_step (length ths) (MkEnv now false))) (MkSys s ths) =
         Some (MkSys s' (ths ++ [MkThread this Done])).
Proof.
  intros Hx Hm Hfn Hte.
  destruct (TryExecute_runs (length ths) now this s x s' ran Hx Hm Hfn Hte) as [n Hn].
  exists n. cbn [run step]. simpl. rewrite Hx. simpl.
  now apply thread_run_run.
Qed.

(** X2.  The sequential [Cancel] is the machine with one thread in the call. *)
Theorem Cancel_alone (ths : list (Thread Exn)) now this s s' :
  Cancel this s = Returned s' →
  ∃ n, run (Act_Cancel this ::
            replicate n (Act_step (length ths) (MkEnv now false))) (MkSys s ths) =
         Some (MkSys s' (ths ++ [MkThread this Done])).
Proof.
  intros Hc. destruct (Cancel_runs (length ths) now this s s' Hc) as [n Hn].
  exists n. cbn [run step]. simpl.
  unfold Cancel in Hc. apply bind_Returned in Hc as (x & Hx%deref_Returned & _).
  rewrite Hx. simpl. now apply thread_run_run.
Qed.

(** The function objects of the combinators see the heap through [Get] and
    [IsFinished]. *)
Lemma same_view_Get z z' : same_view z z' → Get z = Get z' ∧ IsFinished z = IsFinished z'.
Proof.
  intros (Hs & He & Hr). unfold Get, Wait, IsFinished, IsFailed, GetError.
  now rewrite Hs, He, Hr.
Qed.

Lemma same_view_lookup h h' t :
  Forall2 same_view h h' →
  (h !! t = None ∧ h' !! t = None) ∨
  (∃ z z', h !! t = Some z ∧ h' !! t = Some z' ∧ same_view z z').
Proof.
  intros Hv. rewrite Forall2_lookup in Hv. specialize (Hv t).
  destruct Hv; eauto 10.
Qed.

Lemma combinators_see_public all :
  sees_public (T := T) (Exn := Exn) (WhenAll_fn all) ∧
  sees_public (T := T) (Exn := Exn) (WhenFirst_fn all) ∧
  sees_public (T := T) (Exn := Exn) (WhenAllBeforeDeadline_fn all).
Proof.
  split_and!; intros h h' Hv.
  - unfold WhenAll_fn. f_equal. generalize (@nil (Value T)).
    induction all as [|a all IH]; intros acc; simpl; [done|].
    unfold deref.
    destruct (same_view_lookup h h' a Hv) as [[-> ->]|(z & z' & -> & -> & Hz)]; [done|].
    simpl. destruct (same_view_Get _ _ Hz) as [-> _].
    destruct (Get z'); simpl; auto.
  - unfold WhenFirst_fn.
    assert (WhenFirst_loop h all = WhenFirst_loop h' all) as ->.
    { induction all as [|a all IH]; simpl; [done|].
      destruct (same_view_lookup h h' a Hv) as [[-> ->]|(z & z' & -> & -> & Hz)]; [done|].
      destruct (same_view_Get _ _ Hz) as [-> ->]. now rewrite IH. }
    destruct (WhenFirst_loop h' all); [done|].
    destruct all as [|a all]; simpl; [done|]. unfold deref.
    destruct (same_view_lookup h h' a Hv) as [[-> ->]|(z & z' & -> & -> & Hz)]; [done|].
    simpl. now destruct (same_view_Get _ _ Hz) as [-> _].
  - unfold WhenAllBeforeDeadline_fn. f_equal. generalize (@nil (Value T)).
    induction all as [|a all IH]; intros acc; simpl; [done|].
    unfold deref.
    destruct (same_view_lookup h h' a Hv) as [[-> ->]|(z & z' & -> & -> & Hz)]; [done|].
    simpl. destruct (same_view_Get _ _ Hz) as [-> ->].
    destruct (IsFinished z'); [|auto].
    destruct (Get z'); simpl; auto.
Qed.

End Alone.

(** ** The gate, while threads interleave *)

Section GateMachine.

Context {T Exn : Type}.
Implicit Types (s : Store T Exn) (h : Heap T Exn) (x y : Future T Exn)
  (p : Pc Exn) (z : Task T Exn) (sys : Sys T Exn).

Lemma all_finished_kept h h' ds :
  finished_kept h h' → all_finished h ds → all_finished h' ds.
Proof.
  intros Hk Hall d Hd. destruct (Hall d Hd) as (z & Hz & Hf). eauto.
Qed.

Lemma some_finished_kept h h' ds :
  finished_kept h h' → some_finished h ds → some_finished h' ds.
Proof.
  intros Hk (d & z & Hd & Hz & Hf). destruct (Hk d z Hz Hf) as (z' & ? & ?).
  exists d, z'. auto.
Qed.

Lemma gate_pc_kept h h' p z z' :
  finished_kept h h' →
  dependencies_ z' = dependencies_ z → triggers_ z' = triggers_ z →
  gate_pc h p z → gate_pc h' p z'.
Proof.
  intros Hk Hd Ht. destruct p; simpl; rewrite ?Hd, ?Ht; try done.
  - intros (seen & ? & ?). eauto using all_finished_kept.
  - intros (? & seen & ? & Hacc). split; [eauto using all_finished_kept|].
    exists seen. split; [done|]. intros Ha. destruct (Hacc Ha); eauto using some_finished_kept.
  - intros [? [?|?]]; eauto using all_finished_kept, some_finished_kept.
  - intros [? [?|?]]; eauto using all_finished_kept, some_finished_kept.
  - intros [? [?|?]]; eauto using all_finished_kept, some_finished_kept.
  - intros [? [?|?]]; eauto using all_finished_kept, some_finished_kept.
  - intros [? [?|?]]; eauto using all_finished_kept, some_finished_kept.
  - intros [? [?|?]]; eauto using all_finished_kept, some_finished_kept.
  - intros [? [?|?]]; eauto using all_finished_kept, some_finished_kept.
  - intros [? [?|?]]; eauto using all_finished_kept, some_finished_kept.
Qed.

Lemma task_step_finished z z' :
  task_step z z' → IsFinished z = true → IsFinished z' = true.
Proof.
  unfold IsFinished. intros ([->|Htr] & _) Hf; [done|].
  destruct Htr; simpl in *; done.
Qed.

(** A step of the system keeps finished tasks finished. *)
Lemma step_finished_kept a sys sys' :
  invariant sys → step a sys = Some sys' →
  finished_kept (heap (store sys)) (heap (store sys')).
Proof.
  intros Hinv Hstep d z Hz Hf.
  destruct (step_sound _ _ _ Hinv Hstep) as [_ H].
  rewrite heap_lookup in Hz.
  destruct (store sys !! d) as [x|] eqn:Hx; simpl in Hz; [|discriminate].
  simplify_eq.
  destruct (H _ _ Hx) as (x' & Hx' & Hts).
  exists (task_ x'). rewrite heap_lookup, Hx'. split; [done|].
  eapply task_step_finished; eauto.
Qed.

(** The step of a thread in the gate, read against the heap it ran in. *)
Lemma thread_step_gate i env this p s s' p' x :
  s !! this = Some x →
  thread_step i env this p s = Some (s', p') →
  gate_pc (heap s) p (task_ x) →
  gate_pc (heap s) p' (task_ x).
Proof.
  intros Hx Hstep. unfold thread_step in Hstep. rewrite Hx in Hstep.
  destruct p; simpl in Hstep; repeat case_match; simplify_eq; simpl; try done.
  all: repeat match goal with
         | H : negb _ = false |- _ => apply negb_false_iff in H
         | H : heap _ !! _ = Some _ |- _ => revert H
         | H : IsFinished _ = true |- _ => revert H
         | H : _ = true |- _ => revert H
         end.
  - (* lock *) intros _. exists []. split; [done|]. intros d Hd. inversion Hd.
  - (* the last dependency passed *)
    intros (seen & Hd & Hall). rewrite app_nil_r in Hd. rewrite Hd.
    split; [done|]. exists []. split; [done|].
    intros He. left. destruct (triggers_ (task_ x)); [done|discriminate].
  - (* a dependency passed *)
    intros Hf Hn (seen & Hd & Hall). exists (seen ++ [n]). rewrite <- app_assoc.
    split; [done|].
    intros d [Hin|Hin%list_elem_of_singleton]%elem_of_app; [auto|]. subst. eauto.
  - (* the last trigger passed *)
    intros Ha (Hall & seen & Ht & Hacc). split; [done|].
    rewrite app_nil_r in Ht. destruct (Hacc Ha) as [?|?]; [now left|right]. now rewrite Ht.
  - (* a trigger passed *)
    intros Hn (Hall & seen & Ht & Hacc). split; [done|].
    exists (seen ++ [n]). rewrite <- app_assoc. split; [done|].
    intros [Ha|Hf]%orb_true_iff.
    + destruct (Hacc Ha) as [?|(d & z & Hd & Hz & Hf)]; [now left|right].
      exists d, z. split_and!; [|done..]. apply elem_of_app. now left.
    + right. eexists n, _. split_and!; [|done..]. apply elem_of_app. right. left.
Qed.

(** Outside the gate of [TryExecute] a place says nothing of the gate. *)
Lemma gate_pc_unlocked i p z h :
  pc_inv i p z → mutex_ z = None → gate_pc h p z.
Proof.
  destruct p; simpl; try done; intros Hpc Hm; destruct_and?; congruence.
Qed.

Lemma locked_write_gate (f : Future T Exn → Future T Exn) this sys s' :
  invariant sys → gate_invariant sys →
  locked_write f this (store sys) = Some s' →
  (∀ y, state_ (task_ (f y)) = state_ (task_ y) ∧
        exception_ (task_ (f y)) = exception_ (task_ y) ∧
        mutex_ (task_ (f y)) = mutex_ (task_ y) ∧
        result_ (task_ (f y)) = result_ (task_ y)) →
  finished_kept (heap (store sys)) (heap s') →
  gate_invariant (MkSys s' (threads sys)).
Proof.
  intros (Hvalid & Hpc & _) Hgate Hw Hf Hk i th x' Hth Hx'. simpl in *.
  unfold locked_write in Hw.
  destruct (store sys !! this) as [y|] eqn:Hy; [|discriminate].
  destruct (mutex_ (task_ y)) eqn:Hm; [discriminate|]. simplify_eq.
  destruct (Hvalid i th Hth) as [x Hx].
  destruct (decide (this = callee th)) as [->|Hne].
  - rewrite lookup_update_eq, Hy in Hx'. simpl in Hx'. simplify_eq.
    destruct (Hf y) as (Hs & He & Hmm & _).
    eapply gate_pc_unlocked.
    + eapply pc_inv_ext; [exact Hs|exact He|exact Hmm|]. eauto.
    + now rewrite Hmm.
  - rewrite lookup_update_ne in Hx' by done. simplify_eq.
    eapply gate_pc_kept; eauto.
Qed.

(** Every step of the system keeps what the threads in the gate know. *)
Lemma gate_step a sys sys' :
  invariant sys → gate_invariant sys → step a sys = Some sys' →
  gate_invariant sys'.
Proof.
  intros Hinv Hgate Hstep.
  pose proof (step_finished_kept _ _ _ Hinv Hstep) as Hk.
  destruct a as [init fn now|this dep|this dep|this at_|this|this|i env];
    simpl in Hstep.
  - simplify_eq. destruct Hinv as (Hvalid & _). intros i th x' Hth Hx'. simpl in *.
    destruct (Hvalid i th Hth) as [x Hx].
    rewrite (lookup_app_l_Some _ _ _ _ Hx) in Hx'. simplify_eq.
    eapply gate_pc_kept; eauto.
  - destruct (locked_write _ _ _) as [s'|] eqn:Hw; simpl in Hstep; simplify_eq.
    eapply locked_write_gate; eauto.
  - destruct (locked_write _ _ _) as [s'|] eqn:Hw; simpl in Hstep; simplify_eq.
    eapply locked_write_gate; eauto.
  - destruct (locked_write _ _ _) as [s'|] eqn:Hw; simpl in Hstep; simplify_eq.
    eapply locked_write_gate; eauto.
  - destruct (store sys !! this) as [x|] eqn:Hx; simpl in Hstep; simplify_eq.
    intros i th y Hth Hy. simpl in *.
    apply lookup_app_Some in Hth as [Hth|[_ Hth]]; [eauto|].
    apply list_lookup_singleton_Some in Hth as [_ <-]. exact I.
  - destruct (store sys !! this) as [x|] eqn:Hx; simpl in Hstep; simplify_eq.
    intros i th y Hth Hy. simpl in *.
    apply lookup_app_Some in Hth as [Hth|[_ Hth]]; [eauto|].
    apply list_lookup_singleton_Some in Hth as [_ <-]. exact I.
  - destruct (threads sys !! i) as [th|] eqn:Hth; simpl in Hstep; [|discriminate].
    destruct (thread_step _ _ _ _ _) as [[s' p']|] eqn:Hts; simpl in Hstep; simplify_eq.
    simpl in Hk.
    destruct Hinv as (Hvalid & Hpc & Htask).
    destruct (Hvalid i th Hth) as [x Hx].
    destruct (thread_step_sound _ _ _ _ _ _ _ _ Hx Hts (Hpc _ _ _ Hth Hx) (Htask _ _ Hx))
      as (x' & (Hx' & Hother & _ & _ & Hdeps & Htrigs & _) & _).
    intros j th' y' Hth' Hy'. simpl in *.
    destruct (decide (i = j)) as [->|Hne].
    + rewrite list_lookup_insert_eq in Hth' by (eapply lookup_lt_Some; eauto).
      simplify_eq. simpl in *. simplify_eq.
      eapply gate_pc_kept; [done..|].
      eapply thread_step_gate; eauto.
    + rewrite list_lookup_insert_ne in Hth' by done.
      destruct (Hvalid j th' Hth') as [y Hy].
      destruct (decide (callee th' = callee th)) as [Heq|Hneq].
      * rewrite Heq in Hy, Hy'. simplify_eq.
        eapply gate_pc_kept; [done..|]. eapply Hgate; eauto. now rewrite Heq.
      * rewrite Hother in Hy' by done. simplify_eq.
        eapply gate_pc_kept; eauto.
Qed.

Lemma gate_run acts sys sys' :
  invariant sys → gate_invariant sys → run acts sys = Some sys' →
  gate_invariant sys'.
Proof.
  revert sys. induction acts as [|a acts IH]; intros sys Hinv Hgate Hrun; simpl in Hrun.
  - now simplify_eq.
  - destruct (step a sys) as [sys1|] eqn:Hstep; simpl in Hrun; [|discriminate].
    eapply IH; [| |done].
    + eapply step_sound; eauto.
    + eapply gate_step; eauto.
Qed.

(** X3.  In every system the machine can reach, a thread that is about to call
    [Run()] on a task has seen every dependency of the task finished and the
    trigger list empty or a trigger finished, and they still are; the task is
    [Running], set so by this thread from [Pending].  A thread gets past the
    test of the clock only with a reading at or past the time trigger. *)
Theorem body_entered_with_gate_met sys i th x :
  reachable sys →
  threads sys !! i = Some th → pc th = TE_run →
  store sys !! callee th = Some x →
  state_ (task_ x) = Running ∧
  all_finished (heap (store sys)) (dependencies_ (task_ x)) ∧
  (triggers_ (task_ x) = [] ∨ some_finished (heap (store sys)) (triggers_ (task_ x))) ∧
  (∀ env s s', thread_step i env (callee th) TE_clock s = Some (s', TE_load) →
     ∃ y, s !! callee th = Some y ∧ time_trigger_ (task_ y) ≤ clock env) ∧
  (∀ env s s' state, thread_step i env (callee th) (TE_cas state) s = Some (s', TE_run) →
     ∃ y, s !! callee th = Some y ∧ state_ (task_ y) = state).
Proof.
  intros [acts Hrun] Hth Hpc Hx.
  assert (Hinv : invariant sys).
  { eapply run_sound; [apply invariant_initial|eauto]. }
  assert (Hgate : gate_invariant sys).
  { eapply gate_run; [apply invariant_initial| |eauto].
    intros j th' y Hth'. simpl in Hth'. now rewrite lookup_nil in Hth'. }
  destruct Hinv as (_ & Hpcs & _).
  specialize (Hpcs _ _ _ Hth Hx). specialize (Hgate _ _ _ Hth Hx).
  rewrite Hpc in Hpcs, Hgate. simpl in Hpcs, Hgate.
  destruct Hpcs as [_ Hrunning]. destruct Hgate as [Hdeps Htrig].
  split_and!; [done..| |].
  - intros env s s' Hstep. unfold thread_step in Hstep.
    destruct (s !! callee th) as [y|]; [|discriminate]. exists y. split; [done|].
    destruct (Z.ltb_spec (clock env) (time_trigger_ (task_ y))); [discriminate|lia].
  - intros env s s' state Hstep. unfold thread_step in Hstep.
    destruct (s !! callee th) as [y|]; [|discriminate]. exists y. split; [done|].
    destruct (bool_decide_reflect (state_ (task_ y) = state)); [done|].
    simpl in Hstep. discriminate.
Qed.

End GateMachine.

(** ** The open queue *)

Lemma Pop_open {A} (d : A) (ds : list A) :
  Queue.Pop (Queue.Mk (d :: ds) false) = Some (Some d, Queue.Mk ds false).
Proof. reflexivity. Qed.

Lemma Pop_blocks {A} (q : Queue.t A) :
  Queue.Pop q = None ↔ Queue.is_canceled_ q = false ∧ Queue.data_ q = [].
Proof.
  destruct q as [[|d ds] [|]]; cbn; split; try done; intros [? ?]; done.
Qed.

Lemma calls_open {A} (cs : list (Queue.Call A)) (ds : list A) rs q' :
  Queue.calls cs (Queue.Mk ds false) = Some (rs, q') →
  q' = Queue.Mk (drop (Queue.pops cs) (ds ++ pushed cs)) false ∧
  Queue.push_replies rs = replicate (Queue.pushes cs) true ∧
  Queue.pop_replies rs = Some <$> take (Queue.pops cs) (ds ++ pushed cs) ∧
  (Queue.pops cs ≤ length ds + Queue.pushes cs)%nat.
Proof.
  revert ds rs q'. induction cs as [|c cs IH]; intros ds rs q' H.
  - cbn in H. simplify_eq. cbn. rewrite app_nil_r, drop_0. split_and!; auto. lia.
  - destruct c as [v|].
    + cbn [Queue.calls] in H. cbn [Queue.Push Queue.is_canceled_ Queue.data_ fst snd] in H.
      destruct (Queue.calls cs (Queue.Mk (ds ++ [v]) false)) as [[rs0 q0]|] eqn:E;
        [|discriminate].
      simplify_eq. apply IH in E as (-> & Hpush & Hpop & Hle).
      assert (Hp : pushed (Queue.CPush v :: cs) = v :: pushed cs) by reflexivity.
      assert (Hn : Queue.pops (Queue.CPush v :: cs) = Queue.pops cs) by reflexivity.
      assert (Hm : Queue.pushes (Queue.CPush v :: cs) = S (Queue.pushes cs)) by reflexivity.
      rewrite Hp, Hn, Hm. rewrite <- app_assoc in *. simpl in *.
      split_and!; auto.
      * unfold Queue.push_replies in *. cbn. now rewrite Hpush.
      * rewrite length_app in Hle. simpl in Hle. lia.
    + cbn [Queue.calls] in H. destruct ds as [|d ds]; [discriminate|].
      rewrite Pop_open in H.
      destruct (Queue.calls cs (Queue.Mk ds false)) as [[rs0 q0]|] eqn:E;
        [|discriminate].
      simplify_eq. apply IH in E as (-> & Hpush & Hpop & Hle).
      assert (Hp : pushed (Queue.CPop :: cs) = pushed cs) by reflexivity.
      assert (Hn : Queue.pops (Queue.CPop :: cs) = S (Queue.pops cs)) by reflexivity.
      assert (Hm : Queue.pushes (Queue.CPop (A:=A) :: cs) = Queue.pushes cs) by reflexivity.
      rewrite Hp, Hn, Hm. simpl.
      split_and!; auto.
      * unfold Queue.pop_replies in *. cbn. now rewrite Hpop.
      * lia.
Qed.

Lemma calls_open_blocks {A} (cs : list (Queue.Call A)) (ds : list A) :
  Queue.calls cs (Queue.Mk ds false) = None ↔
  ∃ pre post, cs = pre ++ Queue.CPop :: post ∧
              (length ds + Queue.pushes pre ≤ Queue.pops pre)%nat.
Proof.
  revert ds. induction cs as [|c cs IH]; intros ds.
  - cbn. split; [done|]. intros (pre & post & H & _). by destruct pre.
  - destruct c as [v|].
    + cbn [Queue.calls]. cbn [Queue.Push Queue.is_canceled_ Queue.data_ fst snd].
      specialize (IH (ds ++ [v])).
      destruct (Queue.calls cs (Queue.Mk (ds ++ [v]) false)) as [[rs0 q0]|] eqn:E.
      * split; [done|]. intros (pre & post & H & Hle).
        destruct pre as [|c pre]; [discriminate|]. simpl in H. simplify_eq.
        assert (Some (rs0, q0) = None) as Hn; [|discriminate].
        apply IH. exists pre, post. split; auto.
        rewrite length_app. simpl. 
        change (Queue.pushes (Queue.CPush v :: pre)) with (S (Queue.pushes pre)) in Hle.
        change (Queue.pops (Queue.CPush v :: pre)) with (Queue.pops pre) in Hle. lia.
      * split; [|done]. intros _.
        destruct (proj1 IH eq_refl) as (pre & post & -> & Hle).
        exists (Queue.CPush v :: pre), post. split; auto.
        rewrite length_app in Hle. simpl in Hle.
        change (Queue.pushes (Queue.CPush v :: pre)) with (S (Queue.pushes pre)).
        change (Queue.pops (Queue.CPush v :: pre)) with (Queue.pops pre). lia.
    + cbn [Queue.calls]. destruct ds as [|d ds].
      * cbn. split; [|done]. intros _. exists [], cs. split; auto.
      * rewrite Pop_open. specialize (IH ds).
        destruct (Queue.calls cs (Queue.Mk ds false)) as [[rs0 q0]|] eqn:E.
        -- split; [done|]. intros (pre & post & H & Hle).
           destruct pre as [|c pre].
           { cbn in Hle. lia. }
           simpl in H. simplify_eq.
           assert (Some (rs0, q0) = None) as Hn; [|discriminate].
           apply IH. exists pre, post. split; auto.
           change (Queue.pushes (Queue.CPop (A:=A) :: pre)) with (Queue.pushes pre) in Hle.
           change (Queue.pops (Queue.CPop (A:=A) :: pre)) with (S (Queue.pops pre)) in Hle.
           simpl in Hle. lia.
        -- split; [|done]. intros _.
           destruct (proj1 IH eq_refl) as (pre & post & -> & Hle).
           exists (Queue.CPop :: pre), post. split; auto.
           change (Queue.pushes (Queue.CPop (A:=A) :: pre)) with (Queue.pushes pre).
           change (Queue.pops (Queue.CPop (A:=A) :: pre)) with (S (Queue.pops pre)).
           simpl. lia.
Qed.

(** X4.  The open queue is first in, first out.  Over any sequence of
    [Push] and [Pop] calls on a queue that is not cancelled and holds [ds]:
    when no [Pop] blocks, every [Push] returns [true], the [Pop] calls
    return, in order, the first elements of [ds] followed by the pushed
    values, and the queue is left with the rest; and a [Pop] blocks exactly
    when as many elements have been popped before it as the queue held and
    was given. *)
Theorem queue_fifo {A} (cs : list (Queue.Call A)) (ds : list A) :
  (∀ rs q',
     Queue.calls cs (Queue.Mk ds false) = Some (rs, q') →
     q' = Queue.Mk (drop (Queue.pops cs) (ds ++ pushed cs)) false ∧
     Queue.push_replies rs = replicate (Queue.pushes cs) true ∧
     Queue.pop_replies rs = Some <$> take (Queue.pops cs) (ds ++ pushed cs)) ∧
  (Queue.calls cs (Queue.Mk ds false) = None ↔
   ∃ pre post, cs = pre ++ Queue.CPop :: post ∧
               (length ds + Queue.pushes pre ≤ Queue.pops pre)%nat).
Proof.
  split.
  - intros rs q' H. destruct (calls_open cs ds rs q' H) as (? & ? & ? & _). auto.
  - apply calls_open_blocks.
Qed.

(** ** The body is run at most once *)

Section Once.
Context {T Exn : Type}.
Implicit Types (s : Store T Exn) (sys : Sys T Exn) (a : Action T Exn).

(** What a step of a thread does to the state of the task it is called on. *)
Lemma thread_step_state i env this p s s' p' x :
  s !! this = Some x →
  thread_step i env this p s = Some (s', p') →
  ∃ x', s' !! this = Some x' ∧ (∀ t, t ≠ this → s' !! t = s !! t) ∧
    match p with
    | TE_cas st =>
        (state_ (task_ x) = st ∧ state_ (task_ x') = Running ∧ p' = TE_run) ∨
        (state_ (task_ x') = state_ (task_ x) ∧ in_body p' = false ∧ past_body p' = false)
    | CA_cas st =>
        (state_ (task_ x) = st ∧ state_ (task_ x') = Canceled ∧ p' = Done) ∨
        (state_ (task_ x') = state_ (task_ x) ∧ in_body p' = false ∧ past_body p' = false)
    | TE_run => state_ (task_ x') = state_ (task_ x) ∧ past_body p' = true
    | TE_set_failed _ => state_ (task_ x') = Failed ∧ in_body p' = false ∧ past_body p' = false
    | TE_set_completed => state_ (task_ x') = Completed ∧ in_body p' = false ∧ past_body p' = false
    | _ => state_ (task_ x') = state_ (task_ x) ∧ in_body p' = false ∧ past_body p' = false
    end.
Proof.
  intros Hx Hstep. unfold thread_step in Hstep. rewrite Hx in Hstep.
  assert (Hne : ∀ (f : Future T Exn → Future T Exn) t, t ≠ this →
            update f this s !! t = s !! t).
  { intros f t Ht. apply lookup_update_ne. done. }
  destruct p; simpl in Hstep;
    repeat (match type of Hstep with
            | context [match ?b with _ => _ end] => destruct b eqn:?
            end; simpl in Hstep); simplify_eq;
    try (eexists; split; [rewrite lookup_update_eq, Hx; reflexivity|];
         split; [auto|]; simpl; auto; fail);
    try (exists x; split; [done|]; split; [auto|]; simpl; auto; fail).
  - eexists; split; [rewrite lookup_update_eq, Hx; reflexivity|].
    split; [auto|]. left. simpl. split_and!; auto.
    apply andb_true_iff in Heqb as [Hb _]. by apply bool_decide_eq_true in Hb.
  - eexists; split; [rewrite lookup_update_eq, Hx; reflexivity|].
    split; [auto|]. left. simpl. split_and!; auto.
    apply andb_true_iff in Heqb as [Hb _]. by apply bool_decide_eq_true in Hb.
Qed.

Lemma body_pc_inv i (p : Pc Exn) (x : Task T Exn) :
  in_body p = true ∨ past_body p = true → pc_inv i p x →
  mutex_ x = Some i ∧ state_ x = Running.
Proof. destruct p; simpl; intros [?|?]; try done. Qed.

Lemma once_inv_ext t sys s' n :
  once_inv t sys n →
  (∀ x, store sys !! t = Some x →
        ∃ x', s' !! t = Some x' ∧ state_ (task_ x') = state_ (task_ x)) →
  (store sys !! t = None → s' !! t = None ∨
     ∃ x', s' !! t = Some x' ∧ state_ (task_ x') = Pending) →
  once_inv t (MkSys s' (threads sys)) n.
Proof.
  unfold once_inv. simpl. intros Hn Hsome Hnone.
  destruct (store sys !! t) as [x|] eqn:Hx.
  - destruct (Hsome x eq_refl) as (x' & -> & ->). done.
  - destruct (Hnone eq_refl) as [->|(x' & -> & ->)]; done.
Qed.

Lemma once_inv_spawn t sys th n :
  once_inv t sys n → once_inv t (MkSys (store sys) (threads sys ++ [th])) n.
Proof.
  unfold once_inv. simpl. destruct (store sys !! t) as [x|]; [|done].
  destruct (state_ (task_ x)); try done.
  intros (i & thi & Hi & Hrest). exists i. exists thi. split; [|done].
  now apply lookup_app_l_Some.
Qed.

Lemma locked_write_state (f : Future T Exn → Future T Exn) this s s' t :
  locked_write f this s = Some s' →
  (∀ x, state_ (task_ (f x)) = state_ (task_ x)) →
  (∀ x, s !! t = Some x → ∃ x', s' !! t = Some x' ∧ state_ (task_ x') = state_ (task_ x)) ∧
  (s !! t = None → s' !! t = None).
Proof.
  unfold locked_write. intros Hw Hf.
  destruct (s !! this) as [x|] eqn:Hx; [|discriminate].
  destruct (mutex_ (task_ x)); simplify_eq.
  destruct (decide (t = this)) as [->|Hne].
  - split.
    + intros y Hy. simplify_eq. rewrite lookup_update_eq, Hx. simpl. eauto.
    + intros Hn. congruence.
  - rewrite lookup_update_ne by done. split; eauto.
Qed.

Lemma once_step t a sys sys' n :
  invariant sys → once_inv t sys n → step a sys = Some sys' →
  once_inv t sys' (n + (if runs_body t a sys then 1 else 0)).
Proof.
  intros Hinv Hn Hstep.
  destruct a as [init fn now|this dep|this dep|this at_|this|this|i env]; simpl in Hstep;
    cbn [runs_body]; rewrite ?Nat.add_0_r.
  - simplify_eq. apply once_inv_ext; [done| |].
    + intros x Hx. exists x. split; [now apply lookup_app_l_Some|done].
    + intros Hnone. simpl.
      destruct (decide (t = length (store sys))) as [->|Hne].
      * right. eexists. split; [apply list_lookup_middle; done|done].
      * left. apply lookup_ge_None. apply lookup_ge_None in Hnone.
        rewrite length_app. simpl. lia.
  - destruct (locked_write _ _ _) as [s'|] eqn:Hw; simpl in Hstep; simplify_eq.
    destruct (locked_write_state _ _ _ _ t Hw) as [H1 H2]; [done|].
    apply once_inv_ext; auto.
  - destruct (locked_write _ _ _) as [s'|] eqn:Hw; simpl in Hstep; simplify_eq.
    destruct (locked_write_state _ _ _ _ t Hw) as [H1 H2]; [done|].
    apply once_inv_ext; auto.
  - destruct (locked_write _ _ _) as [s'|] eqn:Hw; simpl in Hstep; simplify_eq.
    destruct (locked_write_state _ _ _ _ t Hw) as [H1 H2]; [done|].
    apply once_inv_ext; auto.
  - destruct (store sys !! this) as [x|] eqn:Hx; simpl in Hstep; simplify_eq.
    now apply once_inv_spawn.
  - destruct (store sys !! this) as [x|] eqn:Hx; simpl in Hstep; simplify_eq.
    now apply once_inv_spawn.
  - destruct (threads sys !! i) as [th|] eqn:Hth; simpl in Hstep; [|discriminate].
    destruct (thread_step _ _ _ _ _) as [[s' p']|] eqn:Hts; simpl in Hstep; simplify_eq.
    destruct Hinv as (Hvalid & Hpc & Htask).
    destruct (Hvalid i th Hth) as [x Hx].
    destruct (thread_step_state _ _ _ _ _ _ _ _ Hx Hts) as (x' & Hx' & Hother & Hcase).
    assert (Hi : (i < length (threads sys))%nat) by (eapply lookup_lt_Some; eauto).
    pose proof (Hpc _ _ _ Hth Hx) as Hpci.
    unfold once_inv in *. simpl.
    destruct (decide (callee th = t)) as [<-|Hne].
    + rewrite bool_decide_eq_true_2 by done. simpl.
      rewrite Hx in Hn. rewrite Hx'.
      (* the thread that the invariant names, when the task is Running, is [i] *)
      assert (Hsame : ∀ j thj, threads sys !! j = Some thj → callee thj = callee th →
                in_body (pc thj) = true ∨ past_body (pc thj) = true →
                in_body (pc th) = true ∨ past_body (pc th) = true → j = i).
      { intros j thj Hj Hc Hbj Hbi.
        pose proof (Hpc j thj x Hj) as Hpcj. rewrite Hc in Hpcj. specialize (Hpcj Hx).
        destruct (body_pc_inv _ _ _ Hbj Hpcj) as [Hmj _].
        destruct (body_pc_inv _ _ _ Hbi Hpci) as [Hmi _]. congruence. }
      assert (Hkeep : state_ (task_ x') = state_ (task_ x) →
                in_body (pc th) = false → past_body (pc th) = false →
                match state_ (task_ x') with
                | Pending | Canceled => (n + 0)%nat = 0%nat
                | Running =>
                    ∃ j thj, <[i:=MkThread (callee th) p']> (threads sys) !! j = Some thj ∧
                      callee thj = callee th ∧
                      ((in_body (pc thj) = true ∧ (n + 0)%nat = 0%nat) ∨
                       (past_body (pc thj) = true ∧ (n + 0)%nat = 1%nat))
                | _ => (n + 0)%nat = 1%nat
                end).
      { intros -> Hib Hpb. rewrite Nat.add_0_r.
        destruct (state_ (task_ x)); try done.
        destruct Hn as (j & thj & Hj & Hc & Hb). exists j. exists thj.
        split; [|done]. rewrite list_lookup_insert_ne; [done|].
        intros ->. simplify_eq. destruct Hb as [[? _]|[? _]]; congruence. }
      destruct (pc th) eqn:Hp; simpl in *;
        try (destruct Hcase as (Hst & _ & _); apply Hkeep; auto; fail).
      * (* TE_cas *)
        destruct Hpci as (_ & _ & ->).
        destruct Hcase as [(Hst & -> & ->)|(Hst & _ & _)]; [|apply Hkeep; auto].
        rewrite Hst in Hn. subst n.
        exists i. exists (MkThread (callee th) TE_run).
        rewrite list_lookup_insert_eq by done. simpl. auto.
      * (* TE_run *)
        destruct Hcase as [Hst Hpast]. destruct Hpci as [_ Hrun].
        rewrite Hst, Hrun. rewrite Hrun in Hn.
        destruct Hn as (j & thj & Hj & Hc & Hb).
        assert (j = i) as ->.
        { eapply Hsame; eauto. destruct Hb as [[? _]|[? _]]; auto. }
        assert (thj = th) as -> by congruence. rewrite Hp in Hb. simpl in Hb.
        destruct Hb as [[_ ->]|[? _]]; [|discriminate].
        exists i. exists (MkThread (callee th) p').
        rewrite list_lookup_insert_eq by done. simpl. auto.
      * (* TE_set_failed *)
        destruct Hcase as (-> & _ & _). destruct Hpci as [_ Hrun]. rewrite Hrun in Hn.
        destruct Hn as (j & thj & Hj & Hc & Hb).
        assert (j = i) as ->.
        { eapply Hsame; eauto. destruct Hb as [[? _]|[? _]]; auto. }
        assert (thj = th) as -> by congruence. rewrite Hp in Hb. simpl in Hb.
        destruct Hb as [[? _]|[_ ->]]; [discriminate|]. done.
      * (* TE_set_completed *)
        destruct Hcase as (-> & _ & _). destruct Hpci as [_ Hrun]. rewrite Hrun in Hn.
        destruct Hn as (j & thj & Hj & Hc & Hb).
        assert (j = i) as ->.
        { eapply Hsame; eauto. destruct Hb as [[? _]|[? _]]; auto. }
        assert (thj = th) as -> by congruence. rewrite Hp in Hb. simpl in Hb.
        destruct Hb as [[? _]|[_ ->]]; [discriminate|]. done.
      * (* CA_cas *)
        rewrite Hpci in Hcase.
        destruct Hcase as [(Hst & -> & ->)|(Hst & _ & _)]; [|apply Hkeep; auto].
        rewrite Hst in Hn. subst n. done.
    + rewrite bool_decide_eq_false_2 by done. simpl. rewrite Nat.add_0_r.
      rewrite Hother by done.
      destruct (store sys !! t) as [y|]; [|done].
      destruct (state_ (task_ y)); try done.
      destruct Hn as (j & thj & Hj & Hc & Hb). exists j. exists thj.
      split; [|done]. rewrite list_lookup_insert_ne; [done|].
      intros ->. simplify_eq.
Qed.

Lemma once_run t acts sys sys' n :
  invariant sys → once_inv t sys n → run acts sys = Some sys' →
  once_inv t sys' (n + body_runs t acts sys).
Proof.
  revert sys n. induction acts as [|a acts IH]; intros sys n Hinv Hn Hrun.
  - cbn in Hrun. simplify_eq. cbn. now rewrite Nat.add_0_r.
  - cbn [run] in Hrun. cbn [body_runs].
    destruct (step a sys) as [sys1|] eqn:Hstep; [|discriminate].
    simpl in Hrun. rewrite Nat.add_assoc.
    eapply IH; [| |exact Hrun].
    + eapply step_sound; eauto.
    + eapply once_step; eauto.
Qed.

(** X6.  Over any run of the machine from the start the body of a task is run
    at most once: not at all when the task ends [Pending] or [Canceled],
    once when it ends [Completed] or [Failed]. *)
Theorem body_runs_once acts sys t :
  run acts initial = Some sys →
  (body_runs t acts (initial (T := T) (Exn := Exn)) ≤ 1)%nat ∧
  ∀ x, store sys !! t = Some x →
    (state_ (task_ x) = Pending ∨ state_ (task_ x) = Canceled →
     body_runs t acts initial = 0%nat) ∧
    (state_ (task_ x) = Completed ∨ state_ (task_ x) = Failed →
     body_runs t acts initial = 1%nat).
Proof.
  intros Hrun.
  assert (H0 : once_inv t (initial (T := T) (Exn := Exn)) 0).
  { unfold once_inv. simpl. done. }
  pose proof (once_run t acts _ _ 0%nat invariant_initial H0 Hrun) as Hn.
  simpl in Hn. unfold once_inv in Hn. split.
  - destruct (store sys !! t) as [x|]; [|lia].
    destruct (state_ (task_ x)); try lia.
    destruct Hn as (_ & _ & _ & _ & [[_ ->]|[_ ->]]); lia.
  - intros x Hx. rewrite Hx in Hn.
    split; intros [Hs|Hs]; rewrite Hs in Hn; done.
Qed.
End Once.

(** ** Where results and exceptions come from *)

Section Provenance.
Context {T Exn : Type}.
Implicit Types (s : Store T Exn) (sys : Sys T Exn) (a : Action T Exn).

(** What a step of a thread does to the data of the task it is called on. *)
Lemma thread_step_data i env this p s s' p' x :
  s !! this = Some x →
  thread_step i env this p s = Some (s', p') →
  ∃ x', s' !! this = Some x' ∧ (∀ t, t ≠ this → s' !! t = s !! t) ∧
    fn_ x' = fn_ x ∧
    match p with
    | TE_run =>
        exception_ (task_ x') = exception_ (task_ x) ∧
        state_ (task_ x') = state_ (task_ x) ∧ carries p' x'
    | TE_set_failed e =>
        result_ (task_ x') = result_ (task_ x) ∧
        exception_ (task_ x') = exception_ (task_ x) ∧
        state_ (task_ x') = Failed ∧ p' = TE_set_exception e
    | TE_set_exception e =>
        result_ (task_ x') = result_ (task_ x) ∧
        exception_ (task_ x') = Some e ∧
        state_ (task_ x') = state_ (task_ x) ∧ carries p' x'
    | TE_set_completed =>
        result_ (task_ x') = result_ (task_ x) ∧
        exception_ (task_ x') = exception_ (task_ x) ∧
        state_ (task_ x') = Completed ∧ carries p' x'
    | _ =>
        result_ (task_ x') = result_ (task_ x) ∧
        exception_ (task_ x') = exception_ (task_ x) ∧
        (state_ (task_ x') = Completed → state_ (task_ x) = Completed) ∧
        carries p' x'
    end.
Proof.
  intros Hx Hstep. unfold thread_step in Hstep. rewrite Hx in Hstep.
  assert (Hne : ∀ (f : Future T Exn → Future T Exn) t, t ≠ this →
            update f this s !! t = s !! t).
  { intros f t Ht. apply lookup_update_ne. done. }
  destruct p; simpl in Hstep;
    repeat (match type of Hstep with
            | context [match ?b with _ => _ end] => destruct b eqn:?
            end; simpl in Hstep); simplify_eq;
    try (eexists; split; [rewrite lookup_update_eq, Hx; reflexivity|];
         split; [auto|]; simpl; split_and!; auto; done);
    try (exists x; split; [done|]; split; [auto|]; simpl; split_and!; auto; done).
  - (* the body returns *)
    eexists; split; [rewrite lookup_update_eq, Hx; reflexivity|].
    split; [auto|]. simpl. split_and!; auto. eexists. simpl. eassumption.
  - (* the body throws *)
    exists x. split; [done|]. split; [auto|]. simpl. split_and!; auto.
    eexists. eassumption.
Qed.

Lemma returned_by_fn_ext (x x' : Future T Exn) :
  fn_ x' = fn_ x → result_ (task_ x') = result_ (task_ x) →
  returned_by_fn x → returned_by_fn x'.
Proof. unfold returned_by_fn. intros -> ->. done. Qed.

Lemma raised_by_fn_ext (x x' : Future T Exn) e :
  fn_ x' = fn_ x → raised_by_fn x e → raised_by_fn x' e.
Proof. unfold raised_by_fn. intros ->. done. Qed.

Lemma carries_ext p (x x' : Future T Exn) :
  fn_ x' = fn_ x → result_ (task_ x') = result_ (task_ x) →
  carries p x → carries p x'.
Proof.
  intros Hf Hr. destruct p; simpl; auto.
  - now apply raised_by_fn_ext.
  - now apply raised_by_fn_ext.
  - now apply returned_by_fn_ext.
Qed.

Lemma provenance_ext sys s' :
  provenance sys →
  (∀ t x', s' !! t = Some x' →
     ∃ x, store sys !! t = Some x ∧ fn_ x' = fn_ x ∧
       state_ (task_ x') = state_ (task_ x) ∧
       exception_ (task_ x') = exception_ (task_ x) ∧
       result_ (task_ x') = result_ (task_ x)) →
  provenance (MkSys s' (threads sys)).
Proof.
  intros Hp Hs t x' Hx'. simpl in *.
  destruct (Hs t x' Hx') as (x & Hx & Hf & Hst & He & Hr).
  destruct (Hp t x Hx) as (H1 & H2 & H3).
  split_and!.
  - rewrite Hst. intros H. eapply returned_by_fn_ext; eauto.
  - rewrite He. intros e H. eapply raised_by_fn_ext; eauto.
  - intros i th Hth Hc. eapply carries_ext; eauto.
Qed.

Lemma locked_write_data (f : Future T Exn → Future T Exn) this s s' :
  locked_write f this s = Some s' →
  (∀ x, fn_ (f x) = fn_ x ∧ state_ (task_ (f x)) = state_ (task_ x) ∧
        exception_ (task_ (f x)) = exception_ (task_ x) ∧
        result_ (task_ (f x)) = result_ (task_ x)) →
  ∀ t x', s' !! t = Some x' →
    ∃ x, s !! t = Some x ∧ fn_ x' = fn_ x ∧
      state_ (task_ x') = state_ (task_ x) ∧
      exception_ (task_ x') = exception_ (task_ x) ∧
      result_ (task_ x') = result_ (task_ x).
Proof.
  unfold locked_write. intros Hw Hf t x' Hx'.
  destruct (s !! this) as [x|] eqn:Hx; [|discriminate].
  destruct (mutex_ (task_ x)); simplify_eq.
  destruct (decide (t = this)) as [->|Hne].
  - rewrite lookup_update_eq, Hx in Hx'. simpl in Hx'. simplify_eq.
    exists x. split; [done|]. apply Hf.
  - rewrite lookup_update_ne in Hx' by done. eauto 10.
Qed.

Lemma provenance_spawn sys th :
  carries (T := T) (pc th) = (λ _, True) →
  provenance sys → provenance (MkSys (store sys) (threads sys ++ [th])).
Proof.
  intros Hth Hp t x Hx. simpl in *. destruct (Hp t x Hx) as (H1 & H2 & H3).
  split_and!; auto. intros i thi Hi Hc.
  apply lookup_app_Some in Hi as [Hi|[_ Hi]]; [eauto|].
  apply list_lookup_singleton_Some in Hi as [_ <-]. now rewrite Hth.
Qed.

Lemma delivers_pc_inv i (p : Pc Exn) (x : Task T Exn) :
  match p with
  | TE_run | TE_set_completed | TE_set_failed _ | TE_set_exception _ => True
  | _ => False
  end →
  pc_inv i p x → mutex_ x = Some i ∧ state_ x ≠ Completed.
Proof.
  destruct p; simpl; try done; intros _ H; (split; [apply H|]); intros Hc;
    destruct H as (_ & H); first [congruence | destruct H as [H _]; congruence].
Qed.

Lemma provenance_step a sys sys' :
  invariant sys → provenance sys → step a sys = Some sys' → provenance sys'.
Proof.
  intros Hinv Hprov Hstep.
  destruct a as [init fn now|this dep|this dep|this at_|this|this|i env]; simpl in Hstep.
  - simplify_eq. intros t x' Hx'. simpl in *.
    apply lookup_app_Some in Hx' as [Hx'|[Hlen Hx']]; [eauto|].
    apply list_lookup_singleton_Some in Hx' as [Ht <-]. simpl.
    split_and!; try done.
    intros i th Hth Hc. destruct Hinv as (Hvalid & _).
    destruct (Hvalid i th Hth) as [y Hy]. apply lookup_lt_Some in Hy. lia.
  - destruct (locked_write _ _ _) as [s'|] eqn:Hw; simpl in Hstep; simplify_eq.
    apply provenance_ext; [done|]. eapply locked_write_data; eauto.
  - destruct (locked_write _ _ _) as [s'|] eqn:Hw; simpl in Hstep; simplify_eq.
    apply provenance_ext; [done|]. eapply locked_write_data; eauto.
  - destruct (locked_write _ _ _) as [s'|] eqn:Hw; simpl in Hstep; simplify_eq.
    apply provenance_ext; [done|]. eapply locked_write_data; eauto.
  - destruct (store sys !! this) as [x|] eqn:Hx; simpl in Hstep; simplify_eq.
    now apply provenance_spawn.
  - destruct (store sys !! this) as [x|] eqn:Hx; simpl in Hstep; simplify_eq.
    now apply provenance_spawn.
  - destruct (threads sys !! i) as [th|] eqn:Hth; simpl in Hstep; [|discriminate].
    destruct (thread_step _ _ _ _ _) as [[s' p']|] eqn:Hts; simpl in Hstep; simplify_eq.
    destruct Hinv as (Hvalid & Hpc & Htask).
    destruct (Hvalid i th Hth) as [x Hx].
    destruct (thread_step_data _ _ _ _ _ _ _ _ Hx Hts) as (x' & Hx' & Hother & Hfn & Hcase).
    assert (Hi : (i < length (threads sys))%nat) by (eapply lookup_lt_Some; eauto).
    pose proof (Hpc _ _ _ Hth Hx) as Hpci.
    destruct (Hprov _ _ Hx) as (Hcompl & Hexn & Hthreads).
    pose proof (Hthreads _ _ Hth eq_refl) as Hcarry.
    intros t y Hy. simpl in *.
    destruct (decide (t = callee th)) as [->|Hne].
    + rewrite Hx' in Hy. simplify_eq.
      (* another thread on the task, while this one writes under the lock *)
      assert (Hothers : ∀ j thj, j ≠ i → threads sys !! j = Some thj →
                callee thj = callee th →
                result_ (task_ y) = result_ (task_ x) ∨ mutex_ (task_ x) = Some i →
                carries (pc thj) y).
      { intros j thj Hji Hj Hc Hres.
        pose proof (Hthreads _ _ Hj Hc) as Hcj.
        pose proof (Hpc j thj x Hj) as Hpcj. rewrite Hc in Hpcj. specialize (Hpcj Hx).
        destruct Hres as [Hres|Hm]; [eapply carries_ext; eauto|].
        destruct (pc thj) eqn:Hpj; simpl; try done;
          destruct (delivers_pc_inv j (pc thj) (task_ x)) as [Hmj _];
          rewrite ?Hpj; simpl; try done; congruence. }
      assert (Hthr : (result_ (task_ y) = result_ (task_ x) ∨ mutex_ (task_ x) = Some i) →
                carries p' y →
                ∀ j thj, <[i:=MkThread (callee th) p']> (threads sys) !! j = Some thj →
                  callee thj = callee th → carries (pc thj) y).
      { intros Hres Hnew j thj Hj Hc.
        destruct (decide (j = i)) as [->|Hji].
        - rewrite list_lookup_insert_eq in Hj by done. simplify_eq. done.
        - rewrite list_lookup_insert_ne in Hj by done. eauto. }
      destruct (pc th) eqn:Hp; simpl in Hcase;
        try (destruct Hcase as (Hr & He & Hst & Hc);
             split_and!;
             [ intros Hcp; eapply returned_by_fn_ext; eauto
             | rewrite He; intros e Hee; eapply raised_by_fn_ext; eauto
             | apply Hthr; auto ]; fail).
      * (* TE_run *)
        destruct Hcase as (He & Hst & Hc). simpl in Hpci. destruct Hpci as [Hm Hrun].
        split_and!.
        -- rewrite Hst, Hrun. discriminate.
        -- rewrite He. intros e Hee. eapply raised_by_fn_ext; eauto.
        -- apply Hthr; auto.
      * (* TE_set_failed *)
        destruct Hcase as (Hr & He & Hst & ->).
        split_and!.
        -- rewrite Hst. discriminate.
        -- rewrite He. intros e' Hee. eapply raised_by_fn_ext; eauto.
        -- apply Hthr; auto. simpl. eapply raised_by_fn_ext; eauto.
      * (* TE_set_exception *)
        destruct Hcase as (Hr & He & Hst & Hc).
        split_and!.
        -- rewrite Hst. intros Hcp. eapply returned_by_fn_ext; eauto.
        -- rewrite He. intros e' Hee. simplify_eq. eapply raised_by_fn_ext; eauto.
        -- apply Hthr; auto.
    + rewrite Hother in Hy by done.
      destruct (Hprov _ _ Hy) as (H1 & H2 & H3). split_and!; auto.
      intros j thj Hj Hc.
      destruct (decide (j = i)) as [->|Hji].
      * rewrite list_lookup_insert_eq in Hj by done. simplify_eq.
      * rewrite list_lookup_insert_ne in Hj by done. eauto.
Qed.

Lemma provenance_run acts sys sys' :
  invariant sys → provenance sys → run acts sys = Some sys' → provenance sys'.
Proof.
  revert sys. induction acts as [|a acts IH]; intros sys Hinv Hp Hrun.
  - cbn in Hrun. by simplify_eq.
  - cbn [run] in Hrun. destruct (step a sys) as [sys1|] eqn:Hstep; [|discriminate].
    simpl in Hrun. eapply IH; [| |exact Hrun].
    + eapply step_sound; eauto.
    + eapply provenance_step; eauto.
Qed.

(** X7.  In every system the machine can reach, the result a [Completed]
    future holds is a value its function returned, and then [Get] returns
    it; the exception a task holds is one its function threw. *)
Theorem results_come_from_the_body sys t x :
  reachable sys → store sys !! t = Some x →
  (state_ (task_ x) = Completed →
   (∃ h, fn_ x h = Returned (result_ (task_ x))) ∧
   Get (task_ x) = Returned (result_ (task_ x))) ∧
  (∀ e, GetError (task_ x) = Some e → ∃ h, fn_ x h = Raised e).
Proof.
  intros Hreach Hx.
  assert (Hp : provenance sys).
  { destruct Hreach as [acts Hrun].
    eapply provenance_run; [apply invariant_initial| |exact Hrun].
    intros t' x' Hx'. simpl in Hx'. rewrite lookup_nil in Hx'. discriminate. }
  destruct (Hp t x Hx) as (H1 & H2 & _). split.
  - intros Hc. split; [now apply H1|].
    unfold Get, Wait, IsFinished, IsFailed. rewrite Hc. done.
  - exact H2.
Qed.
End Provenance.

(** ** A finished task is final *)

Section Final.
Context {T Exn : Type}.
Implicit Types (s : Store T Exn) (sys : Sys T Exn) (a : Action T Exn).

Lemma finished_step a sys sys' t x :
  invariant sys → step a sys = Some sys' →
  store sys !! t = Some x →
  IsFinished (task_ x) = true → settled (task_ x) →
  ∃ x', store sys' !! t = Some x' ∧
    state_ (task_ x') = state_ (task_ x) ∧
    result_ (task_ x') = result_ (task_ x) ∧
    exception_ (task_ x') = exception_ (task_ x).
Proof.
  intros Hinv Hstep Hx Hfin Hset.
  destruct (step_sound a sys sys' Hinv Hstep) as [Hinv' Hts].
  destruct (Hts t x Hx) as (x' & Hx' & Htr & _ & Hexn).
  assert (Hst : state_ (task_ x') = state_ (task_ x)).
  { destruct Htr as [?|Htr]; [done|]. unfold IsFinished in Hfin.
    inversion Htr as [H1 H2|H1 H2|H1 H2|H1 H2]; rewrite <- H1 in Hfin; done. }
  assert (Hex : exception_ (task_ x') = exception_ (task_ x)).
  { destruct (exception_ (task_ x)) as [e|] eqn:He; [auto|].
    destruct (exception_ (task_ x')) as [e'|] eqn:He'; [|done].
    destruct Hinv' as (_ & _ & Htask').
    destruct (Htask' t x' Hx') as [Hfailed _].
    rewrite He' in Hfailed. specialize (Hfailed (mk_is_Some _ _ eq_refl)).
    rewrite Hst in Hfailed. destruct (Hset Hfailed) as [? ?]. congruence. }
  exists x'. split_and!; try done.
  destruct a as [init fn now|this dep|this dep|this at_|this|this|i env]; simpl in Hstep.
  - simplify_eq. simpl in Hx'.
    rewrite (lookup_app_l_Some _ _ _ _ Hx) in Hx'. by simplify_eq.
  - destruct (locked_write _ _ _) as [s'|] eqn:Hw; simpl in Hstep; simplify_eq.
    destruct (locked_write_data _ _ _ _ Hw) with (t := t) (x' := x')
      as (y & Hy & _ & _ & _ & Hr); [done|done|]. simpl in *. congruence.
  - destruct (locked_write _ _ _) as [s'|] eqn:Hw; simpl in Hstep; simplify_eq.
    destruct (locked_write_data _ _ _ _ Hw) with (t := t) (x' := x')
      as (y & Hy & _ & _ & _ & Hr); [done|done|]. simpl in *. congruence.
  - destruct (locked_write _ _ _) as [s'|] eqn:Hw; simpl in Hstep; simplify_eq.
    destruct (locked_write_data _ _ _ _ Hw) with (t := t) (x' := x')
      as (y & Hy & _ & _ & _ & Hr); [done|done|]. simpl in *. congruence.
  - destruct (store sys !! this) as [y|] eqn:Hy; simpl in Hstep; simplify_eq.
    simpl in *. congruence.
  - destruct (store sys !! this) as [y|] eqn:Hy; simpl in Hstep; simplify_eq.
    simpl in *. congruence.
  - destruct (threads sys !! i) as [th|] eqn:Hth; simpl in Hstep; [|discriminate].
    destruct (thread_step _ _ _ _ _) as [[s' p']|] eqn:Hstp; simpl in Hstep; simplify_eq.
    destruct Hinv as (Hvalid & Hpc & Htask). simpl in *.
    destruct (Hvalid i th Hth) as [y Hy].
    destruct (thread_step_data _ _ _ _ _ _ _ _ Hy Hstp) as (y' & Hy' & Hother & _ & Hcase).
    destruct (decide (t = callee th)) as [->|Hne].
    + pose proof (Hpc _ _ _ Hth Hy) as Hpci. simplify_eq.
      destruct (pc th) eqn:Hp; simpl in Hcase, Hpci; try apply Hcase.
      destruct Hpci as [_ Hrun]. unfold IsFinished in Hfin. rewrite Hrun in Hfin. done.
    + rewrite Hother in Hx' by done. congruence.
Qed.

(** X8.  A finished task is final.  In every system the machine can reach,
    a task that is finished, and holds its exception if it has failed,
    keeps its state, its result and its exception over every run: [Get]
    returns or throws the same from then on. *)
Theorem finished_is_final sys t x acts sys' :
  reachable sys → store sys !! t = Some x →
  IsFinished (task_ x) = true →
  (state_ (task_ x) = Failed → is_Some (GetError (task_ x))) →
  run acts sys = Some sys' →
  ∃ x', store sys' !! t = Some x' ∧
    state_ (task_ x') = state_ (task_ x) ∧
    result_ (task_ x') = result_ (task_ x) ∧
    GetError (task_ x') = GetError (task_ x) ∧
    Get (task_ x') = Get (task_ x).
Proof.
  intros Hreach. pose proof (reachable_invariant _ Hreach) as Hinv. clear Hreach.
  revert sys x Hinv. induction acts as [|a acts IH]; intros sys x Hinv Hx Hfin Hset Hrun.
  - cbn in Hrun. simplify_eq. exists x. done.
  - cbn [run] in Hrun. destruct (step a sys) as [sys1|] eqn:Hstep; [|discriminate].
    simpl in Hrun.
    destruct (finished_step a sys sys1 t x Hinv Hstep Hx Hfin Hset)
      as (x1 & Hx1 & Hst & Hr & He).
    destruct (IH sys1 x1) as (x' & Hx' & Hst' & Hr' & He' & Hg'); auto.
    + eapply step_sound; eauto.
    + unfold IsFinished in *. now rewrite Hst.
    + unfold GetError. rewrite Hst, He. done.
    + exists x'. unfold GetError in *. split_and!; try congruence.
      rewrite Hg'. unfold Get, Wait, IsFinished, IsFailed, GetError.
      now rewrite Hst, Hr, He.
Qed.
End Final.

(** ** [Cancel] does not wait *)

Section CancelProgress.
Context {T Exn : Type}.
Implicit Types (s : Store T Exn) (sys : Sys T Exn) (a : Action T Exn).

Lemma Cancel_rank_task_step (p : Pc Exn) (z z' : Task T Exn) :
  task_step z z' → (Cancel_rank p z' ≤ Cancel_rank p z)%nat.
Proof.
  intros ([Hst|Htr] & _); destruct p; simpl; try lia.
  - rewrite Hst. lia.
  - destruct (bool_decide_reflect (state_ z = Pending)) as [Hp|Hp];
      destruct (bool_decide_reflect (state_ z' = Pending)) as [Hp'|Hp']; try lia.
    rewrite Hp' in Htr. inversion Htr.
Qed.

Lemma Cancel_rank_step i th x a sys sys' :
  invariant sys →
  threads sys !! i = Some th → in_Cancel (pc th) = true →
  store sys !! callee th = Some x →
  spurious_for i a = false →
  step a sys = Some sys' →
  ∃ th' x', threads sys' !! i = Some th' ∧ callee th' = callee th ∧
    in_Cancel (pc th') = true ∧ store sys' !! callee th = Some x' ∧
    ((if step_of i a then 1 else 0) + Cancel_rank (pc th') (task_ x')
     ≤ Cancel_rank (pc th) (task_ x))%nat.
Proof.
  intros Hinv Hth Hin Hx Hsp Hstep.
  destruct (step_sound a sys sys' Hinv Hstep) as [Hinv' Hts].
  destruct (Hts _ _ Hx) as (x' & Hx' & Htask).
  pose proof (Cancel_rank_task_step (pc th) _ _ Htask) as Hrank.
  assert (Hkeep : threads sys' !! i = Some th → step_of i a = false →
            ∃ th' x', threads sys' !! i = Some th' ∧ callee th' = callee th ∧
              in_Cancel (pc th') = true ∧ store sys' !! callee th = Some x' ∧
              ((if step_of i a then 1 else 0) + Cancel_rank (pc th') (task_ x')
               ≤ Cancel_rank (pc th) (task_ x))%nat).
  { intros Hth' Hs. exists th. exists x'. rewrite Hs. split_and!; auto. }
  destruct a as [init fn now|this dep|this dep|this at_|this|this|k env];
    simpl in Hstep.
  - simplify_eq. apply Hkeep; done.
  - destruct (locked_write _ _ _) as [s'|]; simpl in Hstep; simplify_eq.
    apply Hkeep; done.
  - destruct (locked_write _ _ _) as [s'|]; simpl in Hstep; simplify_eq.
    apply Hkeep; done.
  - destruct (locked_write _ _ _) as [s'|]; simpl in Hstep; simplify_eq.
    apply Hkeep; done.
  - destruct (store sys !! this); simpl in Hstep; simplify_eq.
    apply Hkeep; [|done]. simpl. now apply lookup_app_l_Some.
  - destruct (store sys !! this); simpl in Hstep; simplify_eq.
    apply Hkeep; [|done]. simpl. now apply lookup_app_l_Some.
  - destruct (threads sys !! k) as [thk|] eqn:Hk; simpl in Hstep; [|discriminate].
    destruct (thread_step _ _ _ _ _) as [[s' p']|] eqn:Hstp; simpl in Hstep; simplify_eq.
    simpl in *.
    destruct (decide (k = i)) as [->|Hne].
    2:{ apply Hkeep; [|now apply bool_decide_eq_false_2].
        now rewrite list_lookup_insert_ne. }
    assert (thk = th) as -> by congruence.
    rewrite bool_decide_eq_true_2 in Hsp |- * by done. simpl in Hsp.
    assert (Hi : (i < length (threads sys))%nat) by (eapply lookup_lt_Some; eauto).
    exists (MkThread (callee th) p'). exists x'.
    rewrite list_lookup_insert_eq by done. split; [done|]. split; [done|]. simpl.
    destruct Hinv as (_ & Hpc & _). pose proof (Hpc _ _ _ Hth Hx) as Hpci.
    unfold thread_step in Hstp. rewrite Hx in Hstp.
    destruct (pc th) eqn:Hp; simpl in Hin; try discriminate; simpl in Hstp, Hpci |- *.
    + (* state_.load() *)
      destruct (bool_decide (state_ (task_ x) = Pending)); simpl in Hstp; simplify_eq;
        simpl; split_and!; auto; lia.
    + (* the compare-and-exchange *)
      subst state. rewrite Hsp in Hstp. rewrite andb_true_r in Hstp.
      destruct (bool_decide_reflect (state_ (task_ x) = Pending)) as [Hpe|Hpe];
        simplify_eq; simpl; split_and!; auto; try lia.
      rewrite bool_decide_eq_false_2 by done. lia.
    + (* the load inside the loop *)
      destruct (bool_decide_reflect (state_ (task_ x) = Pending)) as [Hpe|Hpe];
        simpl in Hstp; simplify_eq; simpl; split_and!; auto; lia.
Qed.

Lemma Cancel_rank_run i acts : ∀ th x sys sys',
  invariant sys →
  threads sys !! i = Some th → in_Cancel (pc th) = true →
  store sys !! callee th = Some x →
  Forall (λ a, spurious_for i a = false) acts →
  run acts sys = Some sys' →
  ∃ th' x', threads sys' !! i = Some th' ∧ callee th' = callee th ∧
    in_Cancel (pc th') = true ∧ store sys' !! callee th = Some x' ∧
    (steps_of i acts + Cancel_rank (pc th') (task_ x')
     ≤ Cancel_rank (pc th) (task_ x))%nat.
Proof.
  induction acts as [|a acts IH]; intros th x sys sys' Hinv Hth Hin Hx Hall Hrun.
  - cbn in Hrun. simplify_eq. exists th. exists x. split_and!; auto.
  - apply Forall_cons in Hall as [Ha Hall]. cbn [run] in Hrun.
    destruct (step a sys) as [sys1|] eqn:Hstep; [|discriminate]. simpl in Hrun.
    destruct (Cancel_rank_step i th x a sys sys1 Hinv Hth Hin Hx Ha Hstep)
      as (th1 & x1 & Hth1 & Hc1 & Hin1 & Hx1 & Hle1).
    rewrite <- Hc1 in Hx1.
    destruct (IH th1 x1 sys1 sys') as (th' & x' & Hth' & Hc' & Hin' & Hx' & Hle'); auto.
    { eapply step_sound; eauto. }
    exists th'. exists x'. rewrite Hc', Hc1 in *. split_and!; auto.
    unfold steps_of in *. simpl. destruct (step_of i a); simpl in *; lia.
Qed.

(** X9.  [Cancel] does not wait.  In every system the machine can reach, a
    thread inside [Cancel] can take its next step whatever the others do and
    whoever holds the mutex; and over any run in which its
    compare-and-exchange does not fail spuriously it takes at most three
    steps and stays in [Cancel], three steps bringing it to the exit. *)
Theorem Cancel_does_not_wait sys i th :
  reachable sys →
  threads sys !! i = Some th → in_Cancel (pc th) = true →
  (pc th ≠ Done → ∀ env, is_Some (step (Act_step i env) sys)) ∧
  (∀ acts sys',
     Forall (λ a, spurious_for i a = false) acts →
     run acts sys = Some sys' →
     ∃ th', threads sys' !! i = Some th' ∧ callee th' = callee th ∧
       in_Cancel (pc th') = true ∧
       (steps_of i acts ≤ 3)%nat ∧
       (steps_of i acts = 3%nat → pc th' = Done)).
Proof.
  intros Hreach Hth Hin. pose proof (reachable_invariant _ Hreach) as Hinv.
  destruct (proj1 Hinv i th Hth) as [x Hx]. split.
  - intros Hnd env. simpl. rewrite Hth. simpl.
    unfold thread_step. rewrite Hx.
    destruct (pc th); simpl in Hin; try discriminate; simpl.
    + destruct (negb _); simpl; eauto.
    + destruct (_ && _); simpl; eauto.
    + destruct (negb _); simpl; eauto.
    + done.
  - intros acts sys' Hall Hrun.
    destruct (Cancel_rank_run i acts th x sys sys' Hinv Hth Hin Hx Hall Hrun)
      as (th' & x' & Hth' & Hc' & Hin' & Hx' & Hle).
    exists th'. split_and!; auto.
    + assert (Cancel_rank (pc th) (task_ x) ≤ 3)%nat; [|lia].
      destruct (pc th); simpl; try lia. destruct (bool_decide _); lia.
    + intros H3.
      assert (Cancel_rank (pc th) (task_ x) ≤ 3)%nat.
      { destruct (pc th); simpl; try lia. destruct (bool_decide _); lia. }
      assert (Hz : Cancel_rank (pc th') (task_ x') = 0%nat) by lia.
      destruct (pc th'); simpl in Hin', Hz; try discriminate; try done.
      destruct (bool_decide _); discriminate.
Qed.
End CancelProgress.

(** ** Workers and [Invoke] *)

Section Workers.
Context {T Exn : Type}.
Implicit Types (s : Store T Exn) (w : Store T Exn * Executor) (x : Future T Exn).

Lemma TryExecute_body s now this x :
  s !! this = Some x →
  handles_valid (heap s) (task_ x) →
  gate_met (heap s) now (task_ x) →
  match fn_ x (body_heap this s) with
  | Returned v => ∃ s', TryExecute now this s = Returned (s', true) ∧ completed_with this v s s'
  | Raised e => ∃ s', TryExecute now this s = Returned (s', true) ∧ failed_with this e s s'
  | Blocked => TryExecute now this s = Blocked
  | Undefined => TryExecute now this s = Undefined
  end.
Proof.
  intros Hx Hv Hg. rewrite (TryExecute_gate_met s now this x Hx Hv Hg).
  unfold Run, body_heap.
  assert (H1 : update (set_state Running) this s !! this = Some (set_state Running x)).
  { now rewrite lookup_update_eq, Hx. }
  rewrite (deref_Some _ _ _ H1). simpl.
  destruct (fn_ x (heap (update (set_state Running) this s))) as [v|e| |]; simpl; try done.
  - eexists. split; [reflexivity|]. unfold completed_with. split_and!.
    + intros t Ht. now rewrite !lookup_update_ne by done.
    + now rewrite !length_update.
    + eexists. split; [rewrite !lookup_update_eq, Hx; reflexivity|]. simpl. done.
  - eexists. split; [reflexivity|]. unfold failed_with. split_and!.
    + intros t Ht. now rewrite !lookup_update_ne by done.
    + now rewrite !length_update.
    + eexists. split; [rewrite !lookup_update_eq, Hx; reflexivity|]. simpl. done.
Qed.

Lemma Pop_head {A} (a : A) rest c :
  Queue.Pop (Queue.Mk (a :: rest) c) = Some (Some a, Queue.Mk rest c).
Proof. destruct c; reflexivity. Qed.

Lemma worker_head now w task rest x :
  Queue.data_ (scheduler_ w.2) = Some task :: rest →
  w.1 !! task = Some x →
  worker now w =
    let q := Queue.Mk rest (Queue.is_canceled_ (scheduler_ w.2)) in
    if IsCanceled (task_ x) then Returned (w.1, MkExecutor q, true) else
    bind (TryExecute now task w.1) (λ r,
      bind (deref r.1 task) (λ x',
        if negb (IsFinished (task_ x'))
        then Returned (r.1, MkExecutor (Queue.Push (Some task) q).1, true)
        else Returned (r.1, MkExecutor q, true))).
Proof.
  intros Hq Hx. unfold worker. destruct w as [s [[ds c]]]. simpl in *. subst ds.
  rewrite Pop_head. rewrite (deref_Some _ _ _ Hx). simpl. reflexivity.
Qed.

(** A pass over a finished task. *)
Lemma worker_finished now w task rest x :
  Queue.data_ (scheduler_ w.2) = Some task :: rest →
  w.1 !! task = Some x →
  handles_valid (heap w.1) (task_ x) →
  IsFinished (task_ x) = true →
  worker now w =
    Returned (w.1, MkExecutor (Queue.Mk rest (Queue.is_canceled_ (scheduler_ w.2))), true).
Proof.
  intros Hq Hx Hv Hfin. rewrite (worker_head now w task rest x Hq Hx).
  cbv zeta. unfold IsCanceled.
  destruct (bool_decide_reflect (state_ (task_ x) = Canceled)); [done|].
  rewrite (TryExecute_gate_unmet w.1 now task x Hx Hv).
  2:{ intros (_ & _ & _ & Hp). unfold IsFinished in Hfin. rewrite Hp in Hfin. done. }
  simpl. rewrite (deref_Some _ _ _ Hx). simpl. now rewrite Hfin.
Qed.

(** A pass over a [Pending] task whose gate is not met. *)
Lemma worker_unready now w task rest x :
  Queue.data_ (scheduler_ w.2) = Some task :: rest →
  w.1 !! task = Some x →
  handles_valid (heap w.1) (task_ x) →
  state_ (task_ x) = Pending → ¬ gate_met (heap w.1) now (task_ x) →
  worker now w =
    Returned (w.1,
              MkExecutor (Queue.Mk (if Queue.is_canceled_ (scheduler_ w.2)
                                    then rest else rest ++ [Some task])
                                   (Queue.is_canceled_ (scheduler_ w.2))),
              true).
Proof.
  intros Hq Hx Hv Hp Hg. rewrite (worker_head now w task rest x Hq Hx).
  cbv zeta. unfold IsCanceled. rewrite Hp. simpl.
  rewrite (TryExecute_gate_unmet w.1 now task x Hx Hv Hg).
  simpl. rewrite (deref_Some _ _ _ Hx). simpl.
  unfold IsFinished. rewrite Hp. simpl. unfold Queue.Push. simpl.
  destruct (Queue.is_canceled_ (scheduler_ w.2)); reflexivity.
Qed.

(** A pass over a task whose gate is met. *)
Lemma worker_ready now w task rest x :
  Queue.data_ (scheduler_ w.2) = Some task :: rest →
  w.1 !! task = Some x →
  handles_valid (heap w.1) (task_ x) →
  gate_met (heap w.1) now (task_ x) →
  (∀ v, fn_ x (body_heap task w.1) = Returned v →
     ∃ s', worker now w =
             Returned (s', MkExecutor (Queue.Mk rest (Queue.is_canceled_ (scheduler_ w.2))),
                       true) ∧
           completed_with task v w.1 s') ∧
  (∀ e, fn_ x (body_heap task w.1) = Raised e →
     ∃ s', worker now w =
             Returned (s', MkExecutor (Queue.Mk rest (Queue.is_canceled_ (scheduler_ w.2))),
                       true) ∧
           failed_with task e w.1 s').
Proof.
  intros Hq Hx Hv Hg. rewrite (worker_head now w task rest x Hq Hx). cbv zeta.
  pose proof (TryExecute_body w.1 now task x Hx Hv Hg) as Hbody.
  assert (Hp : state_ (task_ x) = Pending) by apply Hg.
  unfold IsCanceled. rewrite Hp. simpl. split.
  - intros v Hfn. rewrite Hfn in Hbody. destruct Hbody as (s' & -> & Hc).
    exists s'. split; [|done]. simpl.
    destruct Hc as (_ & _ & x' & Hx' & Hst & _).
    rewrite (deref_Some _ _ _ Hx'). simpl. unfold IsFinished. now rewrite Hst.
  - intros e Hfn. rewrite Hfn in Hbody. destruct Hbody as (s' & -> & Hc).
    exists s'. split; [|done]. simpl.
    destruct Hc as (_ & _ & x' & Hx' & Hst & _).
    rewrite (deref_Some _ _ _ Hx'). simpl. unfold IsFinished. now rewrite Hst.
Qed.

(** X10.  One pass of a worker's loop over a queue whose first handle names
    the task [x].  A finished task (cancelled, completed or failed) is taken
    off the queue and not run.  A [Pending] task whose gate is not met is
    not run: it goes to the back of an open queue and is taken off a
    cancelled one.  A task whose gate is met is run and taken off the queue:
    it ends [Completed] with the value its function returns, or [Failed]
    with the exception the function throws. *)
Theorem worker_pass now w task rest x :
  Queue.data_ (scheduler_ w.2) = Some task :: rest →
  w.1 !! task = Some x →
  handles_valid (heap w.1) (task_ x) →
  let c := Queue.is_canceled_ (scheduler_ w.2) in
  (IsFinished (task_ x) = true →
   worker now w = Returned (w.1, MkExecutor (Queue.Mk rest c), true)) ∧
  (state_ (task_ x) = Pending → ¬ gate_met (heap w.1) now (task_ x) →
   worker now w =
     Returned (w.1, MkExecutor (Queue.Mk (if c then rest else rest ++ [Some task]) c), true)) ∧
  (gate_met (heap w.1) now (task_ x) →
   (∀ v, fn_ x (body_heap task w.1) = Returned v →
      ∃ s', worker now w = Returned (s', MkExecutor (Queue.Mk rest c), true) ∧
            completed_with task v w.1 s') ∧
   (∀ e, fn_ x (body_heap task w.1) = Raised e →
      ∃ s', worker now w = Returned (s', MkExecutor (Queue.Mk rest c), true) ∧
            failed_with task e w.1 s')).
Proof.
  intros Hq Hx Hv c. split_and!.
  - exact (worker_finished now w task rest x Hq Hx Hv).
  - exact (worker_unready now w task rest x Hq Hx Hv).
  - exact (worker_ready now w task rest x Hq Hx Hv).
Qed.

(** X11.  [Invoke] on an open executor appends a [Pending] future to the
    store and its handle to the queue.  When the queue was empty, the next
    pass of a worker pops it: at a clock reading before the one the future
    was made at, it is put back and not run; otherwise its function is
    called, and [Get] returns the value the function returns or throws what
    it throws. *)
Theorem Invoke_then_worker init fn now now' s :
  ∃ w1 x,
    Invoke init fn now (s, new_executor) = Returned (w1, length s) ∧
    w1 = (s ++ [x], MkExecutor (Queue.Mk [Some (length s)] false)) ∧
    x = MkFuture (MkTask Pending [] [] now None None init) fn ∧
    (now' < now → worker now' w1 = Returned (w1, true)) ∧
    (now ≤ now' →
     (∀ v, fn (body_heap (length s) w1.1) = Returned v →
        ∃ s', worker now' w1 = Returned (s', new_executor, true) ∧
              completed_with (length s) v w1.1 s') ∧
     (∀ e, fn (body_heap (length s) w1.1) = Raised e →
        ∃ s', worker now' w1 = Returned (s', new_executor, true) ∧
              failed_with (length s) e w1.1 s')).
Proof.
  set (x := MkFuture (MkTask Pending [] [] now None None init) fn).
  set (w1 := (s ++ [x], MkExecutor (Queue.Mk [Some (length s)] false))).
  exists w1, x.
  assert (Hx : w1.1 !! length s = Some x).
  { simpl. apply list_lookup_middle. done. }
  assert (Hv : handles_valid (heap w1.1) (task_ x)).
  { intros d Hd. simpl in Hd. by apply elem_of_nil in Hd. }
  assert (Hq : Queue.data_ (scheduler_ w1.2) = Some (length s) :: []) by done.
  split_and!; try done.
  - unfold Invoke, make_shared. simpl. fold x.
    rewrite (Submit_spec (length s) (s ++ [x], new_executor) x Hx). simpl. done.
  - intros Hlt. rewrite (worker_unready now' w1 (length s) [] x Hq Hx Hv); [done..|].
    intros (_ & _ & Ht & _). simpl in Ht. lia.
  - intros Hle. apply (worker_ready now' w1 (length s) [] x Hq Hx Hv).
    split_and!; simpl; auto.
    intros d Hd. by apply elem_of_nil in Hd.
Qed.
End Workers.

(** ** [Then], [WhenAll] and the deadline *)

Section Composition.
Context {T Exn : Type}.
Implicit Types (s : Store T Exn) (w : Store T Exn * Executor) (x : Future T Exn).
Implicit Types (h : Heap T Exn).

Lemma add_dependencies_spec this all s x :
  s !! this = Some x →
  ∃ s' x', add_dependencies this all s = Returned s' ∧ s' !! this = Some x' ∧
    task_ x' = MkTask (state_ (task_ x)) (dependencies_ (task_ x) ++ all)
                 (triggers_ (task_ x)) (time_trigger_ (task_ x))
                 (exception_ (task_ x)) (mutex_ (task_ x)) (result_ (task_ x)) ∧
    fn_ x' = fn_ x ∧
    (∀ t, t ≠ this → s' !! t = s !! t) ∧ length s' = length s.
Proof.
  revert s x. induction all as [|dep all IH]; intros s x Hx; simpl.
  - exists s, x. rewrite app_nil_r. destruct x as [[]]; simpl. auto 10.
  - unfold AddDependency. rewrite (deref_Some _ _ _ Hx). simpl.
    destruct (setter_spec (push_dependency dep) this s x Hx) as [Hx1 Hother].
    destruct (IH _ _ Hx1) as (s' & x' & Hadd & Hx' & Htask & Hfn & Hother' & Hlen).
    exists s', x'. split_and!; [done..| | | |].
    + rewrite Htask. simpl. now rewrite <- app_assoc.
    + now rewrite Hfn.
    + intros t Ht. rewrite Hother' by done. now apply Hother.
    + now rewrite Hlen, length_update.
Qed.

(** A future made by [make_shared], given dependencies and submitted. *)
Lemma depending_spec init fn now w all s2 :
  add_dependencies (length w.1) all (make_shared init fn now w.1).1 = Returned s2 →
  ∃ w' x, Submit (length w.1) (s2, w.2) = Returned w' ∧
    submitted w w' x ∧
    dependencies_ (task_ x) = all ∧ triggers_ (task_ x) = [] ∧
    time_trigger_ (task_ x) = now ∧ result_ (task_ x) = init ∧ fn_ x = fn.
Proof.
  intros Hadd.
  destruct (make_shared_lookup init fn now w.1) as (Hnew & Hold & Hptr).
  destruct (add_dependencies_spec (length w.1) all _ _ Hnew)
    as (s' & x' & Hadd' & Hx' & Htask & Hfn & Hother & Hlen).
  rewrite Hadd in Hadd'. simplify_eq.
  destruct (Submit_fresh w s' x' Hx') as (w' & x'' & Hsub & Hsubm & Hd & Ht & Htt & Hr & Hf).
  - intros t y Hy. rewrite Hother; [auto|]. apply lookup_lt_Some in Hy. lia.
  - rewrite Hlen. unfold make_shared. simpl. rewrite length_app. simpl. lia.
  - now rewrite Htask.
  - now rewrite Htask.
  - now rewrite Htask.
  - exists w', x''. rewrite Htask in *. simpl in *. split_and!; try done.
    congruence.
Qed.

Lemma Then_spec init input fn now w :
  ∃ w' x, Then init input fn now w = Returned (w', length w.1) ∧
    submitted w w' x ∧
    dependencies_ (task_ x) = [input] ∧ triggers_ (task_ x) = [] ∧
    time_trigger_ (task_ x) = now ∧ result_ (task_ x) = init ∧ fn_ x = fn.
Proof.
  destruct (make_shared_lookup init fn now w.1) as (Hnew & Hold & Hptr).
  destruct (add_dependencies_spec (length w.1) [input] _ _ Hnew)
    as (s' & x' & Hadd & _).
  destruct (depending_spec init fn now w [input] s' Hadd) as (w' & x & Hsub & Hrest).
  exists w', x. split; [|done].
  unfold Then. destruct (make_shared init fn now w.1) as [s1 task_ptr] eqn:Hmk.
  simpl in Hptr. subst task_ptr. simpl in Hadd.
  unfold add_dependencies in Hadd.
  destruct (AddDependency (length w.1) input s1) as [s2| | |]; simpl in *; simplify_eq.
  now rewrite Hsub.
Qed.

Lemma WhenAll_spec all now w :
  ∃ w' x, WhenAll all now w = Returned (w', length w.1) ∧
    submitted w w' x ∧
    dependencies_ (task_ x) = all ∧ triggers_ (task_ x) = [] ∧
    time_trigger_ (task_ x) = now ∧ result_ (task_ x) = Vector [] ∧
    fn_ x = WhenAll_fn all.
Proof.
  destruct (make_shared_lookup (Vector []) (WhenAll_fn (T := T) (Exn := Exn) all) now w.1)
    as (Hnew & Hold & Hptr).
  destruct (add_dependencies_spec (length w.1) all _ _ Hnew)
    as (s' & x' & Hadd & _).
  destruct (depending_spec _ _ now w all s' Hadd) as (w' & x & Hsub & Hrest).
  exists w', x. split; [|done].
  unfold WhenAll. destruct (make_shared _ _ now w.1) as [s1 task_ptr] eqn:Hmk.
  simpl in Hptr. subst task_ptr. simpl in Hadd. rewrite Hadd. simpl.
  now rewrite Hsub.
Qed.

(** The gate of a task with dependencies only. *)
Lemma gate_met_dependencies h now (z : Task T Exn) :
  triggers_ z = [] →
  gate_met h now z ↔
  (∀ d, d ∈ dependencies_ z → ∃ y, h !! d = Some y ∧ IsFinished y = true) ∧
  time_trigger_ z ≤ now ∧ state_ z = Pending.
Proof.
  intros Ht. unfold gate_met. rewrite Ht. split.
  - intros (? & _ & ? & ?). auto.
  - intros (? & ? & ?). auto.
Qed.

(** X12.  [Then] returns a handle to a new future that depends on [input]
    alone.  On an open executor the future is [Pending]; in any store that
    holds it as made, [TryExecute] returns without running it while
    [input] is not finished or the clock reads less than at its making, and
    runs it otherwise, whichever way [input] has finished: completed, failed
    or cancelled. *)
Theorem Then_waits_for_input init input fn now w :
  ∃ w' x,
    Then init input fn now w = Returned (w', length w.1) ∧
    w'.1 !! length w.1 = Some x ∧
    dependencies_ (task_ x) = [input] ∧ triggers_ (task_ x) = [] ∧
    fn_ x = fn ∧
    (Queue.IsCanceled (scheduler_ w.2) = false →
     state_ (task_ x) = Pending ∧
     ∀ s now' y, s !! length w.1 = Some x → s !! input = Some y →
       (IsFinished (task_ y) = false ∨ now' < now →
        TryExecute now' (length w.1) s = Returned (s, false)) ∧
       (IsFinished (task_ y) = true → now ≤ now' →
        match fn (body_heap (length w.1) s) with
        | Returned v =>
            ∃ s', TryExecute now' (length w.1) s = Returned (s', true) ∧
                  completed_with (length w.1) v s s'
        | Raised e =>
            ∃ s', TryExecute now' (length w.1) s = Returned (s', true) ∧
                  failed_with (length w.1) e s s'
        | Blocked => TryExecute now' (length w.1) s = Blocked
        | Undefined => TryExecute now' (length w.1) s = Undefined
        end)).
Proof.
  destruct (Then_spec init input fn now w)
    as (w' & x & HThen & Hsub & Hd & Ht & Htt & Hr & Hfn).
  exists w', x. destruct Hsub as (Hx & _ & _ & _ & _ & Hq).
  split_and!; try done.
  intros Hopen. rewrite Hopen in Hq. destruct Hq as [Hp _]. split; [done|].
  intros s now' y Hxs Hy.
  assert (Hv : handles_valid (heap s) (task_ x)).
  { intros d. rewrite Hd, Ht. simpl. intros Hin.
    apply list_elem_of_singleton in Hin as ->.
    rewrite heap_lookup, Hy. simpl. eauto. }
  split.
  - intros Hno. apply (TryExecute_gate_unmet s now' _ x Hxs Hv).
    rewrite (gate_met_dependencies _ _ _ Ht). rewrite Hd, Htt.
    intros (Hdeps & Htime & _).
    destruct Hno as [Hno|Hno]; [|lia].
    destruct (Hdeps input) as (y' & Hy' & Hf); [by apply list_elem_of_singleton|].
    rewrite heap_lookup, Hy in Hy'. simpl in Hy'. simplify_eq. congruence.
  - intros Hfin Hle. rewrite <- Hfn.
    apply (TryExecute_body s now' _ x Hxs Hv).
    rewrite (gate_met_dependencies _ _ _ Ht). rewrite Hd, Htt.
    split_and!; auto.
    intros d Hin. apply list_elem_of_singleton in Hin as ->.
    exists (task_ y). rewrite heap_lookup, Hy. done.
Qed.

(** The loop of [WhenAll]'s lambda over a prefix of finished elements none
    of which has failed. *)
Lemma WhenAll_loop_prefix h pre rest zs result :
  Forall2 (λ a z, h !! a = Some z) pre zs →
  Forall (λ z, IsFinished z = true ∧ IsFailed z = false) zs →
  WhenAll_loop h (pre ++ rest) result =
    WhenAll_loop h rest (result ++ (result_ <$> zs)).
Proof.
  intros H2. revert result. induction H2 as [|a z pre zs Ha H2 IH]; intros result Hall.
  - simpl. now rewrite app_nil_r.
  - apply Forall_cons in Hall as [[Hf Hn] Hall]. simpl.
    rewrite (deref_Some _ _ _ Ha). simpl.
    rewrite (Get_finished z Hf Hn). simpl. rewrite IH by done.
    now rewrite <- app_assoc.
Qed.

Lemma WhenAll_loop_not_blocked h all result :
  (∀ a, a ∈ all → ∃ z, h !! a = Some z ∧ IsFinished z = true) →
  WhenAll_loop h all result ≠ Blocked.
Proof.
  revert result. induction all as [|a all IH]; intros result Hall; simpl; [done|].
  destruct (Hall a) as (z & Hz & Hf); [left|].
  rewrite (deref_Some _ _ _ Hz). simpl. unfold Get, Wait. rewrite Hf. simpl.
  destruct (IsFailed z).
  - destruct (GetError z); done.
  - simpl. apply IH. intros b Hb. apply Hall. now right.
Qed.

(** X13.  [WhenAll] returns a handle to a new future whose dependencies are
    the elements of [all], with no trigger.  Its body, run on a heap in
    which every element is finished, returns the elements' results in input
    order when none has failed, and throws the exception of the first failed
    one otherwise.  [TryExecute] on the future never blocks in the body:
    the gate lets it run only when every element is finished. *)
Theorem WhenAll_gathers all now w :
  ∃ w' x,
    WhenAll all now w = Returned (w', length w.1) ∧
    w'.1 !! length w.1 = Some x ∧
    dependencies_ (task_ x) = all ∧ triggers_ (task_ x) = [] ∧
    (∀ h zs,
       Forall2 (λ a z, h !! a = Some z) all zs →
       Forall (λ z, IsFinished z = true) zs →
       (Forall (λ z, IsFailed z = false) zs →
        fn_ x h = Returned (Vector (result_ <$> zs))) ∧
       (∀ pre z post e,
          zs = pre ++ z :: post →
          Forall (λ z', IsFailed z' = false) pre →
          IsFailed z = true → GetError z = Some e →
          fn_ x h = Raised e)) ∧
    (∀ s now',
       (∀ a, a ∈ all → (a < length w.1)%nat) →
       s !! length w.1 = Some x →
       TryExecute now' (length w.1) s ≠ Blocked).
Proof.
  destruct (WhenAll_spec all now w)
    as (w' & x & HAll & Hsub & Hd & Ht & Htt & Hr & Hfn).
  exists w', x. destruct Hsub as (Hx & _).
  split_and!; try done.
  - intros h zs H2 Hfin. rewrite Hfn. unfold WhenAll_fn. split.
    + intros Hnf.
      rewrite <- (app_nil_r all).
      rewrite (WhenAll_loop_prefix h all [] zs []); [done|done|].
      apply Forall_forall. intros z Hz. split.
      * eapply (proj1 (Forall_forall _ _) Hfin); eauto.
      * eapply (proj1 (Forall_forall _ _) Hnf); eauto.
    + intros pre z post e -> Hpre Hfz He.
      apply Forall2_app_inv_r in H2 as (apre & arest & H2pre & H2rest & ->).
      apply Forall2_cons_inv_r in H2rest as (a & apost & Ha & _ & ->).
      apply Forall_app in Hfin as [Hfpre Hfrest].
      rewrite (WhenAll_loop_prefix h apre (a :: apost) pre []); [|done|].
      2:{ apply Forall_forall. intros z' Hz'. split.
          - eapply (proj1 (Forall_forall _ _) Hfpre); eauto.
          - eapply (proj1 (Forall_forall _ _) Hpre); eauto. }
      simpl. rewrite (deref_Some _ _ _ Ha). simpl.
      now rewrite (Get_failed z e Hfz He).
  - intros s now' Hlt Hxs.
    assert (Hv : handles_valid (heap s) (task_ x)).
    { intros d. rewrite Hd, Ht, app_nil_r. intros Hin.
      apply lookup_lt_is_Some. unfold heap. rewrite length_fmap.
      apply Hlt in Hin. apply lookup_lt_Some in Hxs. lia. }
    assert (Hdec : (time_trigger_ (task_ x) ≤ now' ∧ state_ (task_ x) = Pending ∧
                    Forall (λ d, ∃ y, heap s !! d = Some y ∧ IsFinished y = true) all) ∨
                   ¬ gate_met (heap s) now' (task_ x)).
    { destruct (dependencies_finished_returns (heap s) all) as (b & Hb & Hfalse).
      { intros d Hin. apply Hv. rewrite Hd. apply elem_of_app. now left. }
      destruct b.
      - destruct (decide (time_trigger_ (task_ x) ≤ now')) as [Htime|Htime];
          [|right; intros (_ & _ & ? & _); done].
        destruct (decide (state_ (task_ x) = Pending)) as [Hp|Hp];
          [|right; intros (_ & _ & _ & ?); done].
        left. split_and!; auto. apply Forall_forall.
        now apply dependencies_finished_true.
      - right. intros (Hdeps & _). rewrite Hd in Hdeps.
        destruct (Hfalse eq_refl) as (d & y & Hin & Hy & Hf).
        destruct (Hdeps d Hin) as (y' & Hy' & Hf'). congruence. }
    destruct Hdec as [(Htime & Hp & Hall)|Hno].
    + assert (Hg : gate_met (heap s) now' (task_ x)).
      { apply (gate_met_dependencies _ _ _ Ht). rewrite Hd. split_and!; auto.
        intros d Hin. eapply (proj1 (Forall_forall _ _) Hall); eauto. }
      pose proof (TryExecute_body s now' _ x Hxs Hv Hg) as Hbody.
      destruct (fn_ x (body_heap (length w.1) s)) as [v|e| |] eqn:Hbh.
      * destruct Hbody as (s' & -> & _). done.
      * destruct Hbody as (s' & -> & _). done.
      * exfalso. rewrite Hfn in Hbh. unfold WhenAll_fn in Hbh.
        destruct (WhenAll_loop (body_heap (length w.1) s) all []) eqn:Hloop;
          simpl in Hbh; try discriminate.
        revert Hloop. apply WhenAll_loop_not_blocked.
        intros a Ha. destruct (proj1 (Forall_forall _ _) Hall a Ha) as (y & Hy & Hf).
        exists y. split; [|done]. unfold body_heap.
        rewrite heap_lookup, lookup_update_ne, <- heap_lookup; [done|].
        apply Hlt in Ha. lia.
      * rewrite Hbody. done.
    + rewrite (TryExecute_gate_unmet s now' _ x Hxs Hv); done.
Qed.

(** X14.  The future [WhenAllBeforeDeadline] makes on an open executor is not
    run while the clock reads less than [deadline], and is run by
    [TryExecute] at any reading from [deadline] on, whether or not any
    element is finished. *)
Theorem WhenAllBeforeDeadline_fires all deadline now w :
  Queue.IsCanceled (scheduler_ w.2) = false →
  ∃ w' x,
    WhenAllBeforeDeadline all deadline now w = Returned (w', length w.1) ∧
    w'.1 !! length w.1 = Some x ∧
    ∀ s now', s !! length w.1 = Some x →
      (now' < deadline → TryExecute now' (length w.1) s = Returned (s, false)) ∧
      (deadline ≤ now' →
       match fn_ x (body_heap (length w.1) s) with
       | Returned v =>
           ∃ s', TryExecute now' (length w.1) s = Returned (s', true) ∧
                 completed_with (length w.1) v s s'
       | Raised e =>
           ∃ s', TryExecute now' (length w.1) s = Returned (s', true) ∧
                 failed_with (length w.1) e s s'
       | Blocked => TryExecute now' (length w.1) s = Blocked
       | Undefined => TryExecute now' (length w.1) s = Undefined
       end).
Proof.
  intros Hopen.
  destruct (WhenAllBeforeDeadline_spec all deadline now w)
    as (w' & x & HW & Hsub & Hd & Ht & Htt & Hr & Hfn).
  exists w', x. destruct Hsub as (Hx & _ & _ & _ & _ & Hq).
  rewrite Hopen in Hq. destruct Hq as [Hp _].
  split_and!; try done.
  intros s now' Hxs.
  assert (Hv : handles_valid (heap s) (task_ x)).
  { intros d. rewrite Hd, Ht. simpl. intros Hin. by apply elem_of_nil in Hin. }
  split.
  - intros Hlt. apply (TryExecute_gate_unmet s now' _ x Hxs Hv).
    intros (_ & _ & Htime & _). lia.
  - intros Hle. apply (TryExecute_body s now' _ x Hxs Hv).
    apply (gate_met_dependencies _ _ _ Ht). rewrite Hd, Htt. split_and!; auto.
    intros d Hin. by apply elem_of_nil in Hin.
Qed.
End Composition.

(** ** The gather at the deadline *)

Section Deadline.
Context {T Exn : Type}.
Implicit Types (s : Store T Exn) (w : Store T Exn * Executor) (x : Future T Exn).
Implicit Types (h : Heap T Exn).




End Deadline.

(** ** The loop of a worker thread *)

Section Shutdown.
Context {T Exn : Type}.
Implicit Types (s : Store T Exn) (w : Store T Exn * Executor) (x : Future T Exn).
Implicit Types (h : Heap T Exn).

Lemma gate_met_dec h now (z : Task T Exn) :
  handles_valid h z → gate_met h now z ∨ ¬ gate_met h now z.
Proof.
  intros Hv.
  destruct (dependencies_finished_returns h (dependencies_ z)) as (b & Hb & Hfalse).
  { intros d Hin. apply Hv. apply elem_of_app. now left. }
  destruct b.
  2:{ right. intros (Hdeps & _).
      destruct (Hfalse eq_refl) as (d & y & Hin & Hy & Hf).
      destruct (Hdeps d Hin) as (y' & Hy' & Hf'). congruence. }
  destruct (triggers_happened_returns h (empty (triggers_ z)) (triggers_ z)) as (b & Hb').
  { intros d Hin. apply Hv. apply elem_of_app. now right. }
  pose proof (triggers_happened_spec _ _ _ _ Hb') as Hspec.
  destruct b.
  2:{ right. intros (_ & Htrig & _).
      assert (false = true); [|done]. apply Hspec.
      destruct Htrig as [Hnil|?]; [left|now right]. now apply empty_true. }
  destruct (decide (time_trigger_ z ≤ now)) as [Htime|Htime];
    [|right; intros (_ & _ & ? & _); done].
  destruct (decide (state_ z = Pending)) as [Hp|Hp];
    [|right; intros (_ & _ & _ & ?); done].
  left. split_and!; auto.
  - now apply dependencies_finished_true.
  - destruct (proj1 Hspec eq_refl) as [He|?]; [left|now right]. now apply empty_true.
Qed.

(** [TryExecute] leaves every object its function and its gates. *)
Lemma TryExecute_shape now this s s' ran :
  TryExecute now this s = Returned (s', ran) →
  length s' = length s ∧
  ∀ t x', s' !! t = Some x' →
    ∃ x, s !! t = Some x ∧ fn_ x' = fn_ x ∧
      dependencies_ (task_ x') = dependencies_ (task_ x) ∧
      triggers_ (task_ x') = triggers_ (task_ x).
Proof.
  unfold TryExecute. intros H.
  apply bind_Returned in H as (x & Hx%deref_Returned & H).
  assert (Hsame : length s = length s ∧ ∀ t x', s !! t = Some x' →
            ∃ x, s !! t = Some x ∧ fn_ x' = fn_ x ∧
              dependencies_ (task_ x') = dependencies_ (task_ x) ∧
              triggers_ (task_ x') = triggers_ (task_ x)) by eauto 10.
  apply bind_Returned in H as (deps & _ & H).
  destruct deps; simpl in H; [|by simplify_eq].
  apply bind_Returned in H as (trig & _ & H).
  destruct trig; simpl in H; [|by simplify_eq].
  destruct (now <? time_trigger_ (task_ x)); [by simplify_eq|].
  destruct (bool_decide_reflect (state_ (task_ x) = Pending)) as [Hp|];
    simpl in H; [|by simplify_eq].
  assert (Hupd : ∀ (f : Future T Exn → Future T Exn) s0,
            (∀ y, fn_ (f y) = fn_ y ∧
                  dependencies_ (task_ (f y)) = dependencies_ (task_ y) ∧
                  triggers_ (task_ (f y)) = triggers_ (task_ y)) →
            ∀ t x', update f this s0 !! t = Some x' →
              ∃ x0, s0 !! t = Some x0 ∧ fn_ x' = fn_ x0 ∧
                dependencies_ (task_ x') = dependencies_ (task_ x0) ∧
                triggers_ (task_ x') = triggers_ (task_ x0)).
  { intros f s0 Hf t x' Hx'. destruct (decide (t = this)) as [->|Hne].
    - rewrite lookup_update_eq in Hx'. destruct (s0 !! this) as [x0|]; [|done].
      simpl in Hx'. simplify_eq. exists x0. split; [done|]. apply Hf.
    - rewrite lookup_update_ne in Hx' by done. eauto 10. }
  unfold Run in H.
  assert (Hx1 : update (set_state Running) this s !! this = Some (set_state Running x)).
  { now rewrite lookup_update_eq, Hx. }
  rewrite (deref_Some _ _ _ Hx1) in H. simpl in H.
  destruct (fn_ x (heap (update (set_state Running) this s))) as [v|e| |];
    simpl in H; simplify_eq; (split; [now rewrite !length_update|]); intros t x' Hx'.
  - apply Hupd in Hx' as (x2 & Hx2 & Hf2 & Hd2 & Ht2); [|done].
    apply Hupd in Hx2 as (x3 & Hx3 & Hf3 & Hd3 & Ht3); [|done].
    apply Hupd in Hx3 as (x4 & Hx4 & Hf4 & Hd4 & Ht4); [|done].
    exists x4. split_and!; congruence.
  - apply Hupd in Hx' as (x2 & Hx2 & Hf2 & Hd2 & Ht2); [|done].
    apply Hupd in Hx2 as (x3 & Hx3 & Hf3 & Hd3 & Ht3); [|done].
    apply Hupd in Hx3 as (x4 & Hx4 & Hf4 & Hd4 & Ht4); [|done].
    exists x4. split_and!; congruence.
Qed.

(** With valid handles and a function that does not block, [TryExecute]
    returns. *)
Lemma TryExecute_returns now this s x :
  s !! this = Some x →
  handles_valid (heap s) (task_ x) →
  (∀ h, fn_ x h ≠ Blocked ∧ fn_ x h ≠ Undefined) →
  ∃ s' ran, TryExecute now this s = Returned (s', ran).
Proof.
  intros Hx Hv Hfn.
  destruct (gate_met_dec (heap s) now (task_ x) Hv) as [Hg|Hg].
  - pose proof (TryExecute_body s now this x Hx Hv Hg) as Hbody.
    destruct (Hfn (body_heap this s)) as [Hb Hu].
    destruct (fn_ x (body_heap this s)); try done.
    + destruct Hbody as (s' & -> & _). eauto.
    + destruct Hbody as (s' & -> & _). eauto.
  - rewrite (TryExecute_gate_unmet s now this x Hx Hv Hg). eauto.
Qed.

Lemma runnable_store s s' q :
  runnable (s, q) →
  length s' = length s →
  (∀ t x', s' !! t = Some x' →
     ∃ x, s !! t = Some x ∧ fn_ x' = fn_ x ∧
       dependencies_ (task_ x') = dependencies_ (task_ x) ∧
       triggers_ (task_ x') = triggers_ (task_ x)) →
  ∀ ds, (∀ a, a ∈ ds → a ∈ Queue.data_ (scheduler_ q)) →
  runnable (s', MkExecutor (Queue.Mk ds (Queue.is_canceled_ (scheduler_ q)))).
Proof.
  intros [Hobj Hq] Hlen Hshape ds Hds. split; simpl in *.
  - intros t x' Hx'. destruct (Hshape t x' Hx') as (x & Hx & Hf & Hd & Ht).
    destruct (Hobj t x Hx) as [Hv Hfn]. split.
    + intros d. rewrite Hd, Ht. intros Hin. specialize (Hv d Hin).
      apply lookup_lt_is_Some. apply lookup_lt_is_Some in Hv.
      unfold heap in *. rewrite length_fmap in *. lia.
    + rewrite Hf. done.
  - intros t Ha. pose proof (Hq t (Hds _ Ha)) as Hsome.
    apply lookup_lt_is_Some. apply lookup_lt_is_Some in Hsome. lia.
Qed.

(** A pass over a cancelled queue: it ends the loop when the queue is
    empty, and takes the first handle off it otherwise. *)
Lemma worker_canceled now w :
  Queue.IsCanceled (scheduler_ w.2) = true → runnable w →
  match Queue.data_ (scheduler_ w.2) with
  | [] => worker now w = Returned (w, false)
  | _ :: rest =>
      ∃ s', worker now w = Returned (s', MkExecutor (Queue.Mk rest true), true) ∧
            runnable (s', MkExecutor (Queue.Mk rest true)) ∧
            length s' = length w.1
  end.
Proof.
  destruct w as [s [[ds c]]]. unfold Queue.IsCanceled. simpl. intros -> Hrun.
  destruct ds as [|a rest]; [reflexivity|].
  assert (Hrest : ∀ s', length s' = length s →
            (∀ t x', s' !! t = Some x' →
               ∃ x, s !! t = Some x ∧ fn_ x' = fn_ x ∧
                 dependencies_ (task_ x') = dependencies_ (task_ x) ∧
                 triggers_ (task_ x') = triggers_ (task_ x)) →
            runnable (s', MkExecutor (Queue.Mk rest true))).
  { intros s' Hlen Hshape.
    apply (runnable_store s s' _ Hrun Hlen Hshape rest).
    intros b Hb. simpl. now right. }
  assert (Hself : runnable (s, MkExecutor (Queue.Mk rest true))).
  { apply Hrest; eauto 10. }
  destruct Hrun as [Hobj Hq]. simpl in *.
  destruct a as [task|]; [|eauto].
  destruct (Hq task) as [x Hx]; [left|].
  destruct (Hobj task x Hx) as [Hv Hfn].
  rewrite (worker_head now (s, MkExecutor (Queue.Mk (Some task :: rest) true))
             task rest x eq_refl Hx). simpl.
  destruct (IsCanceled (task_ x)); [eauto|].
  destruct (TryExecute_returns now task s x Hx Hv Hfn) as (s' & ran & Hte).
  rewrite Hte. simpl.
  destruct (TryExecute_shape _ _ _ _ _ Hte) as [Hlen Hshape].
  assert (is_Some (s' !! task)) as [x' Hx'].
  { apply lookup_lt_is_Some. rewrite Hlen. eapply lookup_lt_Some; eauto. }
  rewrite (deref_Some _ _ _ Hx'). simpl.
  destruct (negb (IsFinished (task_ x'))); simpl; eauto.
Qed.

(** A pass over an open queue that returns leaves the queue open and the
    loop running. *)
Lemma worker_open now w r :
  Queue.IsCanceled (scheduler_ w.2) = false →
  worker now w = Returned r →
  r.2 = true ∧ Queue.IsCanceled (scheduler_ r.1.2) = false.
Proof.
  intros Hopen Hw. unfold Queue.IsCanceled in *.
  apply worker_Returned in Hw. simpl in Hw.
  destruct Hw as [(_ & Hc & _)|[(rest & _ & ->)|(task & rest & x & _ & _ & Hw)]].
  - congruence.
  - simpl. auto.
  - destruct Hw as [[_ ->]|(_ & s' & ran & x' & _ & _ & ->)]; simpl; [auto|].
    split; [done|]. rewrite Hopen.
    destruct (negb (IsFinished (task_ x'))); simpl; [|done].
    unfold Queue.Push. simpl. done.
Qed.

(** X15.  The loop of a worker thread.  While the queue is open the loop does
    not end: every pass that returns leaves it running.  Once the queue is
    cancelled, and every handle names an object and no function blocks,
    each pass takes one handle off the queue and puts none back, so the
    loop ends at the pass after the last handle: with the queue empty. *)
Theorem worker_thread_ends nows w :
  (Queue.IsCanceled (scheduler_ w.2) = false →
   ∀ r, worker_thread nows w = Returned r →
        r.2 = false ∧ Queue.IsCanceled (scheduler_ r.1.2) = false) ∧
  (Queue.IsCanceled (scheduler_ w.2) = true → runnable w →
   ∃ s', worker_thread nows w =
           Returned (s', MkExecutor
                           (Queue.Mk (drop (length nows) (Queue.data_ (scheduler_ w.2))) true),
                     bool_decide (length (Queue.data_ (scheduler_ w.2)) < length nows)%nat) ∧
         length s' = length w.1).
Proof.
  split.
  - revert w. induction nows as [|now nows IH]; intros w Hopen r Hr; simpl in Hr.
    + by simplify_eq.
    + apply bind_Returned in Hr as (r1 & Hw & Hr).
      destruct (worker_open now w r1 Hopen Hw) as [Hgo Hopen1].
      rewrite Hgo in Hr. eapply IH; eauto.
  - revert w. induction nows as [|now nows IH]; intros w Hc Hrun.
    + simpl. exists w.1. rewrite drop_0. destruct w as [s [[ds c]]].
      unfold Queue.IsCanceled in Hc. simpl in *. subst c. done.
    + pose proof (worker_canceled now w Hc Hrun) as Hw.
      cbn [worker_thread].
      destruct w as [s [[ds c]]]. unfold Queue.IsCanceled in Hc. simpl in *. subst c.
      destruct ds as [|a rest].
      * rewrite Hw. simpl. exists s. done.
      * destruct Hw as (s' & -> & Hrun' & Hlen). simpl.
        destruct (IH (s', MkExecutor (Queue.Mk rest true)) eq_refl Hrun')
          as (s'' & -> & Hlen'). simpl in *.
        exists s''. split; [|lia].
        repeat f_equal. apply bool_decide_ext. lia.
Qed.
End Shutdown.

(** ** The machine with [Wait]: its invariant *)

Section Waiting.
Context {T Exn : Type}.
Implicit Types (s : Store T Exn) (sys : WaitSys T Exn) (a : WaitAction T Exn).
Implicit Types (x : Future T Exn) (p : WaitPc Exn) (th : WaitThread Exn).

Lemma task_step_terminal (z z' : Task T Exn) :
  task_step z z' → IsFinished z = true → state_ z' = state_ z.
Proof.
  intros ([?|Htr] & _) Hfin; [done|]. unfold IsFinished in Hfin.
  inversion Htr as [H1 H2|H1 H2|H1 H2|H1 H2]; rewrite <- H1 in Hfin; done.
Qed.

(** The invariant of a place holds on, whatever another thread does. *)
Lemma wait_pc_inv_other j p (z z' : Task T Exn) :
  (∀ q, pc_inv (Exn := Exn) j q z → pc_inv j q z') → task_step z z' →
  wait_pc_inv j p z → wait_pc_inv j p z'.
Proof.
  intros Hq Hts. destruct p; cbn [wait_pc_inv]; auto.
  - intros [Hu Hst]. split; [now apply (Hq TE_unlock)|].
    rewrite (task_step_terminal z z' Hts); [done|].
    unfold IsFinished. destruct Hst as [->| ->]; done.
  - intros Hc. rewrite (task_step_terminal z z' Hts); [done|].
    unfold IsFinished. now rewrite Hc.
  - intros [Hu Hfin]. split; [now apply (Hq TE_unlock)|].
    unfold IsFinished in *. now rewrite (task_step_terminal z z' Hts).
  - intros Hfin. unfold IsFinished in *. now rewrite (task_step_terminal z z' Hts).
Qed.

(** A step of a thread keeps the invariant of its task. *)
Lemma wait_thread_step_sound i env this p s s' p' x :
  s !! this = Some x →
  wait_thread_step i env this p s = Some (s', p') →
  wait_pc_inv i p (task_ x) → task_inv (task_ x) →
  ∃ x', writes_only this s s' x x' ∧
    wait_pc_inv i p' (task_ x') ∧ task_inv (task_ x') ∧
    (∀ j q, j ≠ i → pc_inv (Exn := Exn) j q (task_ x) → pc_inv j q (task_ x')) ∧
    task_step (task_ x) (task_ x').
Proof.
  intros Hx Hstep Hpc Htask. unfold wait_thread_step in Hstep. rewrite Hx in Hstep.
  assert (Hsame : ∀ q, wait_pc_inv i q (task_ x) →
            ∃ x', writes_only this s s x x' ∧ wait_pc_inv i q (task_ x') ∧
              task_inv (task_ x') ∧
              (∀ j q0, j ≠ i → pc_inv (Exn := Exn) j q0 (task_ x) → pc_inv j q0 (task_ x')) ∧
              task_step (task_ x) (task_ x')).
  { intros q Hq. exists x. split_and!; auto using writes_only_refl, task_step_refl. }
  assert (Hlock : mutex_ (task_ x) = None →
            ∃ x', writes_only this s (update (set_mutex (Some i)) this s) x x' ∧
              wait_pc_inv i WA_pred (task_ x') ∧ task_inv (task_ x') ∧
              (∀ j q0, j ≠ i → pc_inv (Exn := Exn) j q0 (task_ x) → pc_inv j q0 (task_ x')) ∧
              task_step (task_ x) (task_ x')).
  { intros Hm.
    destruct (thread_step_sound i env this TE_lock s
                (update (set_mutex (Some i)) this s)
                (TE_dependencies (dependencies_ (task_ x))) x Hx)
      as (x' & Hw & Hpc' & Hrest); [|exact I|done|].
    - unfold thread_step. rewrite Hx. simpl. now rewrite Hm.
    - exists x'. split; [done|]. split; [exact Hpc'|exact Hrest]. }
  assert (Hunlock : ∀ q, pc_inv (Exn := Exn) i TE_unlock (task_ x) →
            (∀ z, task_step (task_ x) z → wait_pc_inv i q z) →
            ∃ x', writes_only this s (update (set_mutex None) this s) x x' ∧
              wait_pc_inv i q (task_ x') ∧ task_inv (task_ x') ∧
              (∀ j q0, j ≠ i → pc_inv (Exn := Exn) j q0 (task_ x) → pc_inv j q0 (task_ x')) ∧
              task_step (task_ x) (task_ x')).
  { intros q Hu Hq.
    destruct (thread_step_sound i env this TE_unlock s
                (update (set_mutex None) this s) Done x Hx)
      as (x' & Hw & _ & Ht' & Ho & Hts); [|done|done|].
    - unfold thread_step. now rewrite Hx.
    - exists x'. split_and!; auto. }
  destruct p; simpl in Hstep, Hpc.
  - (* inside TryExecute or Cancel *)
    destruct (thread_step i env this p s) as [[s1 p1]|] eqn:Hts; [|discriminate].
    simplify_eq.
    destruct (thread_step_sound _ _ _ _ _ _ _ _ Hx Hts Hpc Htask)
      as (x' & Hw & Hpc' & Ht' & Ho & Htst).
    exists x'. split_and!; auto.
    destruct (thread_step_state _ _ _ _ _ _ _ _ Hx Hts) as (x'' & Hx'' & _ & Hcase).
    assert (x'' = x') as -> by (destruct Hw as [Hx' _]; congruence).
    unfold thread_step in Hts. rewrite Hx in Hts.
    destruct p; simpl in Hts, Hcase |- *; try exact Hpc'.
    + (* exception_ = ... *)
      simplify_eq. simpl. split; [exact Hpc'|]. right.
      destruct Hcase as [-> _]. apply Hpc.
    + (* state_ = Completed *)
      simplify_eq. simpl. split; [exact Hpc'|]. left. apply Hcase.
    + (* the compare-and-exchange of Cancel *)
      clear Hcase.
      destruct (bool_decide (state_ (task_ x) = state) && negb (spurious env));
        simplify_eq; simpl; [|exact Hpc'].
      rewrite lookup_update_eq, Hx in Hx''. simpl in Hx''. by simplify_eq.
  - simplify_eq. apply (Hsame (In_call TE_unlock)). apply Hpc.
  - simplify_eq. apply (Hsame (In_call Done)). exact I.
  - destruct (mutex_ (task_ x)) eqn:Hm; simplify_eq. now apply Hlock.
  - simplify_eq. destruct (IsFinished (task_ x)) eqn:Hf.
    + apply (Hsame WA_unlock). split; done.
    + apply (Hsame WA_wait). done.
  - simplify_eq. apply (Hunlock WA_asleep); [done|]. intros; exact I.
  - discriminate.
  - destruct (mutex_ (task_ x)) eqn:Hm; simplify_eq. now apply Hlock.
  - simplify_eq. destruct Hpc as [Hu Hfin]. apply (Hunlock WA_done); [done|].
    intros z Hz. simpl. unfold IsFinished in *.
    now rewrite (task_step_terminal _ _ Hz Hfin).
  - discriminate.
Qed.

(** The threads after a step of thread [i]. *)
Lemma wait_step_threads i env sys sys' :
  wait_step (WAct_step i env) sys = Some sys' →
  ∃ th s' p',
    w_threads sys !! i = Some th ∧
    wait_thread_step i env (w_callee th) (w_pc th) (w_store sys) = Some (s', p') ∧
    w_store sys' = s' ∧
    w_threads sys' !! i = Some (MkWaitThread (w_callee th) p') ∧
    (∀ j, j ≠ i →
       w_threads sys' !! j =
         (if notifies (w_pc th) then wake (w_callee th) else id) <$> (w_threads sys !! j)).
Proof.
  simpl. intros Hstep.
  destruct (w_threads sys !! i) as [th|] eqn:Hth; simpl in Hstep; [|discriminate].
  destruct (wait_thread_step _ _ _ _ _) as [[s' p']|] eqn:Hts; simpl in Hstep; simplify_eq.
  exists th, s', p'. simpl.
  assert (Hi : (i < length (w_threads sys))%nat) by (eapply lookup_lt_Some; eauto).
  split_and!; auto.
  - destruct (notifies (w_pc th)) eqn:Hn.
    + rewrite list_lookup_fmap, list_lookup_insert_eq by done. simpl.
      unfold wake. simpl.
      unfold wait_thread_step in Hts.
      destruct (w_store sys !! w_callee th); [|discriminate].
      destruct (w_pc th); simpl in Hn; try discriminate; simplify_eq; done.
    + now rewrite list_lookup_insert_eq.
  - intros j Hj. destruct (notifies (w_pc th)).
    + rewrite list_lookup_fmap, list_lookup_insert_ne by done. done.
    + rewrite list_lookup_insert_ne by done. now destruct (w_threads sys !! j).
Qed.

Lemma wake_callee t th : w_callee (wake t th) = w_callee th.
Proof.
  unfold wake. destruct (w_pc th); try done.
  destruct (bool_decide (w_callee th = t)); done.
Qed.

Lemma wake_pc t th :
  w_pc (wake t th) = w_pc th ∨
  (w_pc th = WA_asleep ∧ w_callee th = t ∧ w_pc (wake t th) = WA_woken).
Proof.
  unfold wake. destruct (w_pc th) eqn:Hp; auto.
  destruct (bool_decide_reflect (w_callee th = t)); simpl; auto.
Qed.

Lemma wait_invariant_ext sys s' :
  wait_invariant sys →
  (∀ t x, w_store sys !! t = Some x →
    ∃ x', s' !! t = Some x' ∧
      state_ (task_ x') = state_ (task_ x) ∧
      exception_ (task_ x') = exception_ (task_ x) ∧
      mutex_ (task_ x') = mutex_ (task_ x) ∧
      result_ (task_ x') = result_ (task_ x)) →
  length s' = length (w_store sys) →
  wait_invariant (MkWaitSys s' (w_threads sys)) ∧
  (∀ t x, w_store sys !! t = Some x →
     ∃ x', s' !! t = Some x' ∧ task_step (task_ x) (task_ x')).
Proof.
  intros (Hvalid & Hpc & Htask) Hs Hlen.
  assert (Hts : ∀ (z z' : Task T Exn),
            state_ z' = state_ z → exception_ z' = exception_ z →
            result_ z' = result_ z → task_step z z').
  { intros z z' H1 H2 H3. split_and!; [left; done|intros H; rewrite H1 in H; auto|].
    intros e. now rewrite H2. }
  split; [split_and!|]; simpl.
  - intros i th Hth. destruct (Hvalid i th Hth) as [x Hx].
    destruct (Hs _ _ Hx) as (x' & Hx' & _). eauto.
  - intros i th x' Hth Hx'. destruct (Hvalid i th Hth) as [x Hx].
    destruct (Hs _ _ Hx) as (x'' & Hx'' & H1 & H2 & H3 & H4). simplify_eq.
    eapply wait_pc_inv_other; [| |eapply Hpc; eauto].
    + intros q. now apply pc_inv_ext.
    + now apply Hts.
  - intros t x' Hx'.
    assert (is_Some (w_store sys !! t)) as [x Hx].
    { apply lookup_lt_is_Some. rewrite <- Hlen. eapply lookup_lt_Some; eauto. }
    destruct (Hs _ _ Hx) as (x'' & Hx'' & H1 & H2 & H3 & H4). simplify_eq.
    eapply task_inv_ext; eauto.
  - intros t x Hx. destruct (Hs _ _ Hx) as (x' & Hx' & H1 & H2 & H3 & H4).
    exists x'. split; [done|]. now apply Hts.
Qed.

Lemma wait_invariant_spawn sys th :
  wait_invariant sys → is_Some (w_store sys !! w_callee th) →
  (∀ i (z : Task T Exn), wait_pc_inv i (w_pc th) z) →
  wait_invariant (MkWaitSys (w_store sys) (w_threads sys ++ [th])).
Proof.
  intros (Hvalid & Hpc & Htask) Hc Hnew. split_and!; simpl; auto.
  - intros i th' Hth. apply lookup_app_Some in Hth as [Hth|[_ Hth]]; [eauto|].
    apply list_lookup_singleton_Some in Hth as [_ <-]. done.
  - intros i th' y Hth Hy. apply lookup_app_Some in Hth as [Hth|[_ Hth]]; [eauto|].
    apply list_lookup_singleton_Some in Hth as [_ <-]. apply Hnew.
Qed.

Lemma wait_step_sound a sys sys' :
  wait_invariant sys → wait_step a sys = Some sys' →
  wait_invariant sys' ∧
  (∀ t x, w_store sys !! t = Some x →
          ∃ x', w_store sys' !! t = Some x' ∧ task_step (task_ x) (task_ x')).
Proof.
  intros Hinv Hstep.
  destruct a as [init fn now|this dep|this dep|this at_|this|this|this|i env|i].
  - (* make_shared *)
    simpl in Hstep. simplify_eq. destruct Hinv as (Hvalid & Hpc & Htask).
    split; [split_and!|]; simpl.
    + intros i th Hth. destruct (Hvalid i th Hth) as [x Hx].
      exists x. now apply lookup_app_l_Some.
    + intros i th x' Hth Hx'. destruct (Hvalid i th Hth) as [x Hx].
      rewrite (lookup_app_l_Some _ _ _ _ Hx) in Hx'. simplify_eq. eauto.
    + intros t x' Hx'. apply lookup_app_Some in Hx' as [Hx'|[_ Hx']]; [eauto|].
      apply list_lookup_singleton_Some in Hx' as [_ <-].
      split; simpl; [intros [? ?]; discriminate|intros _ ?; discriminate].
    + intros t x Hx. exists x. split; [now apply lookup_app_l_Some|apply task_step_refl].
  - simpl in Hstep.
    destruct (locked_write _ _ _) as [s'|] eqn:Hw; simpl in Hstep; simplify_eq.
    apply wait_invariant_ext; [done| |eapply locked_write_length; eauto].
    eapply locked_write_sound; eauto.
  - simpl in Hstep.
    destruct (locked_write _ _ _) as [s'|] eqn:Hw; simpl in Hstep; simplify_eq.
    apply wait_invariant_ext; [done| |eapply locked_write_length; eauto].
    eapply locked_write_sound; eauto.
  - simpl in Hstep.
    destruct (locked_write _ _ _) as [s'|] eqn:Hw; simpl in Hstep; simplify_eq.
    apply wait_invariant_ext; [done| |eapply locked_write_length; eauto].
    eapply locked_write_sound; eauto.
  - simpl in Hstep.
    destruct (w_store sys !! this) as [x|] eqn:Hx; simpl in Hstep; simplify_eq.
    split; [|eauto using task_step_refl].
    apply wait_invariant_spawn; simpl; eauto; intros; exact I.
  - simpl in Hstep.
    destruct (w_store sys !! this) as [x|] eqn:Hx; simpl in Hstep; simplify_eq.
    split; [|eauto using task_step_refl].
    apply wait_invariant_spawn; simpl; eauto; intros; exact I.
  - simpl in Hstep.
    destruct (w_store sys !! this) as [x|] eqn:Hx; simpl in Hstep; simplify_eq.
    split; [|eauto using task_step_refl].
    apply wait_invariant_spawn; simpl; eauto; intros; exact I.
  - (* a step of thread i *)
    destruct (wait_step_threads i env sys sys' Hstep)
      as (th & s' & p' & Hth & Hts & Hs' & Hi' & Hj').
    destruct Hinv as (Hvalid & Hpc & Htask).
    destruct (Hvalid i th Hth) as [x Hx].
    destruct (wait_thread_step_sound _ _ _ _ _ _ _ _ Hx Hts (Hpc _ _ _ Hth Hx) (Htask _ _ Hx))
      as (x' & (Hx' & Hother & Hlen & _) & Hpc' & Htask' & Hint & Htr).
    assert (Hlook : ∀ t y, w_store sys !! t = Some y →
              ∃ y', s' !! t = Some y' ∧
                (t = w_callee th ∧ y = x ∧ y' = x' ∨ t ≠ w_callee th ∧ y' = y)).
    { intros t y Hy. destruct (decide (t = w_callee th)) as [->|Hne].
      - simplify_eq. eauto 10.
      - exists y. rewrite Hother by done. auto. }
    assert (Hold : ∀ j thj', w_threads sys' !! j = Some thj' →
              (j = i ∧ thj' = MkWaitThread (w_callee th) p') ∨
              (j ≠ i ∧ ∃ thj, w_threads sys !! j = Some thj ∧
                 w_callee thj' = w_callee thj ∧
                 (w_pc thj' = w_pc thj ∨ w_pc thj' = WA_woken))).
    { intros j thj' Hj. destruct (decide (j = i)) as [->|Hne].
      - left. split; [done|]. congruence.
      - right. split; [done|]. rewrite Hj' in Hj by done.
        destruct (w_threads sys !! j) as [thj|] eqn:Hjj; [|discriminate].
        simpl in Hj. simplify_eq. exists thj. split; [done|].
        destruct (notifies (w_pc th)); simpl; [|auto].
        rewrite wake_callee. split; [done|].
        destruct (wake_pc (w_callee th) thj) as [?|(_ & _ & ?)]; auto. }
    destruct sys' as [s'' ths']. simpl in Hs', Hi', Hj', Hold. subst s''.
    split; [split_and!|]; simpl.
    + intros j thj' Hj.
      assert (is_Some (w_store sys !! w_callee thj')) as [y Hy].
      { destruct (Hold _ _ Hj) as [[-> ->]|(_ & thj & Hjj & -> & _)]; simpl; eauto. }
      destruct (Hlook _ _ Hy) as (y' & Hy' & _). eauto.
    + intros j thj' y' Hj Hy'.
      destruct (Hold _ _ Hj) as [[-> ->]|(Hne & thj & Hjj & Hc & Hp)]; simpl in *.
      * now simplify_eq.
      * rewrite Hc in Hy'. destruct (Hvalid j thj Hjj) as [y Hy].
        assert (Hw : wait_pc_inv j (w_pc thj) (task_ y')).
        { destruct (Hlook _ _ Hy) as (y'' & Hy'' & [(Ht & -> & ->)|(Ht & ->)]); simplify_eq.
          - eapply wait_pc_inv_other; [| |eapply Hpc; eauto]; auto.
          - eauto. }
        destruct Hp as [->| ->]; [done|exact I].
    + intros t y' Hy'.
      assert (is_Some (w_store sys !! t)) as [y Hy].
      { apply lookup_lt_is_Some. rewrite <- Hlen. eapply lookup_lt_Some; eauto. }
      destruct (Hlook _ _ Hy) as (y'' & Hy'' & [(Ht & -> & ->)|(Ht & ->)]); simplify_eq; eauto.
    + intros t y Hy.
      destruct (Hlook _ _ Hy) as (y' & Hy' & [(Ht & -> & ->)|(Ht & ->)]);
        (eexists; split; [eassumption|]); [done|apply task_step_refl].
  - (* a spurious wake-up *)
    simpl in Hstep.
    destruct (w_threads sys !! i) as [th|] eqn:Hth; simpl in Hstep; [|discriminate].
    destruct (w_pc th) eqn:Hp; simplify_eq.
    destruct Hinv as (Hvalid & Hpc & Htask).
    assert (Hi : (i < length (w_threads sys))%nat) by (eapply lookup_lt_Some; eauto).
    split; [split_and!|]; simpl; eauto using task_step_refl.
    + intros j thj Hj. destruct (decide (j = i)) as [->|Hne].
      * rewrite list_lookup_insert_eq in Hj by done. simplify_eq. simpl. eauto.
      * rewrite list_lookup_insert_ne in Hj by done. eauto.
    + intros j thj y Hj Hy. destruct (decide (j = i)) as [->|Hne].
      * rewrite list_lookup_insert_eq in Hj by done. simplify_eq. exact I.
      * rewrite list_lookup_insert_ne in Hj by done. eauto.
Qed.

Lemma wait_run_sound acts sys sys' :
  wait_invariant sys → wait_run acts sys = Some sys' → wait_invariant sys'.
Proof.
  revert sys. induction acts as [|a acts IH]; intros sys Hinv Hrun.
  - cbn in Hrun. by simplify_eq.
  - cbn [wait_run] in Hrun.
    destruct (wait_step a sys) as [sys1|] eqn:Hstep; [|discriminate].
    simpl in Hrun. eapply IH; [|exact Hrun]. eapply wait_step_sound; eauto.
Qed.

Lemma wait_invariant_initial : wait_invariant (wait_initial (T := T) (Exn := Exn)).
Proof. split_and!; simpl; intros *; rewrite lookup_nil; discriminate. Qed.

Lemma wait_reachable_invariant sys : wait_reachable sys → wait_invariant sys.
Proof.
  intros [acts Hrun]. eapply wait_run_sound; [apply wait_invariant_initial|eauto].
Qed.

End Waiting.

(** ** The mutex of a task *)

Section Lock.
Context {T Exn : Type}.
Implicit Types (s : Store T Exn) (sys : WaitSys T Exn) (a : WaitAction T Exn).

Lemma holds_lock_pc_inv i (p : Pc Exn) (z : Task T Exn) :
  holds_lock p = true → pc_inv i p z → mutex_ z = Some i.
Proof. destruct p; simpl; try done; intros _ H; apply H. Qed.

Lemma wait_holds_lock_inv i (p : WaitPc Exn) (z : Task T Exn) :
  wait_holds_lock p = true → wait_pc_inv i p z → mutex_ z = Some i.
Proof.
  destruct p; simpl; try done.
  - apply holds_lock_pc_inv.
  - intros _ [[H _] _]. exact H.
  - intros _ [H _]. exact H.
  - intros _ [H _]. exact H.
  - intros _ [[H _] _]. exact H.
Qed.

(** X5.  In every system the machine with [Wait] can reach, a thread that
    is between the lock and the return of [TryExecute], or in [Wait]
    between taking the mutex and releasing it, owns the mutex of its task,
    and no other thread of [TryExecute] or [Wait] is at such a place of a
    call on the same task: the gate checks and the body of [TryExecute]
    and the predicate of [Wait] exclude one another on a task. *)
Theorem mutex_excludes sys i thi x :
  wait_reachable sys →
  w_threads sys !! i = Some thi → w_store sys !! w_callee thi = Some x →
  wait_holds_lock (w_pc thi) = true →
  mutex_ (task_ x) = Some i ∧
  ∀ j thj, w_threads sys !! j = Some thj → w_callee thj = w_callee thi → j ≠ i →
    wait_holds_lock (w_pc thj) = false.
Proof.
  intros Hreach Hi Hx Hh.
  destruct (wait_reachable_invariant _ Hreach) as (_ & Hpc & _).
  pose proof (wait_holds_lock_inv _ _ _ Hh (Hpc _ _ _ Hi Hx)) as Hm.
  split; [done|]. intros j thj Hj Hc Hne.
  destruct (wait_holds_lock (w_pc thj)) eqn:Hhj; [|done].
  rewrite <- Hc in Hx.
  pose proof (wait_holds_lock_inv _ _ _ Hhj (Hpc _ _ _ Hj Hx)) as Hmj. congruence.
Qed.
End Lock.

(** ** The wake-ups of [TryExecute] *)

Section Wakeups.
Context {T Exn : Type}.
Implicit Types (s : Store T Exn) (sys : WaitSys T Exn) (a : WaitAction T Exn).
Implicit Types (x : Future T Exn) (p : WaitPc Exn) (th : WaitThread Exn).

(** What a step of a thread does to the state of its task, and where the
    places of [Wait] and of [notify_all] are entered from. *)
Lemma wait_thread_step_facts i env this p s s' p' x :
  s !! this = Some x →
  wait_thread_step i env this p s = Some (s', p') →
  ∃ x', s' !! this = Some x' ∧ (∀ t, t ≠ this → s' !! t = s !! t) ∧
    (state_ (task_ x') = state_ (task_ x) ∨
     ((state_ (task_ x') = Completed ∨ state_ (task_ x') = Failed) ∧
      about_to_notify p' = true ∧
      ∀ z : Task T Exn, wait_pc_inv i p z → mutex_ z = Some i) ∨
     state_ (task_ x') = Running ∨ state_ (task_ x') = Canceled) ∧
    (p' = WA_wait → p = WA_pred ∧ IsFinished (task_ x) = false ∧
                    state_ (task_ x') = state_ (task_ x)) ∧
    (p' = WA_asleep → p = WA_wait ∧ state_ (task_ x') = state_ (task_ x)) ∧
    (about_to_notify p = true → about_to_notify p' = true ∨ notifies p = true) ∧
    (p' = CA_notify_all → ∃ st, p = In_call (CA_cas st) ∧ state_ (task_ x) = st) ∧
    (notifies p = true → p' ≠ WA_asleep).
Proof.
  intros Hx Hstep. unfold wait_thread_step in Hstep. rewrite Hx in Hstep.
  assert (Hne : ∀ (f : Future T Exn → Future T Exn) t, t ≠ this →
            update f this s !! t = s !! t).
  { intros f t Ht. apply lookup_update_ne. done. }
  destruct p as [p0| | | | | | | | |]; simpl in Hstep.
  - destruct (thread_step i env this p0 s) as [[s1 p1]|] eqn:Hts; [|discriminate].
    simplify_eq. unfold thread_step in Hts. rewrite Hx in Hts.
    destruct p0; simpl in Hts;
      repeat (match type of Hts with
              | context [match ?b with _ => _ end] => destruct b eqn:?
              end; simpl in Hts); simplify_eq;
      try (eexists; split; [rewrite lookup_update_eq, Hx; reflexivity|];
           split; [auto|]; simpl; split_and!; auto; try done; intros; done);
      try (exists x; split; [done|]; split; [auto|]; simpl; split_and!; auto; try done;
           intros; done);
      try (eexists; split; [rewrite lookup_update_eq, Hx; reflexivity|];
           split; [auto|]; simpl; split_and!; try done;
           right; left; split_and!; auto; intros z [? ?]; done).
    eexists; split; [rewrite lookup_update_eq, Hx; reflexivity|].
    split; [auto|]. simpl. split_and!; auto; try done.
    intros _. eexists. split; [done|].
    apply andb_true_iff in Heqb as [Hb _]. by apply bool_decide_eq_true in Hb.
  - simplify_eq. exists x. split; [done|]. split; [auto|]. simpl. split_and!; auto; done.
  - simplify_eq. exists x. split; [done|]. split; [auto|]. simpl. split_and!; auto; done.
  - destruct (mutex_ (task_ x)); simplify_eq.
    eexists; split; [rewrite lookup_update_eq, Hx; reflexivity|].
    split; [auto|]. simpl. split_and!; auto; done.
  - simplify_eq. exists x. split; [done|]. split; [auto|].
    destruct (IsFinished (task_ x)) eqn:Hf; simpl; split_and!; auto; done.
  - simplify_eq.
    eexists; split; [rewrite lookup_update_eq, Hx; reflexivity|].
    split; [auto|]. simpl. split_and!; auto; done.
  - discriminate.
  - destruct (mutex_ (task_ x)); simplify_eq.
    eexists; split; [rewrite lookup_update_eq, Hx; reflexivity|].
    split; [auto|]. simpl. split_and!; auto; done.
  - simplify_eq.
    eexists; split; [rewrite lookup_update_eq, Hx; reflexivity|].
    split; [auto|]. simpl. split_and!; auto; done.
  - discriminate.
Qed.

Lemma wake_not_asleep t th : w_pc th ≠ WA_asleep → wake t th = th.
Proof. unfold wake. destruct (w_pc th); done. Qed.

Lemma wake_other t th : w_callee th ≠ t → wake t th = th.
Proof.
  intros Hne. unfold wake. destruct (w_pc th); try done.
  now rewrite bool_decide_eq_false_2.
Qed.

Lemma wake_hit t th :
  w_pc th = WA_asleep → w_callee th = t → w_pc (wake t th) = WA_woken.
Proof. intros Hp Hc. unfold wake. rewrite Hp. now rewrite bool_decide_eq_true_2. Qed.

Lemma about_to_notify_awake p : about_to_notify p = true → p ≠ WA_asleep.
Proof. destruct p; done. Qed.

Lemma wake_invariant_ext sys s' :
  wait_invariant sys → wake_invariant sys →
  (∀ t x, w_store sys !! t = Some x →
     ∃ x', s' !! t = Some x' ∧ state_ (task_ x') = state_ (task_ x)) →
  wake_invariant (MkWaitSys s' (w_threads sys)).
Proof.
  intros (Hvalid & _) Hwake Hs i th x' Hth Hx'. simpl in *.
  destruct (Hvalid i th Hth) as [x Hx].
  destruct (Hs _ _ Hx) as (x'' & Hx'' & Hst). simplify_eq.
  specialize (Hwake i th x Hth Hx). rewrite Hst. exact Hwake.
Qed.

Lemma wake_invariant_spawn sys th :
  wake_invariant sys →
  w_pc th ≠ WA_wait → w_pc th ≠ WA_asleep →
  wake_invariant (MkWaitSys (w_store sys) (w_threads sys ++ [th])).
Proof.
  intros Hwake H1 H2 i thi x Hi Hx. simpl in *.
  apply lookup_app_Some in Hi as [Hi|[_ Hi]].
  - specialize (Hwake i thi x Hi Hx). destruct (w_pc thi); try done.
    destruct Hwake as [?|(j & thj & Hj & Hc & Hn)]; [now left|right].
    exists j. exists thj. split; [now apply lookup_app_l_Some|done].
  - apply list_lookup_singleton_Some in Hi as [_ <-]. destruct (w_pc th); done.
Qed.

Lemma wake_step a sys sys' :
  wait_invariant sys → wake_invariant sys → wait_step a sys = Some sys' →
  wake_invariant sys'.
Proof.
  intros Hinv Hwake Hstep.
  destruct a as [init fn now|this dep|this dep|this at_|this|this|this|k env|k].
  - simpl in Hstep. simplify_eq. apply wake_invariant_ext; [done..|].
    intros t x Hx. exists x. split; [now apply lookup_app_l_Some|done].
  - simpl in Hstep.
    destruct (locked_write _ _ _) as [s'|] eqn:Hw; simpl in Hstep; simplify_eq.
    apply wake_invariant_ext; [done..|]. intros t x Hx.
    edestruct (locked_write_sound _ _ _ _ Hw) as (x' & Hx' & Hst & _);
      [done|exact Hx|]. eauto.
  - simpl in Hstep.
    destruct (locked_write _ _ _) as [s'|] eqn:Hw; simpl in Hstep; simplify_eq.
    apply wake_invariant_ext; [done..|]. intros t x Hx.
    edestruct (locked_write_sound _ _ _ _ Hw) as (x' & Hx' & Hst & _);
      [done|exact Hx|]. eauto.
  - simpl in Hstep.
    destruct (locked_write _ _ _) as [s'|] eqn:Hw; simpl in Hstep; simplify_eq.
    apply wake_invariant_ext; [done..|]. intros t x Hx.
    edestruct (locked_write_sound _ _ _ _ Hw) as (x' & Hx' & Hst & _);
      [done|exact Hx|]. eauto.
  - simpl in Hstep.
    destruct (w_store sys !! this) as [x|] eqn:Hx; simpl in Hstep; simplify_eq.
    now apply wake_invariant_spawn.
  - simpl in Hstep.
    destruct (w_store sys !! this) as [x|] eqn:Hx; simpl in Hstep; simplify_eq.
    now apply wake_invariant_spawn.
  - simpl in Hstep.
    destruct (w_store sys !! this) as [x|] eqn:Hx; simpl in Hstep; simplify_eq.
    now apply wake_invariant_spawn.
  - (* a step of thread k *)
    destruct (wait_step_threads k env sys sys' Hstep)
      as (th & s' & p' & Hth & Hts & Hs' & Hk' & Hj').
    destruct Hinv as (Hvalid & Hpc & Htask).
    destruct (Hvalid k th Hth) as [x Hx].
    destruct (wait_thread_step_facts _ _ _ _ _ _ _ _ Hx Hts)
      as (x' & Hx' & Hother & F1 & F2 & F3 & F4 & _ & _).
    destruct sys' as [s'' ths']. simpl in Hs', Hk', Hj'. subst s''.
    intros j thj' y' Hj Hy'. simpl in Hj, Hy'.
    destruct (decide (j = k)) as [->|Hne].
    + (* the thread that moved *)
      rewrite Hk' in Hj. simplify_eq. simpl in *. simplify_eq.
      destruct p'; try done.
      * destruct (F2 eq_refl) as (_ & Hf & Hst). rewrite Hst.
        unfold IsFinished in Hf. destruct (state_ (task_ x)); done.
      * destruct (F3 eq_refl) as (Hp & Hst). rewrite Hst. left.
        specialize (Hwake k th x Hth Hx). now rewrite Hp in Hwake.
    + (* another thread *)
      rewrite Hj' in Hj by done.
      destruct (w_threads sys !! j) as [thj|] eqn:Hjj; [|discriminate].
      simpl in Hj. injection Hj as Hj.
      set (f := if notifies (w_pc th) then wake (w_callee th) else id) in *.
      assert (Hc : w_callee thj' = w_callee thj).
      { rewrite <- Hj. unfold f. destruct (notifies (w_pc th)); [apply wake_callee|done]. }
      assert (Hp : w_pc thj' = w_pc thj ∨ w_pc thj' = WA_woken).
      { rewrite <- Hj. unfold f. destruct (notifies (w_pc th)); [|now left].
        destruct (wake_pc (w_callee th) thj) as [?|(_ & _ & ?)]; auto. }
      destruct Hp as [Hp|Hp]; [|now rewrite Hp].
      rewrite Hp, Hc in *.
      destruct (Hvalid j thj Hjj) as [y Hy].
      specialize (Hwake j thj y Hjj Hy).
      pose proof (Hpc j thj y Hjj Hy) as Hpcj.
      (* the state of the task of [thj] after the step *)
      assert (Hstate : state_ (task_ y') = state_ (task_ y) ∨
                (w_callee thj = w_callee th ∧ y = x ∧
                 ((state_ (task_ y') = Completed ∨ state_ (task_ y') = Failed) ∧
                  about_to_notify p' = true ∧ mutex_ (task_ x) = Some k)) ∨
                (state_ (task_ y') = Running ∨ state_ (task_ y') = Canceled)).
      { destruct (decide (w_callee thj = w_callee th)) as [Heq|Hneq].
        - rewrite Heq in Hy, Hy'. simplify_eq.
          destruct F1 as [?|[(? & ? & Hm)|?]]; auto.
          right; left. split_and!; auto.
        - rewrite Hother in Hy' by done. left. congruence. }
      destruct (w_pc thj) eqn:Hpj; try done.
      * (* about to sleep: it holds the mutex *)
        destruct Hstate as [->|[(Heq & -> & _ & _ & Hm)|[->| ->]]]; try done.
        simpl in Hpcj. destruct Hpcj as [Hmj _]. congruence.
      * (* asleep *)
        assert (Hwitness : about_to_notify p' = true → w_callee thj = w_callee th →
                  ∃ j0 thj0, ths' !! j0 = Some thj0 ∧ w_callee thj0 = w_callee thj ∧
                    about_to_notify (w_pc thj0) = true).
        { intros Hn Heq. exists k. eexists. split; [exact Hk'|]. simpl. auto. }
        destruct Hwake as [Hleft|(j2 & thj2 & Hj2 & Hc2 & Hn2)].
        -- destruct Hstate as [->|[(Heq & -> & _ & Hn & _)|[->| ->]]];
             [now left|right; auto|left; done|left; done].
        -- right. destruct (decide (j2 = k)) as [->|Hne2].
           ++ assert (thj2 = th) as -> by congruence.
              destruct (F4 Hn2) as [Hn|Hn]; [auto|].
              exfalso. unfold f in Hj. rewrite Hn in Hj.
              pose proof (wake_hit (w_callee th) thj Hpj (eq_sym Hc2)) as Hwoken.
              rewrite Hj in Hwoken. congruence.
           ++ exists j2. exists thj2. split; [|done].
              rewrite Hj' by done. rewrite Hj2. simpl. f_equal.
              unfold f. destruct (notifies (w_pc th)); [|done].
              apply wake_not_asleep. now apply about_to_notify_awake.
  - (* a spurious wake-up *)
    simpl in Hstep.
    destruct (w_threads sys !! k) as [th|] eqn:Hth; simpl in Hstep; [|discriminate].
    destruct (w_pc th) eqn:Hp; simplify_eq.
    assert (Hk : (k < length (w_threads sys))%nat) by (eapply lookup_lt_Some; eauto).
    intros j thj y Hj Hy. simpl in *.
    destruct (decide (j = k)) as [->|Hne].
    + rewrite list_lookup_insert_eq in Hj by done. by simplify_eq.
    + rewrite list_lookup_insert_ne in Hj by done.
      specialize (Hwake j thj y Hj Hy). destruct (w_pc thj); try done.
      destruct Hwake as [?|(j2 & thj2 & Hj2 & Hc2 & Hn2)]; [now left|right].
      exists j2. exists thj2. split; [|done].
      rewrite list_lookup_insert_ne; [done|]. intros ->. simplify_eq.
      rewrite Hp in Hn2. done.
Qed.

Lemma wake_run acts sys sys' :
  wait_invariant sys → wake_invariant sys → wait_run acts sys = Some sys' →
  wake_invariant sys'.
Proof.
  revert sys. induction acts as [|a acts IH]; intros sys Hinv Hwake Hrun.
  - cbn in Hrun. by simplify_eq.
  - cbn [wait_run] in Hrun.
    destruct (wait_step a sys) as [sys1|] eqn:Hstep; [|discriminate].
    simpl in Hrun. eapply IH; [| |exact Hrun].
    + eapply wait_step_sound; eauto.
    + eapply wake_step; eauto.
Qed.

(** X16.  [Wait] returns on a finished task only; and the wake-ups of
    [TryExecute] are not lost.  In every system the machine with [Wait] can
    reach: a thread that has left the wait of [Wait] is on a finished task;
    and when a thread sleeps in [Wait] on a task that is [Completed] or
    [Failed], a thread of [TryExecute] on that task holds the mutex and has
    [cv_.notify_all()] ahead of it. *)
Theorem TryExecute_wakes_waiters sys i th x :
  wait_reachable sys →
  w_threads sys !! i = Some th → w_store sys !! w_callee th = Some x →
  (w_pc th = WA_unlock ∨ w_pc th = WA_done →
   IsFinished (task_ x) = true ∧ Wait (Exn := Exn) (task_ x) = Returned tt) ∧
  (w_pc th = WA_asleep →
   state_ (task_ x) = Completed ∨ state_ (task_ x) = Failed →
   ∃ j thj, w_threads sys !! j = Some thj ∧ w_callee thj = w_callee th ∧
            about_to_notify (w_pc thj) = true ∧ mutex_ (task_ x) = Some j).
Proof.
  intros Hreach Hth Hx.
  pose proof (wait_reachable_invariant _ Hreach) as Hinv.
  assert (Hwake : wake_invariant sys).
  { destruct Hreach as [acts Hrun].
    eapply wake_run; [apply wait_invariant_initial| |exact Hrun].
    intros j thj y Hj. simpl in Hj. rewrite lookup_nil in Hj. discriminate. }
  destruct Hinv as (Hvalid & Hpc & Htask). split.
  - intros Hp. pose proof (Hpc i th x Hth Hx) as Hi.
    assert (Hf : IsFinished (task_ x) = true).
    { destruct Hp as [Hp|Hp]; rewrite Hp in Hi; simpl in Hi; [apply Hi|exact Hi]. }
    split; [done|]. unfold Wait. now rewrite Hf.
  - intros Hp Hst. specialize (Hwake i th x Hth Hx). rewrite Hp in Hwake.
    destruct Hwake as [[H1 H2]|(j & thj & Hj & Hc & Hn)].
    { destruct Hst; done. }
    exists j. exists thj. split_and!; auto.
    pose proof (Hpc j thj x Hj) as Hpj. rewrite Hc in Hpj. specialize (Hpj Hx).
    destruct (w_pc thj) as [p0| | | | | | | | |]; simpl in Hn; try done.
    + destruct p0; simpl in Hn; try done. apply Hpj.
    + apply Hpj.
Qed.
End Wakeups.

(** ** A wake-up of [Cancel] that is lost *)

Section LostWakeup.
Context {T Exn : Type}.
Implicit Types (s : Store T Exn) (sys : WaitSys T Exn) (a : WaitAction T Exn).
Implicit Types (x : Future T Exn) (p : WaitPc Exn) (th : WaitThread Exn).

Lemma wait_thread_step_asleep i env this s :
  wait_thread_step (T := T) (Exn := Exn) i env this WA_asleep s = None.
Proof. unfold wait_thread_step. destruct (s !! this); done. Qed.

Lemma sleeps_step i t a sys sys' :
  wait_invariant sys → sleeps_on_canceled i t sys → not_spurious i a = true →
  wait_step a sys = Some sys' →
  sleeps_on_canceled i t sys'.
Proof.
  intros Hinv (Hi & (x & Hx & Hst) & Hno) Hsp Hstep.
  destruct (wait_step_sound a sys sys' Hinv Hstep) as [Hinv' Hts].
  destruct (Hts t x Hx) as (x' & Hx' & Htask).
  assert (Hst' : state_ (task_ x') = Canceled).
  { rewrite (task_step_terminal _ _ Htask); [done|]. unfold IsFinished. now rewrite Hst. }
  assert (Hspawn : ∀ th, w_pc th ≠ CA_notify_all →
            sys' = MkWaitSys (w_store sys) (w_threads sys ++ [th]) →
            sleeps_on_canceled i t sys').
  { intros th Hp ->. split_and!; simpl in *; [now apply lookup_app_l_Some|eauto|].
    intros k thk Hk Hc. apply lookup_app_Some in Hk as [Hk|[_ Hk]]; [eauto|].
    apply list_lookup_singleton_Some in Hk as [_ <-]. done. }
  destruct a as [init fn now|this dep|this dep|this at_|this|this|this|k env|k];
    simpl in Hstep.
  - simplify_eq. split_and!; simpl in *; eauto.
  - destruct (locked_write _ _ _) as [s'|] eqn:Hw; simpl in Hstep; simplify_eq.
    split_and!; simpl in *; eauto.
  - destruct (locked_write _ _ _) as [s'|] eqn:Hw; simpl in Hstep; simplify_eq.
    split_and!; simpl in *; eauto.
  - destruct (locked_write _ _ _) as [s'|] eqn:Hw; simpl in Hstep; simplify_eq.
    split_and!; simpl in *; eauto.
  - destruct (w_store sys !! this) as [y|] eqn:Hy; simpl in Hstep; simplify_eq.
    eapply Hspawn; [|reflexivity]. done.
  - destruct (w_store sys !! this) as [y|] eqn:Hy; simpl in Hstep; simplify_eq.
    eapply Hspawn; [|reflexivity]. done.
  - destruct (w_store sys !! this) as [y|] eqn:Hy; simpl in Hstep; simplify_eq.
    eapply Hspawn; [|reflexivity]. done.
  - (* a step of thread k *)
    assert (Hstep' : wait_step (WAct_step k env) sys = Some sys') by exact Hstep.
    destruct (wait_step_threads k env sys sys' Hstep')
      as (th & s' & p' & Hth & Hstp & Hs' & Hk' & Hj').
    destruct (decide (k = i)) as [->|Hne].
    { rewrite Hi in Hth. simplify_eq. simpl in Hstp.
      now rewrite wait_thread_step_asleep in Hstp. }
    destruct Hinv as (Hvalid & Hpc & _).
    destruct (Hvalid k th Hth) as [y Hy].
    destruct (wait_thread_step_facts _ _ _ _ _ _ _ _ Hy Hstp)
      as (y' & Hy' & Hother & _ & _ & _ & _ & F5 & _).
    (* no notify_all on [t] in this step *)
    assert (Hquiet : notifies (w_pc th) = true → w_callee th ≠ t).
    { intros Hn Hc. pose proof (Hpc k th y Hth Hy) as Hpk.
      rewrite Hc in Hy. simplify_eq.
      destruct (w_pc th) eqn:Hp; simpl in Hn; try done.
      - simpl in Hpk. destruct Hpk as [_ [?|?]]; congruence.
      - eapply Hno; eauto. }
    assert (Hsame : ∀ thj, w_callee thj = t →
              (if notifies (w_pc th) then wake (Exn := Exn) (w_callee th) else id) thj
              = thj).
    { intros thj Hc. destruct (notifies (w_pc th)) eqn:Hn; [|done].
      apply wake_other. rewrite Hc. intros Heq. now apply Hquiet. }
    split_and!.
    + rewrite Hj' by done. rewrite Hi. simpl. f_equal. now apply Hsame.
    + eauto.
    + intros j thj' Hj Hc. destruct (decide (j = k)) as [->|Hnej].
      * rewrite Hk' in Hj. simplify_eq. simpl in *. intros Hp'.
        destruct (F5 Hp') as (st & Hp & Hsty).
        pose proof (Hpc k th y Hth Hy) as Hpk. rewrite Hp in Hpk. simpl in Hpk.
        simplify_eq. congruence.
      * rewrite Hj' in Hj by done.
        destruct (w_threads sys !! j) as [thj|] eqn:Hjj; [|discriminate].
        simpl in Hj. injection Hj as Hj.
        assert (Hcj : w_callee thj = t).
        { rewrite <- Hc, <- Hj. destruct (notifies (w_pc th)); [|done].
          now rewrite wake_callee. }
        rewrite Hsame in Hj by done. subst thj'. eauto.
  - (* a spurious wake-up of another thread *)
    destruct (w_threads sys !! k) as [th|] eqn:Hth; simpl in Hstep; [|discriminate].
    destruct (w_pc th) eqn:Hp; simplify_eq.
    simpl in Hsp. apply negb_true_iff, bool_decide_eq_false in Hsp.
    assert (Hk : (k < length (w_threads sys))%nat) by (eapply lookup_lt_Some; eauto).
    split_and!; simpl in *; eauto.
    + now rewrite list_lookup_insert_ne.
    + intros j thj Hj Hc. destruct (decide (j = k)) as [->|Hnej].
      * rewrite list_lookup_insert_eq in Hj by done. by simplify_eq.
      * rewrite list_lookup_insert_ne in Hj by done. eauto.
Qed.

Lemma sleeps_run i t acts sys sys' :
  wait_invariant sys → sleeps_on_canceled i t sys →
  Forall (λ a, not_spurious i a = true) acts →
  wait_run acts sys = Some sys' →
  sleeps_on_canceled i t sys'.
Proof.
  revert sys. induction acts as [|a acts IH]; intros sys Hinv Hs Hall Hrun.
  - cbn in Hrun. by simplify_eq.
  - apply Forall_cons in Hall as [Ha Hall]. cbn [wait_run] in Hrun.
    destruct (wait_step a sys) as [sys1|] eqn:Hstep; [|discriminate].
    simpl in Hrun. eapply IH; [| |exact Hall|exact Hrun].
    + eapply wait_step_sound; eauto.
    + eapply sleeps_step; eauto.
Qed.

Lemma wait_step_at i env sys th s' p' :
  w_threads sys !! i = Some th →
  wait_thread_step i env (w_callee th) (w_pc th) (w_store sys) = Some (s', p') →
  wait_step (WAct_step i env) sys =
    Some (MkWaitSys s'
            (if notifies (w_pc th)
             then wake (w_callee th) <$> <[i := MkWaitThread (w_callee th) p']> (w_threads sys)
             else <[i := MkWaitThread (w_callee th) p']> (w_threads sys))).
Proof. intros Hth Hts. simpl. rewrite Hth. simpl. rewrite Hts. done. Qed.

Lemma insert_last {A} (l : list A) (a b : A) :
  <[length l := b]> (l ++ [a]) = l ++ [b].
Proof.
  rewrite insert_app_r_alt by lia. now rewrite Nat.sub_diag.
Qed.

(** [Cancel] in the window of [Wait]: thread [i] has found the task not
    finished and has [cv_.wait] ahead; a new thread runs [Cancel] from entry
    to exit; then thread [i] goes to sleep. *)
Lemma cancel_in_window sys i t x now :
  wait_invariant sys →
  w_threads sys !! i = Some (MkWaitThread t WA_wait) →
  w_store sys !! t = Some x → state_ (task_ x) = Pending →
  ∃ sys',
    wait_run [WAct_Cancel t;
              WAct_step (length (w_threads sys)) (MkEnv now false);
              WAct_step (length (w_threads sys)) (MkEnv now false);
              WAct_step (length (w_threads sys)) (MkEnv now false);
              WAct_step i (MkEnv now false)] sys = Some sys' ∧
    sleeps_on_canceled i t sys'.
Proof.
  intros (Hvalid & Hpc & _) Hi Hx Hst.
  set (j := length (w_threads sys)). set (env := MkEnv now false).
  set (ths := w_threads sys) in *. set (s := w_store sys) in *.
  assert (Hij : (i < j)%nat) by (eapply lookup_lt_Some; eauto).
  cbn [wait_run].
  (* Cancel is called *)
  assert (H0 : wait_step (WAct_Cancel t) sys =
            Some (MkWaitSys s (ths ++ [MkWaitThread t (In_call CA_load)]))).
  { simpl. fold s. rewrite Hx. done. }
  rewrite H0. cbn [mbind option_bind].
  (* state_.load() *)
  erewrite wait_step_at; cycle 1.
  { simpl. apply list_lookup_middle. done. }
  { simpl. unfold wait_thread_step. rewrite Hx. unfold thread_step. rewrite Hx. simpl.
    rewrite Hst. simpl. reflexivity. }
  cbn [mbind option_bind notifies w_pc w_callee w_threads].
  unfold j, ths. rewrite insert_last. fold ths. fold j.
  (* the compare-and-exchange succeeds *)
  erewrite wait_step_at; cycle 1.
  { simpl. apply list_lookup_middle. done. }
  { simpl. unfold wait_thread_step. rewrite Hx. unfold thread_step. rewrite Hx. simpl.
    rewrite Hst. simpl. reflexivity. }
  cbn [mbind option_bind notifies w_pc w_callee w_threads after_call].
  unfold j, ths. rewrite insert_last. fold ths. fold j.
  (* notify_all: thread i is not asleep yet *)
  assert (Hx1 : update (set_state Canceled) t s !! t = Some (set_state Canceled x)).
  { now rewrite lookup_update_eq, Hx. }
  erewrite wait_step_at; cycle 1.
  { simpl. apply list_lookup_middle. done. }
  { simpl. unfold wait_thread_step. rewrite Hx1. reflexivity. }
  cbn [mbind option_bind notifies w_pc w_callee w_threads].
  unfold j, ths. rewrite insert_last. fold ths. fold j.
  (* thread i goes to sleep *)
  erewrite wait_step_at; cycle 1.
  { simpl. rewrite list_lookup_fmap, lookup_app_l by done. rewrite Hi. simpl.
    reflexivity. }
  { simpl. unfold wait_thread_step. rewrite Hx1. reflexivity. }
  cbn [mbind option_bind notifies w_pc w_callee w_threads wake].
  eexists. split; [reflexivity|].
  split_and!; simpl.
  - apply list_lookup_insert_eq. rewrite length_fmap, length_app. simpl. lia.
  - eexists. split; [rewrite lookup_update_eq, Hx1; reflexivity|]. done.
  - intros k th Hk Hc Hp. destruct (decide (k = i)) as [->|Hne].
    + rewrite list_lookup_insert_eq in Hk
        by (rewrite length_fmap, length_app; simpl; lia).
      injection Hk as <-. simpl in Hp. done.
    + rewrite list_lookup_insert_ne in Hk by done.
      rewrite list_lookup_fmap in Hk.
      destruct ((ths ++ [MkWaitThread t (In_call Done)]) !! k) as [th0|] eqn:Hk0;
        [|discriminate].
      simpl in Hk. injection Hk as Hk.
      assert (Hp0 : w_pc th0 = CA_notify_all).
      { destruct (wake_pc t th0) as [Hw|(_ & _ & Hw)]; rewrite Hk in Hw; congruence. }
      assert (Hc0 : w_callee th0 = t).
      { rewrite <- Hc, <- Hk. now rewrite wake_callee. }
      apply lookup_app_Some in Hk0 as [Hk0|[_ Hk0]].
      * pose proof (Hpc k th0 x Hk0) as Hpk. rewrite Hc0 in Hpk. specialize (Hpk Hx).
        rewrite Hp0 in Hpk. simpl in Hpk. congruence.
      * apply list_lookup_singleton_Some in Hk0 as [_ <-]. done.
Qed.

(** X17.  A wake-up of [Cancel] can be lost.  A thread in [Wait] has found
    the task not finished and has [cv_.wait] ahead, the task being
    [Pending].  Then [Cancel], run from entry to exit by another thread,
    leaves the task [Canceled] with its [notify_all] spent; the first
    thread goes to sleep, and over every further run in which it is not
    woken spuriously it is still asleep, on a task on which [Wait] called
    afresh returns. *)
Theorem Cancel_wakeup_lost sys i th x now :
  wait_reachable sys →
  w_threads sys !! i = Some th → w_pc th = WA_wait →
  w_store sys !! w_callee th = Some x → state_ (task_ x) = Pending →
  ∃ sys',
    wait_run [WAct_Cancel (w_callee th);
              WAct_step (length (w_threads sys)) (MkEnv now false);
              WAct_step (length (w_threads sys)) (MkEnv now false);
              WAct_step (length (w_threads sys)) (MkEnv now false);
              WAct_step i (MkEnv now false)] sys = Some sys' ∧
    ∀ acts sys'',
      Forall (λ a, not_spurious i a = true) acts →
      wait_run acts sys' = Some sys'' →
      w_threads sys'' !! i = Some (MkWaitThread (w_callee th) WA_asleep) ∧
      ∃ x'', w_store sys'' !! w_callee th = Some x'' ∧
             state_ (task_ x'') = Canceled ∧
             Wait (Exn := Exn) (task_ x'') = Returned tt.
Proof.
  intros Hreach Hth Hp Hx Hst.
  pose proof (wait_reachable_invariant _ Hreach) as Hinv.
  destruct th as [t p]. simpl in *. subst p.
  destruct (cancel_in_window sys i t x now Hinv Hth Hx Hst) as (sys' & Hrun & Hs).
  exists sys'. split; [exact Hrun|].
  intros acts sys'' Hall Hrun'.
  assert (Hinv' : wait_invariant sys') by (eapply wait_run_sound; eauto).
  destruct (sleeps_run i t acts sys' sys'' Hinv' Hs Hall Hrun')
    as (Hi'' & (x'' & Hx'' & Hst'') & _).
  split; [done|]. exists x''. split_and!; auto.
  unfold Wait, IsFinished. now rewrite Hst''.
Qed.
End LostWakeup.

(** ** What [TryExecute] waits for, and [WhenFirst] *)

Section Blocking.
Context {T Exn : Type}.
Implicit Types (s : Store T Exn) (sys : WaitSys T Exn) (a : WaitAction T Exn).
Implicit Types (x : Future T Exn) (th : WaitThread Exn).

Lemma scan_pc_ext (p : WaitPc Exn) (z z' : Task T Exn) :
  dependencies_ z' = dependencies_ z → triggers_ z' = triggers_ z →
  scan_pc p z → scan_pc p z'.
Proof.
  intros Hd Ht. destruct p as [p0| | | | | | | | |]; simpl; auto.
  destruct p0; simpl; auto; now rewrite ?Hd, ?Ht.
Qed.

(** A setter writes a task no thread is scanning: the scanning thread
    holds the mutex. *)
Lemma scan_locked_write (f : Future T Exn → Future T Exn) this sys s' :
  wait_invariant sys → scan_invariant sys →
  locked_write f this (w_store sys) = Some s' →
  scan_invariant (MkWaitSys s' (w_threads sys)).
Proof.
  intros (Hvalid & Hpc & _) Hscan Hw i th x' Hth Hx'. simpl in *.
  unfold locked_write in Hw.
  destruct (w_store sys !! this) as [y|] eqn:Hy; [|discriminate].
  destruct (mutex_ (task_ y)) eqn:Hm; simplify_eq.
  destruct (decide (w_callee th = this)) as [Hc|Hc].
  - pose proof Hy as Hy'. rewrite <- Hc in Hy'.
    pose proof (Hpc _ _ _ Hth Hy') as Hinv.
    destruct (w_pc th) as [p0| | | | | | | | |]; try exact I.
    destruct p0; try exact I; simpl in Hinv; destruct Hinv as [Hinv _]; congruence.
  - rewrite lookup_update_ne in Hx' by done. eauto.
Qed.

Lemma scan_spawn sys th :
  wait_invariant sys → scan_invariant sys →
  (∀ z : Task T Exn, scan_pc (w_pc th) z) →
  scan_invariant (MkWaitSys (w_store sys) (w_threads sys ++ [th])).
Proof.
  intros _ Hscan Hnew i th' x Hth Hx. simpl in *.
  apply lookup_app_Some in Hth as [Hth|[_ Hth]]; [eauto|].
  apply list_lookup_singleton_Some in Hth as [_ <-]. apply Hnew.
Qed.

(** The place a scanning thread gets to. *)
Lemma scan_thread_step i env this p0 s s' p' x :
  s !! this = Some x →
  thread_step i env this p0 s = Some (s', p') →
  scan_pc (In_call p0) (task_ x) →
  scan_pc (after_call p0 p') (task_ x).
Proof.
  intros Hx Hts Hscan. unfold thread_step in Hts. rewrite Hx in Hts.
  destruct p0; simpl in Hts, Hscan;
    repeat (match type of Hts with
            | context [match ?b with _ => _ end] => destruct b eqn:?
            end; simpl in Hts); simplify_eq; simpl; try exact I.
  - now exists [].
  - now exists [].
  - destruct Hscan as [seen ->]. eexists (seen ++ [_]). rewrite <- app_assoc. reflexivity.
  - destruct Hscan as [seen ->]. eexists (seen ++ [_]). rewrite <- app_assoc. reflexivity.
Qed.

Lemma scan_step a sys sys' :
  wait_invariant sys → scan_invariant sys → wait_step a sys = Some sys' →
  scan_invariant sys'.
Proof.
  intros Hinv Hscan Hstep.
  destruct a as [init fn now|this dep|this dep|this at_|this|this|this|i env|i].
  - simpl in Hstep. simplify_eq. destruct Hinv as (Hvalid & _ & _).
    intros i th x' Hth Hx'. simpl in *.
    destruct (Hvalid i th Hth) as [x Hx].
    rewrite (lookup_app_l_Some _ _ _ _ Hx) in Hx'. simplify_eq. eauto.
  - simpl in Hstep.
    destruct (locked_write _ _ _) as [s'|] eqn:Hw; simpl in Hstep; simplify_eq.
    eapply scan_locked_write; eauto.
  - simpl in Hstep.
    destruct (locked_write _ _ _) as [s'|] eqn:Hw; simpl in Hstep; simplify_eq.
    eapply scan_locked_write; eauto.
  - simpl in Hstep.
    destruct (locked_write _ _ _) as [s'|] eqn:Hw; simpl in Hstep; simplify_eq.
    eapply scan_locked_write; eauto.
  - simpl in Hstep.
    destruct (w_store sys !! this) as [x|] eqn:Hx; simpl in Hstep; simplify_eq.
    apply scan_spawn; auto. intros; exact I.
  - simpl in Hstep.
    destruct (w_store sys !! this) as [x|] eqn:Hx; simpl in Hstep; simplify_eq.
    apply scan_spawn; auto. intros; exact I.
  - simpl in Hstep.
    destruct (w_store sys !! this) as [x|] eqn:Hx; simpl in Hstep; simplify_eq.
    apply scan_spawn; auto. intros; exact I.
  - (* a step of thread i *)
    destruct (wait_step_threads i env sys sys' Hstep)
      as (th & s' & p' & Hth & Hts & Hs' & Hi' & Hj').
    destruct Hinv as (Hvalid & Hpc & Htask).
    destruct (Hvalid i th Hth) as [x Hx].
    destruct (wait_thread_step_sound _ _ _ _ _ _ _ _ Hx Hts (Hpc _ _ _ Hth Hx) (Htask _ _ Hx))
      as (x' & (Hx' & Hother & _ & _ & Hd & Ht & _) & _).
    destruct sys' as [s'' ths']. simpl in Hs', Hi', Hj'. subst s''.
    intros j thj' y' Hj Hy'. simpl in Hj, Hy'.
    destruct (decide (j = i)) as [->|Hne].
    + rewrite Hi' in Hj. simplify_eq. simpl in *.
      rewrite Hx' in Hy'. simplify_eq.
      apply (scan_pc_ext _ (task_ x)); [done..|].
      pose proof (Hscan _ _ _ Hth Hx) as Hsc.
      unfold wait_thread_step in Hts. rewrite Hx in Hts.
      destruct (w_pc th) as [p0| | | | | | | | |] eqn:Hp; simpl in Hts;
        try (simplify_eq; exact I).
      * destruct (thread_step i env (w_callee th) p0 (w_store sys)) as [[s1 p1]|] eqn:Hts0;
          [|discriminate].
        simplify_eq. eapply scan_thread_step; eauto.
      * destruct (mutex_ (task_ x)); simplify_eq. exact I.
      * simplify_eq. destruct (IsFinished (task_ x)); exact I.
      * destruct (mutex_ (task_ x)); simplify_eq. exact I.
    + rewrite Hj' in Hj by done.
      destruct (w_threads sys !! j) as [thj|] eqn:Hjj; [|discriminate].
      simpl in Hj. simplify_eq.
      assert (Hc : w_callee ((if notifies (w_pc th) then wake (Exn := Exn) (w_callee th) else id) thj)
                   = w_callee thj).
      { destruct (notifies (w_pc th)); [apply wake_callee|done]. }
      rewrite Hc in Hy'.
      assert (Hold : ∃ y, w_store sys !! w_callee thj = Some y ∧
                dependencies_ (task_ y') = dependencies_ (task_ y) ∧
                triggers_ (task_ y') = triggers_ (task_ y)).
      { destruct (decide (w_callee thj = w_callee th)) as [He|He].
        - rewrite He in Hy' |- *. exists x. rewrite Hx' in Hy'. by simplify_eq.
        - rewrite Hother in Hy' by done. eauto. }
      destruct Hold as (y & Hy & Hdy & Hty).
      assert (Hpc' : w_pc ((if notifies (w_pc th) then wake (Exn := Exn) (w_callee th) else id) thj)
                     = w_pc thj ∨
                     w_pc ((if notifies (w_pc th) then wake (Exn := Exn) (w_callee th) else id) thj)
                     = WA_woken).
      { destruct (notifies (w_pc th)); [|now left].
        destruct (wake_pc (w_callee th) thj) as [?|(_ & _ & ?)]; auto. }
      destruct Hpc' as [-> | ->]; [|exact I].
      apply (scan_pc_ext _ (task_ y)); [done..|]. eauto.
  - (* a spurious wake-up *)
    simpl in Hstep.
    destruct (w_threads sys !! i) as [th|] eqn:Hth; simpl in Hstep; [|discriminate].
    destruct (w_pc th) eqn:Hp; simplify_eq.
    assert (Hi : (i < length (w_threads sys))%nat) by (eapply lookup_lt_Some; eauto).
    intros j thj y Hj Hy. simpl in *. destruct (decide (j = i)) as [->|Hne].
    + rewrite list_lookup_insert_eq in Hj by done. simplify_eq. exact I.
    + rewrite list_lookup_insert_ne in Hj by done. eauto.
Qed.

Lemma scan_run acts sys sys' :
  wait_invariant sys → scan_invariant sys → wait_run acts sys = Some sys' →
  scan_invariant sys'.
Proof.
  revert sys. induction acts as [|a acts IH]; intros sys Hinv Hscan Hrun.
  - cbn in Hrun. by simplify_eq.
  - cbn [wait_run] in Hrun.
    destruct (wait_step a sys) as [sys1|] eqn:Hstep; [|discriminate].
    simpl in Hrun. eapply IH; [| |exact Hrun].
    + eapply wait_step_sound; eauto.
    + eapply scan_step; eauto.
Qed.

Lemma wait_reachable_scan sys : wait_reachable sys → scan_invariant sys.
Proof.
  intros [acts Hrun]. eapply scan_run; [apply wait_invariant_initial| |exact Hrun].
  intros i th x Hth. simpl in Hth. rewrite lookup_nil in Hth. discriminate.
Qed.

(** X18.  [TryExecute] waits for the mutex only.  In every system the
    machine with [Wait] can reach, a thread inside [TryExecute] on a task
    whose handles name objects, and that cannot take its next step, is at
    the lock and the mutex is taken, or is at the body, which blocks or
    leaves defined behaviour.  At every other place of [TryExecute] the
    thread can step, whatever the other threads do. *)
Theorem TryExecute_waits_for_the_mutex sys i th p0 x env :
  wait_reachable sys →
  w_threads sys !! i = Some th → w_pc th = In_call p0 → in_Cancel p0 = false →
  w_store sys !! w_callee th = Some x →
  handles_valid (heap (w_store sys)) (task_ x) →
  wait_step (WAct_step i env) sys = None →
  (p0 = TE_lock ∧ is_Some (mutex_ (task_ x))) ∨
  (p0 = TE_run ∧
   (fn_ x (heap (w_store sys)) = Blocked ∨ fn_ x (heap (w_store sys)) = Undefined)).
Proof.
  intros Hreach Hth Hp Hin Hx Hv Hstep.
  pose proof (wait_reachable_scan _ Hreach _ _ _ Hth Hx) as Hscan.
  simpl in Hstep. rewrite Hth in Hstep. simpl in Hstep.
  destruct (wait_thread_step i env (w_callee th) (w_pc th) (w_store sys)) as [r|] eqn:Hts;
    [discriminate|]. clear Hstep.
  unfold wait_thread_step in Hts. rewrite Hx, Hp in Hts. rewrite Hp in Hscan.
  destruct (thread_step i env (w_callee th) p0 (w_store sys)) as [[s1 p1]|] eqn:Hts0;
    [discriminate|]. clear Hts.
  unfold thread_step in Hts0. rewrite Hx in Hts0.
  destruct p0; simpl in Hin; try discriminate; simpl in Hts0, Hscan.
  - (* the lock *)
    left. split; [done|]. destruct (mutex_ (task_ x)); [eauto|discriminate].
  - (* a dependency *)
    destruct rest as [|task rest]; [discriminate|].
    destruct Hscan as [seen Hdeps].
    destruct (Hv task) as [y Hy].
    { apply elem_of_app. left. rewrite Hdeps. apply elem_of_app. right. left. }
    rewrite Hy in Hts0. destruct (negb (IsFinished y)); discriminate.
  - (* a trigger *)
    destruct rest as [|task rest]; [destruct (negb _); discriminate|].
    destruct Hscan as [seen Htrig].
    destruct (Hv task) as [y Hy].
    { apply elem_of_app. right. rewrite Htrig. apply elem_of_app. right. left. }
    rewrite Hy in Hts0. discriminate.
  - destruct (_ <? _); discriminate.
  - destruct (negb _); discriminate.
  - destruct (_ && _); discriminate.
  - destruct (negb _); discriminate.
  - (* the body *)
    right. split; [done|]. destruct (fn_ x (heap (w_store sys))); try discriminate; auto.
Qed.
End Blocking.

Section First.
Context {T Exn : Type}.
Implicit Types (s : Store T Exn) (w : Store T Exn * Executor) (x : Future T Exn).
Implicit Types (h : Heap T Exn).

(** X19.  [WhenFirst] of a vector that is not empty, on an open executor.  In
    any store that holds the future as made and the elements, [TryExecute]
    leaves the future unrun while no element is finished; once an element
    is finished, and the clock reads no less than at the making, it runs
    the body, which takes the first finished element in input order: the
    future ends [Completed] with that element's result or [Failed] with its
    exception, and [all.front()] is not reached. *)
Theorem WhenFirst_waits_for_first init all now w :
  Queue.IsCanceled (scheduler_ w.2) = false →
  ∃ w' x,
    WhenFirst init all now w = Returned (w', length w.1) ∧
    w'.1 !! length w.1 = Some x ∧
    ∀ s now',
      s !! length w.1 = Some x →
      (∀ a, a ∈ all → (a < length w.1)%nat) →
      (all ≠ [] →
       (∀ a, a ∈ all → ∃ z, heap s !! a = Some z ∧ IsFinished z = false) →
       TryExecute now' (length w.1) s = Returned (s, false)) ∧
      (∀ pre a post z,
         all = pre ++ a :: post →
         (∀ b, b ∈ pre → ∃ z', heap s !! b = Some z' ∧ IsFinished z' = false) →
         heap s !! a = Some z → IsFinished z = true → now ≤ now' →
         (IsFailed z = false →
          ∃ s', TryExecute now' (length w.1) s = Returned (s', true) ∧
                completed_with (length w.1) (result_ z) s s') ∧
         (∀ e, IsFailed z = true → GetError z = Some e →
          ∃ s', TryExecute now' (length w.1) s = Returned (s', true) ∧
                failed_with (length w.1) e s s')).
Proof.
  intros Hopen.
  destruct (WhenFirst_spec init all now w)
    as (w' & x & HW & Hsub & Hd & Ht & Htt & Hr & Hfn).
  exists w', x. destruct Hsub as (Hx & _ & _ & _ & _ & Hq).
  rewrite Hopen in Hq. destruct Hq as [Hp _].
  split_and!; try done.
  intros s now' Hxs Hlt.
  assert (Hv : handles_valid (heap s) (task_ x)).
  { intros d. rewrite Hd, Ht. simpl. intros Hin.
    apply lookup_lt_is_Some. unfold heap. rewrite length_fmap.
    apply Hlt in Hin. apply lookup_lt_Some in Hxs. lia. }
  split.
  - intros Hne Hnone. apply (TryExecute_gate_unmet s now' _ x Hxs Hv).
    intros (_ & Htrig & _). rewrite Ht in Htrig.
    destruct Htrig as [?|(d & y & Hin & Hy & Hf)]; [done|].
    destruct (Hnone d Hin) as (z & Hz & Hfz). congruence.
  - intros pre a post z -> Hpre Ha Hfin Hle.
    assert (Hg : gate_met (heap s) now' (task_ x)).
    { split_and!; auto.
      - rewrite Hd. intros d Hin. by apply elem_of_nil in Hin.
      - right. rewrite Ht. exists a. exists z. split_and!; auto.
        apply elem_of_app. right. left.
      - now rewrite Htt. }
    pose proof (TryExecute_body s now' _ x Hxs Hv Hg) as Hbody.
    assert (Hsame : ∀ b, b ∈ pre ++ a :: post →
              body_heap (length w.1) s !! b = heap s !! b).
    { intros b Hb. unfold body_heap.
      rewrite !heap_lookup, lookup_update_ne; [done|].
      apply Hlt in Hb. lia. }
    assert (Hget : fn_ x (body_heap (length w.1) s) = Get z).
    { rewrite Hfn. apply WhenFirst_fn_first; auto.
      - intros b Hb. rewrite Hsame; [auto|]. apply elem_of_app. now left.
      - rewrite Hsame; [done|]. apply elem_of_app. right. left. }
    rewrite Hget in Hbody. split.
    + intros Hnf. now rewrite (Get_finished z Hfin Hnf) in Hbody.
    + intros e Hf He. now rewrite (Get_failed z e Hf He) in Hbody.
Qed.
End First.

(** ** A worker polls *)

Section Polling.
Context {T Exn : Type}.
Implicit Types (s : Store T Exn) (w : Store T Exn * Executor) (x : Future T Exn).

(** X20.  A worker polls.  On an open queue that is not empty and in which
    no task is ready at the clock readings of the passes, every pass leaves
    the store as it was and moves the first handle to the back: the loop
    neither blocks nor ends, and after the passes the queue holds the same
    handles, turned round once per pass. *)
Theorem worker_polls nows s data :
  data ≠ [] → none_ready nows s data →
  worker_thread nows (s, MkExecutor (Queue.Mk data false)) =
    Returned (s, MkExecutor (Queue.Mk (Nat.iter (length nows) to_back data) false), false).
Proof.
  revert data. induction nows as [|now nows IH]; intros data Hne Hnone.
  - reflexivity.
  - destruct data as [|a rest]; [done|].
    destruct (Hnone a) as (task & x & -> & Hx & Hv & Hp & Hg); [left|].
    cbn [worker_thread].
    rewrite (worker_unready now (s, MkExecutor (Queue.Mk (Some task :: rest) false))
               task rest x eq_refl Hx Hv Hp); [|apply Hg; left].
    simpl. rewrite IH.
    + do 3 f_equal.
      change (to_back (Nat.iter (length nows) to_back (Some task :: rest)))
        with (Nat.iter (S (length nows)) to_back (Some task :: rest)).
      now rewrite Nat.iter_succ_r.
    + intros Hnil. by destruct rest.
    + intros b Hb.
      destruct (Hnone b) as (t' & y & -> & Hy & Hvy & Hpy & Hgy).
      { apply elem_of_app in Hb as [Hb|Hb]; [now right|].
        apply list_elem_of_singleton in Hb as ->. left. }
      exists t'. exists y. split_and!; auto.
      intros now' Hin. apply Hgy. now right.
Qed.
End Polling.

(** ** The theorems at concrete executors *)

(** Task 1 of [gate_events] at tick 3, before its time trigger, and at tick
    7. *)
Lemma TryExecute_gate_witness :
  (world_after gate_events).1 !! 1%nat = Some gate_task ∧
  handles_valid (heap (world_after gate_events).1) (task_ gate_task) ∧
  ¬ gate_met (heap (world_after gate_events).1) 3 (task_ gate_task) ∧
  TryExecute 3 1%nat (world_after gate_events).1 =
    Returned ((world_after gate_events).1, false) ∧
  gate_met (heap (world_after gate_events).1) 7 (task_ gate_task).
Proof.
  assert (Hv : handles_valid (heap (world_after gate_events).1) (task_ gate_task)).
  { intros d Hd. simpl in Hd. apply list_elem_of_singleton in Hd as ->.
    vm_compute. eauto. }
  assert (Hg : ¬ gate_met (heap (world_after gate_events).1) 3 (task_ gate_task)).
  { intros (_ & _ & Ht & _). simpl in Ht. lia. }
  split_and!; [reflexivity|exact Hv|exact Hg| |].
  - apply (proj2 (TryExecute_gate (world_after gate_events).1 3 1%nat gate_task eq_refl));
      assumption.
  - eapply (proj1 (TryExecute_gate (world_after gate_events).1 7 1%nat gate_task eq_refl)).
    reflexivity.
Defined.

(** A thread about to compare and exchange on a [Pending] task: whatever
    happens next, the task's state stays or moves along a transition. *)
Lemma state_moves_witness :
  reachable (sys_after (cas_acts (returns (Scalar 42)))) ∧
  store (sys_after (cas_acts (returns (Scalar 42)))) !! 0%nat = Some cas_task ∧
  (∀ a sys',
     step a (sys_after (cas_acts (returns (Scalar 42)))) = Some sys' →
     ∃ x', store sys' !! 0%nat = Some x' ∧
       (state_ (task_ x') = Pending ∨ transition Pending (state_ (task_ x'))) ∧
       ¬ (Pending = Running ∧ state_ (task_ x') = Canceled)) ∧
  (∀ acts sys',
     run acts (sys_after (cas_acts (returns (Scalar 42)))) = Some sys' →
     ∃ x', store sys' !! 0%nat = Some x' ∧
       rtc transition Pending (state_ (task_ x')) ∧
       (terminal Pending → state_ (task_ x') = Pending)).
Proof.
  assert (Hr : reachable (sys_after (cas_acts (returns (Scalar 42))))).
  { exists (cas_acts (returns (Scalar 42))). reflexivity. }
  split; [exact Hr|]. split; [reflexivity|].
  exact (state_moves_along_transitions
           (sys_after (cas_acts (returns (Scalar 42)))) 0%nat cas_task Hr eq_refl).
Defined.

(** The body of task 0 throws ["ErrX"]; once the thread has left
    [TryExecute] the task is [Failed] and [Get] raises ["ErrX"]. *)
Lemma exception_capture_witness :
  reachable (sys_after body_acts) ∧
  store (sys_after body_acts) !! 0%nat = Some body_task ∧
  fn_ body_task (heap (store (sys_after body_acts))) = Raised "ErrX" ∧
  ∃ x', store (sys_after (body_acts ++ [Act_step 0%nat env1; Act_step 0%nat env1;
                                        Act_step 0%nat env1; Act_step 0%nat env1]))
          !! 0%nat = Some x' ∧
        IsFailed (task_ x') = true ∧
        GetError (task_ x') = Some "ErrX" ∧
        Get (task_ x') = Raised "ErrX".
Proof.
  assert (Hr : reachable (sys_after body_acts)).
  { exists body_acts. reflexivity. }
  split; [exact Hr|]. split; [reflexivity|]. split; [reflexivity|].
  exact (proj1 exception_capture
           (sys_after body_acts) 0%nat (MkThread 0%nat TE_run) body_task "ErrX" env1
           [Act_step 0%nat env1; Act_step 0%nat env1; Act_step 0%nat env1]
           (sys_after (body_acts ++ [Act_step 0%nat env1; Act_step 0%nat env1;
                                     Act_step 0%nat env1; Act_step 0%nat env1]))
           (MkThread 0%nat Done)
           Hr eq_refl eq_refl eq_refl eq_refl eq_refl eq_refl eq_refl).
Defined.



(** C5 as stated fails: a task that a worker has completed is submitted
    again after [StartShutdown]; [Submit] returns and the task is
    [Completed], not [Canceled]. *)
Lemma Submit_after_shutdown_keeps_completed :
  events resubmit_events empty_world = Returned (world_after resubmit_events) ∧
  Queue.IsCanceled (scheduler_ (world_after resubmit_events).2) = true ∧
  Submit 0%nat (world_after resubmit_events) = Returned (world_after resubmit_events) ∧
  (world_after resubmit_events).1 !! 0%nat = Some completed_task ∧
  state_ (task_ completed_task) = Completed ∧
  state_ (task_ completed_task) ≠ Canceled.
Proof. split_and!; [reflexivity..|discriminate]. Qed.

(** A task still [Pending] is submitted after [StartShutdown]. *)
Lemma Submit_after_shutdown_witness :
  (world_after late_events).1 !! 0%nat = Some pending_task ∧
  Queue.IsCanceled (scheduler_ (world_after late_events).2) = true ∧
  ∃ s' x',
    Submit 0%nat (world_after late_events) = Returned (s', (world_after late_events).2) ∧
    s' !! 0%nat = Some x' ∧
    (state_ (task_ pending_task) = Pending → state_ (task_ x') = Canceled) ∧
    (state_ (task_ pending_task) ≠ Pending → s' = (world_after late_events).1 ∧ x' = pending_task).
Proof.
  split; [reflexivity|]. split; [reflexivity|].
  exact (proj1 (proj2 (Submit_after_shutdown 0%nat (world_after late_events)
                         pending_task eq_refl)) eq_refl).
Defined.


(** With the failed future left out, the body returns the results of the
    finished ones. *)
Lemma WhenAllBeforeDeadline_returns :
  WhenAllBeforeDeadline_fn [0; 2]%nat (heap (world_after gather_events).1) =
    Returned (Vector [Scalar 1]).
Proof. reflexivity. Qed.



(** One thread runs [TryExecute] on a fresh future at tick 1: the machine
    ends where the sequential form does. *)
Lemma TryExecute_alone_witness :
  [pending_task] !! 0%nat = Some pending_task ∧
  sees_public (fn_ pending_task) ∧
  TryExecute 1 0%nat [pending_task] = Returned ([completed_task], true) ∧
  ∃ n, run (Act_TryExecute 0%nat :: replicate n (Act_step 0%nat (MkEnv 1 false)))
           (MkSys [pending_task] []) =
         Some (MkSys [completed_task] [MkThread 0%nat Done]).
Proof.
  assert (Hfn : sees_public (fn_ pending_task)).
  { intros h h' _. reflexivity. }
  split; [reflexivity|]. split; [exact Hfn|]. split; [reflexivity|].
  exact (TryExecute_alone [] 1 0%nat [pending_task] pending_task [completed_task] true
           eq_refl eq_refl Hfn eq_refl).
Defined.

(** One thread runs [Cancel] on a fresh future. *)
Lemma Cancel_alone_witness :
  Cancel 0%nat [pending_task] = Returned [canceled_task] ∧
  ∃ n, run (Act_Cancel 0%nat :: replicate n (Act_step 0%nat (MkEnv 1 false)))
           (MkSys [pending_task] []) =
         Some (MkSys [canceled_task] [MkThread 0%nat Done]).
Proof.
  split; [reflexivity|].
  exact (Cancel_alone [] 1 0%nat [pending_task] [canceled_task] eq_refl).
Defined.

(** The thread of [body_acts] is about to run the body of task 0. *)
Lemma body_entered_witness :
  reachable (sys_after body_acts) ∧
  threads (sys_after body_acts) !! 0%nat = Some (MkThread 0%nat TE_run) ∧
  store (sys_after body_acts) !! 0%nat = Some body_task ∧
  state_ (task_ body_task) = Running ∧
  all_finished (heap (store (sys_after body_acts))) (dependencies_ (task_ body_task)) ∧
  (triggers_ (task_ body_task) = [] ∨
   some_finished (heap (store (sys_after body_acts))) (triggers_ (task_ body_task))).
Proof.
  assert (Hr : reachable (sys_after body_acts)).
  { exists body_acts. reflexivity. }
  split; [exact Hr|]. split; [reflexivity|]. split; [reflexivity|].
  pose proof (body_entered_with_gate_met (sys_after body_acts) 0%nat
                (MkThread 0%nat TE_run) body_task Hr eq_refl eq_refl eq_refl) as H.
  exact (conj (proj1 H) (conj (proj1 (proj2 H)) (proj1 (proj2 (proj2 H))))).
Defined.

(** Three elements are pushed, the queue is cancelled, and the calls
    [Pop; Push 9; Pop; Pop; Pop] follow. *)
Lemma queue_after_cancel_witness :
  ∃ rs,
    Queue.calls [Queue.CPop; Queue.CPush 9; Queue.CPop; Queue.CPop; Queue.CPop]
      (Queue.Cancel (Queue.push_all [1; 2; 3] Queue.new)) =
      Some (rs, Queue.Mk [] true) ∧
    Queue.push_replies rs = [false] ∧
    Queue.pop_replies rs = [Some 1; Some 2; Some 3; None].
Proof.
  exact (proj1 (proj2 (queue_after_cancel [1; 2; 3] 9
           [Queue.CPop; Queue.CPush 9; Queue.CPop; Queue.CPop; Queue.CPop]))).
Defined.

(** [WhenFirst] of the futures 2, 0 and 1 of [gather_events]: future 2 has not
    run, future 0 is the first finished one, and the body returns its
    result. *)
Lemma WhenFirst_witness :
  ∃ w' x,
    WhenFirst (Scalar 0) [2; 0; 1]%nat 2 (world_after gather_events) = Returned (w', 3%nat) ∧
    w'.1 !! 3%nat = Some x ∧
    triggers_ (task_ x) = [2; 0; 1]%nat ∧ dependencies_ (task_ x) = [] ∧
    fn_ x (heap (world_after gather_events).1) = Returned (Scalar 1).
Proof.
  destruct (WhenFirst_first_finished (Scalar 0) [2; 0; 1]%nat 2 (world_after gather_events))
    as (w' & x & Hret & Hx & Htrig & Hdeps & Hbody).
  exists w', x. split_and!; [exact Hret|exact Hx|exact Htrig|exact Hdeps|].
  rewrite (Hbody (heap (world_after gather_events).1) [2%nat] 0%nat [1%nat]
             (MkTask Completed [] [] 0 None None (Scalar 1))); [reflexivity..| |reflexivity|reflexivity].
  intros b Hb. apply list_elem_of_singleton in Hb as ->.
  eexists. split; reflexivity.
Defined.

(** [WhenFirst] of no future, on a new executor: the handle of the future
    is in the queue, and the worker that pops it runs into [front()] of an
    empty vector. *)
Lemma WhenFirst_empty_witness :
  ∃ w' x,
    WhenFirst (Scalar 0) [] 0 empty_world = Returned (w', 0%nat) ∧
    w'.1 !! 0%nat = Some x ∧ triggers_ (task_ x) = [] ∧
    gate_met (heap w'.1) 1 (task_ x) ∧
    TryExecute 1 0%nat w'.1 = Undefined ∧
    scheduler_ w'.2 = Queue.Mk [Some 0%nat] false ∧
    worker 1 w' = Undefined.
Proof.
  destruct (WhenFirst_empty (Scalar 0) 0 empty_world)
    as (w' & x & Hret & Hx & Htrig & _ & _ & Hrun & _ & _ & Hopen & _).
  destruct (Hopen eq_refl) as (_ & _ & Hq & Hworker).
  exists w', x. split_and!; [exact Hret|exact Hx|exact Htrig| | |exact Hq|].
  - apply (Hrun eq_refl 1); lia.
  - apply (Hrun eq_refl 1); lia.
  - apply (Hworker eq_refl 1). lia.
Defined.


(** Two pushes, a pop, a push and a pop on a new queue; and a second [Pop]
    that finds an open queue empty. *)
Lemma queue_fifo_witness :
  (∃ rs,
     Queue.calls [Queue.CPush 1; Queue.CPush 2; Queue.CPop; Queue.CPush 3; Queue.CPop]
       Queue.new = Some (rs, Queue.Mk [3] false) ∧
     Queue.push_replies rs = [true; true; true] ∧
     Queue.pop_replies rs = [Some 1; Some 2]) ∧
  Queue.calls [Queue.CPush 1; Queue.CPop; Queue.CPop; Queue.CPush 2] Queue.new = None.
Proof.
  split.
  - eexists. split; [reflexivity|].
    exact (proj2 (proj1 (queue_fifo
             [Queue.CPush 1; Queue.CPush 2; Queue.CPop; Queue.CPush 3; Queue.CPop] [])
             _ _ eq_refl)).
  - apply (proj2 (proj2 (queue_fifo
             [Queue.CPush 1; Queue.CPop; Queue.CPop; Queue.CPush 2] []))).
    exists [Queue.CPush 1; Queue.CPop], [Queue.CPush 2]. split; [reflexivity|].
    vm_compute. lia.
Defined.

(** The thread of [window_acts], in [Wait], holds the mutex of task 0; the
    thread that has entered [TryExecute] does not. *)
Lemma mutex_excludes_witness :
  wait_reachable (wait_sys_after contended_acts) ∧
  w_threads (wait_sys_after contended_acts) !! 0%nat = Some (MkWaitThread 0%nat WA_wait) ∧
  w_store (wait_sys_after contended_acts) !! 0%nat = Some cas_task ∧
  mutex_ (task_ cas_task) = Some 0%nat ∧
  ∀ j thj, w_threads (wait_sys_after contended_acts) !! j = Some thj →
    w_callee thj = 0%nat → j ≠ 0%nat → wait_holds_lock (w_pc thj) = false.
Proof.
  assert (Hr : wait_reachable (wait_sys_after contended_acts)).
  { exists contended_acts. reflexivity. }
  split; [exact Hr|]. split; [reflexivity|]. split; [reflexivity|].
  exact (mutex_excludes (wait_sys_after contended_acts) 0%nat
           (MkWaitThread 0%nat WA_wait) cas_task Hr eq_refl eq_refl eq_refl).
Defined.

(** One thread runs [TryExecute] to its end: the body has run once. *)
Lemma body_runs_once_witness :
  run run_acts initial = Some (sys_after run_acts) ∧
  store (sys_after run_acts) !! 0%nat = Some completed_task ∧
  body_runs 0%nat run_acts initial = 1%nat ∧
  (body_runs 0%nat run_acts (initial (T := Z) (Exn := string)) ≤ 1)%nat.
Proof.
  split; [reflexivity|]. split; [reflexivity|].
  pose proof (body_runs_once run_acts (sys_after run_acts) 0%nat eq_refl) as [Hle H].
  split; [|exact Hle].
  apply (proj2 (H completed_task eq_refl)). left. reflexivity.
Defined.

(** The task of [run_acts] holds what its function returned. *)
Lemma results_come_from_the_body_witness :
  reachable (sys_after run_acts) ∧
  store (sys_after run_acts) !! 0%nat = Some completed_task ∧
  (∃ h, fn_ completed_task h = Returned (Scalar 42)) ∧
  Get (Exn := string) (task_ completed_task) = Returned (Scalar 42).
Proof.
  assert (Hr : reachable (sys_after run_acts)).
  { exists run_acts. reflexivity. }
  split; [exact Hr|]. split; [reflexivity|].
  exact (proj1 (results_come_from_the_body (sys_after run_acts) 0%nat completed_task
                  Hr eq_refl) eq_refl).
Defined.

(** After [run_acts] a thread calls [Cancel] and another [TryExecute]: the
    task is as it was. *)
Lemma finished_is_final_witness :
  reachable (sys_after run_acts) ∧
  store (sys_after run_acts) !! 0%nat = Some completed_task ∧
  ∃ x', store (sys_after (run_acts ++ [Act_Cancel 0%nat; Act_step 1%nat env1;
                                       Act_TryExecute 0%nat; Act_step 2%nat env1]))
          !! 0%nat = Some x' ∧
        state_ (task_ x') = Completed ∧
        result_ (task_ x') = Scalar 42 ∧
        GetError (task_ x') = None ∧
        Get (task_ x') = Get (task_ completed_task).
Proof.
  assert (Hr : reachable (sys_after run_acts)).
  { exists run_acts. reflexivity. }
  split; [exact Hr|]. split; [reflexivity|].
  refine (finished_is_final (sys_after run_acts) 0%nat completed_task
            [Act_Cancel 0%nat; Act_step 1%nat env1; Act_TryExecute 0%nat; Act_step 2%nat env1]
            _ Hr eq_refl eq_refl _ eq_refl).
  intros H. discriminate H.
Defined.

(** A worker pops the future of [submit_events] at tick 1 and runs it. *)
Lemma worker_pass_witness :
  Queue.data_ (scheduler_ (world_after submit_events).2) = [Some 0%nat] ∧
  (world_after submit_events).1 !! 0%nat = Some pending_task ∧
  gate_met (heap (world_after submit_events).1) 1 (task_ pending_task) ∧
  ∃ s', worker 1 (world_after submit_events) =
          Returned (s', MkExecutor (Queue.Mk [] false), true) ∧
        completed_with 0%nat (Scalar 42) (world_after submit_events).1 s'.
Proof.
  assert (Hv : handles_valid (heap (world_after submit_events).1) (task_ pending_task)).
  { intros d Hd. simpl in Hd. by apply elem_of_nil in Hd. }
  assert (Hg : gate_met (heap (world_after submit_events).1) 1 (task_ pending_task)).
  { split_and!; simpl; [|now left|lia|reflexivity].
    intros d Hd. by apply elem_of_nil in Hd. }
  split; [reflexivity|]. split; [reflexivity|]. split; [exact Hg|].
  exact (proj1 (proj2 (proj2 (worker_pass 1 (world_after submit_events) 0%nat []
                                pending_task eq_refl eq_refl Hv)) Hg)
           (Scalar 42) eq_refl).
Defined.

(** A gather with deadline 5 is not run at tick 4. *)
Lemma WhenAllBeforeDeadline_fires_witness :
  Queue.IsCanceled (scheduler_ (world_after gather_events).2) = false ∧
  ∃ w' x,
    WhenAllBeforeDeadline [0; 2]%nat 5 2 (world_after gather_events) = Returned (w', 3%nat) ∧
    w'.1 !! 3%nat = Some x ∧
    TryExecute 4 3%nat w'.1 = Returned (w'.1, false).
Proof.
  split; [reflexivity|].
  destruct (WhenAllBeforeDeadline_fires [0; 2]%nat 5 2 (world_after gather_events) eq_refl)
    as (w' & x & Hret & Hx & Hrun).
  exists w', x. split_and!; [exact Hret|exact Hx|].
  apply (Hrun w'.1 4 Hx). lia.
Defined.

(** Thread 0 sleeps in [Wait]; thread 1 has completed the task and has its
    [notify_all] ahead. *)
Lemma TryExecute_wakes_waiters_witness :
  wait_reachable (wait_sys_after asleep_acts) ∧
  w_threads (wait_sys_after asleep_acts) !! 0%nat = Some (MkWaitThread 0%nat WA_asleep) ∧
  w_store (wait_sys_after asleep_acts) !! 0%nat =
    Some (MkFuture (MkTask Completed [] [] 0 None (Some 1%nat) (Scalar 42))
            (returns (Scalar 42))) ∧
  ∃ j thj, w_threads (wait_sys_after asleep_acts) !! j = Some thj ∧
           w_callee thj = 0%nat ∧ about_to_notify (w_pc thj) = true ∧
           Some 1%nat = Some j.
Proof.
  assert (Hr : wait_reachable (wait_sys_after asleep_acts)).
  { exists asleep_acts. reflexivity. }
  split; [exact Hr|]. split; [reflexivity|]. split; [reflexivity|].
  exact (proj2 (TryExecute_wakes_waiters (wait_sys_after asleep_acts) 0%nat
                  (MkWaitThread 0%nat WA_asleep) _ Hr eq_refl eq_refl)
           eq_refl (or_introl eq_refl)).
Defined.

(** Thread 0 is in the window of [Wait] on a [Pending] task; thread 1 runs
    [Cancel]. *)
Lemma Cancel_wakeup_lost_witness :
  wait_reachable (wait_sys_after window_acts) ∧
  w_threads (wait_sys_after window_acts) !! 0%nat = Some (MkWaitThread 0%nat WA_wait) ∧
  w_store (wait_sys_after window_acts) !! 0%nat =
    Some (MkFuture (MkTask Pending [] [] 0 None (Some 0%nat) (Scalar 0))
            (returns (Scalar 42))) ∧
  ∃ sys',
    wait_run [WAct_Cancel 0%nat; WAct_step 1%nat env1; WAct_step 1%nat env1;
              WAct_step 1%nat env1; WAct_step 0%nat env1]
      (wait_sys_after window_acts) = Some sys' ∧
    ∀ acts sys'',
      Forall (λ a, not_spurious 0%nat a = true) acts →
      wait_run acts sys' = Some sys'' →
      w_threads sys'' !! 0%nat = Some (MkWaitThread 0%nat WA_asleep) ∧
      ∃ x'', w_store sys'' !! 0%nat = Some x'' ∧
             state_ (task_ x'') = Canceled ∧
             Wait (Exn := string) (task_ x'') = Returned tt.
Proof.
  assert (Hr : wait_reachable (wait_sys_after window_acts)).
  { exists window_acts. reflexivity. }
  split; [exact Hr|]. split; [reflexivity|]. split; [reflexivity|].
  exact (Cancel_wakeup_lost (wait_sys_after window_acts) 0%nat
           (MkWaitThread 0%nat WA_wait) _ 1 Hr eq_refl eq_refl eq_refl eq_refl).
Defined.

(** A thread that has entered [Cancel] steps, also after another thread has
    taken the mutex. *)
Lemma Cancel_does_not_wait_witness :
  reachable (sys_after cancel_entered) ∧
  threads (sys_after cancel_entered) !! 0%nat = Some (MkThread 0%nat CA_load) ∧
  is_Some (step (Act_step 0%nat env1) (sys_after cancel_entered)) ∧
  ∃ th', threads (sys_after (cancel_entered ++ [Act_step 0%nat env1; Act_TryExecute 0%nat;
                                               Act_step 0%nat env1]))
           !! 0%nat = Some th' ∧
         callee th' = 0%nat ∧ in_Cancel (pc th') = true.
Proof.
  assert (Hr : reachable (sys_after cancel_entered)).
  { exists cancel_entered. reflexivity. }
  split; [exact Hr|]. split; [reflexivity|].
  pose proof (Cancel_does_not_wait (sys_after cancel_entered) 0%nat
                (MkThread 0%nat CA_load) Hr eq_refl eq_refl) as [Hgo Hrun].
  split.
  - apply Hgo. discriminate.
  - destruct (Hrun [Act_step 0%nat env1; Act_TryExecute 0%nat; Act_step 0%nat env1]
                (sys_after (cancel_entered ++ [Act_step 0%nat env1; Act_TryExecute 0%nat;
                                               Act_step 0%nat env1])))
      as (th' & Hth' & Hc & Hin & _).
    + repeat constructor.
    + reflexivity.
    + exists th'. auto.
Defined.

(** A thread has entered [TryExecute] on task 0 while the thread of
    [window_acts], in [Wait], holds the mutex: it cannot step. *)
Lemma TryExecute_waits_for_the_mutex_witness :
  wait_reachable (wait_sys_after contended_acts) ∧
  w_threads (wait_sys_after contended_acts) !! 0%nat = Some (MkWaitThread 0%nat WA_wait) ∧
  w_threads (wait_sys_after contended_acts) !! 1%nat =
    Some (MkWaitThread 0%nat (In_call TE_lock)) ∧
  w_store (wait_sys_after contended_acts) !! 0%nat = Some cas_task ∧
  wait_step (WAct_step 1%nat env1) (wait_sys_after contended_acts) = None ∧
  is_Some (mutex_ (task_ cas_task)).
Proof.
  assert (Hr : wait_reachable (wait_sys_after contended_acts)).
  { exists contended_acts. reflexivity. }
  assert (Hv : handles_valid (heap (w_store (wait_sys_after contended_acts)))
                 (task_ cas_task)).
  { intros d Hd. simpl in Hd. by apply elem_of_nil in Hd. }
  split; [exact Hr|]. split; [reflexivity|]. split; [reflexivity|].
  split; [reflexivity|]. split; [reflexivity|].
  destruct (TryExecute_waits_for_the_mutex (wait_sys_after contended_acts) 1%nat
              (MkWaitThread 0%nat (In_call TE_lock)) TE_lock cas_task env1
              Hr eq_refl eq_refl eq_refl eq_refl Hv eq_refl)
    as [[_ H]|[H _]]; [exact H|discriminate H].
Defined.

(** [WhenFirst] of the futures 2, 0 and 1 of [gather_events], run at tick
    2: future 0 is the first finished one. *)
Lemma WhenFirst_waits_for_first_witness :
  ∃ w' x,
    WhenFirst (Scalar 0) [2; 0; 1]%nat 2 (world_after gather_events) = Returned (w', 3%nat) ∧
    w'.1 !! 3%nat = Some x ∧
    ∃ s', TryExecute 2 3%nat ((world_after gather_events).1 ++ [x]) = Returned (s', true) ∧
          completed_with 3%nat (Scalar 1) ((world_after gather_events).1 ++ [x]) s'.
Proof.
  destruct (WhenFirst_waits_for_first (Scalar 0) [2; 0; 1]%nat 2 (world_after gather_events)
              eq_refl) as (w' & x & Hret & Hx & Hrun).
  exists w', x. split; [exact Hret|]. split; [exact Hx|].
  assert (Hlt : ∀ a, a ∈ [2; 0; 1]%nat → (a < 3)%nat).
  { intros a Ha. repeat (apply elem_of_cons in Ha as [->|Ha]; [lia|]).
    by apply elem_of_nil in Ha. }
  refine (proj1 (proj2 (Hrun ((world_after gather_events).1 ++ [x]) 2 eq_refl Hlt)
                   [2%nat] 0%nat [1%nat]
                   (MkTask Completed [] [] 0 None None (Scalar 1))
                   eq_refl _ eq_refl eq_refl _) eq_refl).
  - intros b Hb. apply list_elem_of_singleton in Hb as ->.
    eexists. split; reflexivity.
  - lia.
Defined.

(** [Invoke] on a new executor with no object, and a worker pass at tick
    1. *)
Lemma Invoke_then_worker_witness :
  ∃ w1 s',
    Invoke (Scalar 0) (returns (Scalar 42)) 0 ([], new_executor) = Returned (w1, 0%nat) ∧
    worker 1 w1 = Returned (s', new_executor, true) ∧
    completed_with 0%nat (Scalar 42) w1.1 s'.
Proof.
  destruct (Invoke_then_worker (Scalar 0) (returns (Scalar 42)) 0 1 [])
    as (w1 & x & Hret & -> & -> & _ & Hrun).
  destruct (proj1 (Hrun ltac:(lia)) (Scalar 42) eq_refl) as (s' & Hw & Hc).
  eexists. exists s'. split; [exact Hret|]. split; [exact Hw|exact Hc].
Defined.

(** A continuation of the failed future 1 of [gather_events], made at tick
    2: it is not run at tick 1 and is run at tick 2. *)
Lemma Then_waits_for_input_witness :
  ∃ w' x,
    Then (Scalar 0) 1%nat (returns (Scalar 7)) 2 (world_after gather_events) =
      Returned (w', 3%nat) ∧
    w'.1 !! 3%nat = Some x ∧ dependencies_ (task_ x) = [1%nat] ∧
    TryExecute 1 3%nat ((world_after gather_events).1 ++ [x]) =
      Returned ((world_after gather_events).1 ++ [x], false) ∧
    ∃ s', TryExecute 2 3%nat ((world_after gather_events).1 ++ [x]) = Returned (s', true) ∧
          completed_with 3%nat (Scalar 7) ((world_after gather_events).1 ++ [x]) s'.
Proof.
  destruct (Then_waits_for_input (Scalar 0) 1%nat (returns (Scalar 7)) 2
              (world_after gather_events))
    as (w' & x & Hret & Hx & Hd & _ & _ & Hrun).
  destruct (Hrun eq_refl) as [_ Hgate].
  destruct (Hgate ((world_after gather_events).1 ++ [x]) 1 _ eq_refl eq_refl) as [Hwait _].
  destruct (Hgate ((world_after gather_events).1 ++ [x]) 2 _ eq_refl eq_refl) as [_ Hgo].
  exists w', x. split_and!; [exact Hret|exact Hx|exact Hd| |].
  - apply Hwait. right. lia.
  - apply (Hgo eq_refl). lia.
Defined.

(** [WhenAll] of the futures 0 and 1 of [gather_events]: future 1 has
    thrown. *)
Lemma WhenAll_gathers_witness :
  ∃ w' x,
    WhenAll [0; 1]%nat 2 (world_after gather_events) = Returned (w', 3%nat) ∧
    w'.1 !! 3%nat = Some x ∧ dependencies_ (task_ x) = [0; 1]%nat ∧
    fn_ x (heap (world_after gather_events).1) = Raised "ErrX".
Proof.
  destruct (WhenAll_gathers [0; 1]%nat 2 (world_after gather_events))
    as (w' & x & Hret & Hx & Hd & _ & Hbody & _).
  exists w', x. split_and!; [exact Hret|exact Hx|exact Hd|].
  refine (proj2 (Hbody (heap (world_after gather_events).1)
                   [MkTask Completed [] [] 0 None None (Scalar 1);
                    MkTask Failed [] [] 0 (Some "ErrX") None (Scalar 0)] _ _)
            [MkTask Completed [] [] 0 None None (Scalar 1)]
            (MkTask Failed [] [] 0 (Some "ErrX") None (Scalar 0)) [] "ErrX"
            eq_refl _ eq_refl eq_refl).
  - repeat constructor.
  - repeat constructor.
  - repeat constructor.
Defined.

(** The loop of a worker on the cancelled queue of [once_events]: it ends
    at the second pass. *)
Lemma worker_thread_ends_witness :
  Queue.IsCanceled (scheduler_ (world_after once_events).2) = true ∧
  Queue.data_ (scheduler_ (world_after once_events).2) = [Some 0%nat] ∧
  ∃ s', worker_thread [1; 2] (world_after once_events) =
          Returned (s', MkExecutor (Queue.Mk [] true), true) ∧
        length s' = 1%nat.
Proof.
  assert (Hrun : runnable (world_after once_events)).
  { split.
    - intros t x Hx. destruct t as [|t]; [|discriminate Hx].
      injection Hx as <-. split; [|done].
      intros d Hd. simpl in Hd. by apply elem_of_nil in Hd.
    - intros t Ht. apply list_elem_of_singleton in Ht. injection Ht as ->.
      eexists. reflexivity. }
  split; [reflexivity|]. split; [reflexivity|].
  exact (proj2 (worker_thread_ends [1; 2] (world_after once_events)) eq_refl Hrun).
Defined.

(** Three passes over an open queue that holds the task of [once_events],
    which may not start before tick 100. *)
Lemma worker_polls_witness :
  worker_thread [1; 2; 3] ([waiting_task], MkExecutor (Queue.Mk [Some 0%nat] false)) =
    Returned ([waiting_task], MkExecutor (Queue.Mk [Some 0%nat] false), false).
Proof.
  apply (worker_polls [1; 2; 3] [waiting_task] [Some 0%nat]); [done|].
  intros a Ha. apply list_elem_of_singleton in Ha as ->.
  exists 0%nat. exists waiting_task. split_and!; try reflexivity.
  - intros d Hd. simpl in Hd. by apply elem_of_nil in Hd.
  - intros now Hnow (_ & _ & Ht & _). simpl in Ht.
    repeat (apply elem_of_cons in Hnow as [->|Hnow]; [lia|]).
    by apply elem_of_nil in Hnow.
Defined.
